(** * no_file_left_behind: a model of [main.py] and its specification

    The program reconciles a scratch tree against an archive tree.  Its
    core is [match_by], a recursive refinement of two descriptor lists by a
    list of key functions, over [LazyFile] descriptors that cache their size
    and SHA-1 digest.  The development embeds the Python source function by
    function:

    - Python exceptions and mutable objects are threaded through a small
      state-and-error monad [M W];
    - a [dict] is a [gmap], a [set] is a [gset]; the order in which CPython
      iterates over a set is not fixed by the language, so it is a parameter
      [set_iter] of the model;
    - [LazyFile] objects live in a heap and are referred to by location, so
      that the cache fill in [size] and [sha1] is visible through every
      alias;
    - [hashlib.sha1] is an interface, the class [Hashlib] (an accumulator
      with [update] and [hexdigest]); the file system is a finite map from
      path strings to entries;
    - path strings are the bytes of the file names; where Python has the
      [str] that [os.fsdecode] makes of them, the text written to a report
      can be encoded exactly when these bytes are valid UTF-8 ([encodable]);
    - [ScratchFile], which the source defines and never calls, is left
      out. *)

From Stdlib Require Import ZArith.
From Stdlib Require Import Strings.Ascii Strings.Byte.
From stdpp Require Import base option list gmap strings sorting pretty.

(** ** Exceptions and the state-and-error monad *)

Inductive exn : Type :=
  | OSError (path : string)      (* raised by os.path.getsize / open *)
  | TypeError                    (* os.path.isfile(None) *)
  | UnicodeEncodeError           (* f.write of text that cannot be encoded *)
  | InvalidRef (l : nat).        (* a location outside the heap; the program
                                    never builds one *)

Inductive result (A : Type) : Type :=
  | Ok (a : A)
  | Raise (e : exn).
Arguments Ok {A} a.
Arguments Raise {A} e.

Definition M (W A : Type) : Type := W → result (A * W).

Definition ret {W A} (a : A) : M W A := λ w, Ok (a, w).

Definition bind {W A B} (c : M W A) (k : A → M W B) : M W B :=
  λ w, match c w with
       | Ok (a, w') => k a w'
       | Raise e => Raise e
       end.

Definition raise {W A} (e : exn) : M W A := λ _, Raise e.

Declare Scope m_scope.
Delimit Scope m_scope with M.
Notation "x <- c ;; k" := (bind c (λ x, k))
  (at level 100, c at next level, right associativity) : m_scope.
Notation "c ;;; k" := (bind c (λ _, k))
  (at level 100, right associativity) : m_scope.
Local Open Scope m_scope.

(** A left-to-right loop with an accumulator: [for x in xs: acc = body acc x]. *)
Fixpoint for_each {W A B} (xs : list A) (acc : B) (body : B → A → M W B) : M W B :=
  match xs with
  | [] => ret acc
  | x :: xs' => acc' <- body acc x ;; for_each xs' acc' body
  end.

(** ** Keys

    The values the key functions of [main] return: [f.size] is an [int],
    [f.sha1] a [str]. *)

Inductive Key : Type :=
  | KInt (n : Z)
  | KStr (s : string).

Global Instance Key_eq_dec : EqDecision Key.
Proof. solve_decision. Defined.

Definition Key_to_sum (k : Key) : Z + string :=
  match k with KInt n => inl n | KStr s => inr s end.
Definition Key_of_sum (x : Z + string) : Key :=
  match x with inl n => KInt n | inr s => KStr s end.

Global Instance Key_countable : Countable Key.
Proof.
  refine (inj_countable' Key_to_sum Key_of_sum _).
  by intros [].
Defined.

(** ** The progressive matcher: [group_by] and [match_by] *)

Section Matcher.
Context {W F : Type}.

(** The iteration order of a Python [set]. *)
Variable set_iter : gset Key → list Key.

Definition KeyFn : Type := F → M W Key.

(** [res.setdefault(func(f), []).append(f)] for each [f], in order. *)
Fixpoint group_by_into (func : KeyFn) (files : list F)
    (res : gmap Key (list F)) : M W (gmap Key (list F)) :=
  match files with
  | [] => ret res
  | f :: files' =>
      k <- func f ;;
      group_by_into func files' (<[k := default [] (res !! k) ++ [f]]> res)
  end.

Definition group_by (files : list F) (func : KeyFn) : M W (gmap Key (list F)) :=
  group_by_into func files ∅.

(** [d[k]] for a key known to be present. *)
Definition item (d : gmap Key (list F)) (k : Key) : list F := default [] (d !! k).

Fixpoint match_by (scratch archive : list F) (funcs : list KeyFn) {struct funcs}
    : M W (list F * list F) :=
  match funcs with
  | [] => ret (scratch, [])
  | func :: rest =>
      scratch_group <- group_by scratch func ;;
      archive_group <- group_by archive func ;;
      let matching_keys := dom scratch_group ∩ dom archive_group in
      let non_matching_keys := dom scratch_group ∖ matching_keys in
      let no_match := concat (item scratch_group <$> set_iter non_matching_keys) in
      for_each (set_iter matching_keys) ([], no_match)
        (λ '(matching, no_match) k,
           r <- match_by (item scratch_group k) (item archive_group k) rest ;;
           let '(match_on_next_key, no_match_on_next_key) := r in
           ret (matching ++ match_on_next_key, no_match ++ no_match_on_next_key))
  end.
End Matcher.

(** ** The file system, the heap of descriptors and the world *)

(** An entry of the file system.  A directory lists the names it contains;
    the entry a name denotes is found at [os_path_join dir name]. *)
Inductive entry : Type :=
  | File (data : list byte)
  | Dir (st_size : Z) (names : list string).

Inductive io_event : Type :=
  | IoStat (path : string)             (* os.path.getsize, os.path.isfile *)
  | IoScandir (path : string)          (* os.walk *)
  | IoOpen (path : string)             (* open(path, 'rb') *)
  | IoRead (path : string) (n : nat)   (* f.read: number of bytes returned *)
  | IoWrite (path : string).           (* open(path, 'w') and f.write *)

(** [class LazyFile]: the attributes set by [__init__]. *)
Record LazyFile : Type := mkLazyFile {
  full_path : string;
  _size : option Z;
  _sha1 : option string
}.

Abbreviation loc := nat.

Record World : Type := mkWorld {
  fs : gmap string entry;          (* what each path string resolves to *)
  writable : string → bool;        (* may a file be created or truncated here *)
  heap : list LazyFile;            (* the LazyFile objects, by location *)
  stdout : list string;            (* lines printed so far *)
  io_log : list io_event           (* file-system operations so far *)
}.

Definition set_fs (f : gmap string entry) (w : World) : World :=
  mkWorld f (writable w) (heap w) (stdout w) (io_log w).
Definition set_heap (h : list LazyFile) (w : World) : World :=
  mkWorld (fs w) (writable w) h (stdout w) (io_log w).
Definition add_stdout (line : string) (w : World) : World :=
  mkWorld (fs w) (writable w) (heap w) (stdout w ++ [line]) (io_log w).
Definition add_io (e : io_event) (w : World) : World :=
  mkWorld (fs w) (writable w) (heap w) (stdout w) (io_log w ++ [e]).

Definition print (line : string) : M World unit := λ w, Ok (tt, add_stdout line w).
Definition log_io (e : io_event) : M World unit := λ w, Ok (tt, add_io e w).

(** Reading the object at a location, and storing an object there. *)
Definition deref (l : loc) : M World LazyFile :=
  λ w, match heap w !! l with
       | Some o => Ok (o, w)
       | None => Raise (InvalidRef l)
       end.
Definition assign (l : loc) (o : LazyFile) : M World unit :=
  λ w, Ok (tt, set_heap (<[l := o]> (heap w)) w).

(** [self._size = v] and [self._sha1 = v]. *)
Definition set_size (self : loc) (v : Z) : M World unit :=
  o <- deref self ;;
  assign self (mkLazyFile (full_path o) (Some v) (_sha1 o)).
Definition set_sha1 (self : loc) (v : string) : M World unit :=
  o <- deref self ;;
  assign self (mkLazyFile (full_path o) (_size o) (Some v)).

(** [LazyFile(full_path)]: a new object, both caches unset. *)
Definition new_LazyFile (path : string) : M World loc :=
  λ w, Ok (length (heap w), set_heap (heap w ++ [mkLazyFile path None None]) w).

(** *** The [os] functions the program calls *)

Definition nl : string := String "010"%char "".
Definition sep : string := "/".

Definition startswith (s pattern : string) : bool :=
  bool_decide (String.list_ascii_of_string pattern `prefix_of` String.list_ascii_of_string s).
Definition endswith (s pattern : string) : bool :=
  bool_decide (String.list_ascii_of_string pattern `suffix_of` String.list_ascii_of_string s).

(** [posixpath.join] for two components. *)
Definition os_path_join (a b : string) : string :=
  if startswith b sep then b
  else if bool_decide (a = "") || endswith a sep then a +:+ b
  else a +:+ sep +:+ b.

(** [os.path.getsize]: [os.stat(path).st_size]; [OSError] when the path
    does not resolve. *)
Definition os_path_getsize (path : string) : M World Z :=
  λ w, match fs w !! path with
       | Some (File data) => Ok (Z.of_nat (length data), add_io (IoStat path) w)
       | Some (Dir sz _) => Ok (sz, add_io (IoStat path) w)
       | None => Raise (OSError path)
       end.

(** [os.path.isfile]: false, not an error, when [os.stat] fails. *)
Definition os_path_isfile (path : string) : M World bool :=
  λ w, Ok (match fs w !! path with Some (File _) => true | _ => false end,
           add_io (IoStat path) w).

Definition is_dir (f : gmap string entry) (path : string) : bool :=
  match f !! path with Some (Dir _ _) => true | _ => false end.

(** [os.walk(top)], top-down, with the default [onerror=None]: a directory
    that cannot be scanned contributes nothing and raises nothing.  [depth]
    bounds the nesting that is followed. *)
Fixpoint os_walk (depth : nat) (f : gmap string entry) (top : string)
    : list (string * list string * list string) :=
  match depth with
  | O => []
  | S depth' =>
      match f !! top with
      | Some (Dir _ names) =>
          let dirs := filter (λ name, is_dir f (os_path_join top name) = true) names in
          let nondirs := filter (λ name, is_dir f (os_path_join top name) = false) names in
          (top, dirs, nondirs)
            :: concat ((λ name, os_walk depth' f (os_path_join top name)) <$> dirs)
      | _ => []
      end
  end.

(** [open(path, 'rb')]: the whole content, which [f.read] then hands out. *)
Definition open_rb (path : string) : M World (list byte) :=
  λ w, match fs w !! path with
       | Some (File data) => Ok (data, add_io (IoOpen path) w)
       | _ => Raise (OSError path)
       end.

(** The text encoding of [open(path, 'w')], UTF-8 in strict mode.  A file
    name that is not valid UTF-8 reaches the program as a [str] with lone
    surrogates ([os.fsdecode]), which the encoder refuses; the model keeps
    the bytes of the name, so a text can be encoded exactly when its bytes
    are well-formed UTF-8 (RFC 3629: no overlong form, no surrogate, nothing
    above U+10FFFF).  The automaton reads a byte at a time: it is between
    characters, or it expects [more] continuation bytes after one in
    [lo..hi]. *)
Inductive utf8_state : Type :=
  | Utf8Start
  | Utf8Cont (more : nat) (lo hi : N).

Definition utf8_step (s : utf8_state) (b : N) : option utf8_state :=
  match s with
  | Utf8Start =>
      if (b <=? 0x7F)%N then Some Utf8Start
      else if (0xC2 <=? b)%N && (b <=? 0xDF)%N then Some (Utf8Cont 0 0x80 0xBF)
      else if (b =? 0xE0)%N then Some (Utf8Cont 1 0xA0 0xBF)
      else if (0xE1 <=? b)%N && (b <=? 0xEC)%N then Some (Utf8Cont 1 0x80 0xBF)
      else if (b =? 0xED)%N then Some (Utf8Cont 1 0x80 0x9F)
      else if (0xEE <=? b)%N && (b <=? 0xEF)%N then Some (Utf8Cont 1 0x80 0xBF)
      else if (b =? 0xF0)%N then Some (Utf8Cont 2 0x90 0xBF)
      else if (0xF1 <=? b)%N && (b <=? 0xF3)%N then Some (Utf8Cont 2 0x80 0xBF)
      else if (b =? 0xF4)%N then Some (Utf8Cont 2 0x80 0x8F)
      else None
  | Utf8Cont more lo hi =>
      if (lo <=? b)%N && (b <=? hi)%N
      then Some (match more with
                 | O => Utf8Start
                 | S more' => Utf8Cont more' 0x80 0xBF
                 end)
      else None
  end.

Fixpoint utf8_accepts (s : utf8_state) (bytes : list N) : bool :=
  match bytes with
  | [] => match s with Utf8Start => true | Utf8Cont _ _ _ => false end
  | b :: bytes' =>
      match utf8_step s b with
      | Some s' => utf8_accepts s' bytes'
      | None => false
      end
  end.

Definition encodable (text : string) : bool :=
  utf8_accepts Utf8Start (N_of_ascii <$> String.list_ascii_of_string text).

(** [open(path, 'w')] followed by one [f.write(text)]: [open] raises
    [OSError], and then [f.write] raises [UnicodeEncodeError] for a text
    that cannot be encoded. *)
Definition write_text (path : string) (text : string) : M World unit :=
  λ w, if writable w path && negb (is_dir (fs w) path)
       then if encodable text
            then Ok (tt, add_io (IoWrite path)
                           (set_fs (<[path := File (String.list_byte_of_string text)]> (fs w)) w))
            else Raise UnicodeEncodeError
       else Raise (OSError path).

(** ** [LazyFile]: the cached attributes *)

Definition HASH_BUF_BYTES : nat := Z.to_nat 65536.
Global Opaque HASH_BUF_BYTES.
Definition IGNORED_FILES : list string := [".DS_Store"; ".gdoc"; ".gsheet"; ".gslides"].

(** The [size] property. *)
Definition size (self : loc) : M World Z :=
  o <- deref self ;;
  match _size o with
  | None =>
      v <- os_path_getsize (full_path o) ;;
      set_size self v ;;;
      ret v
  | Some v => ret v
  end.

(** [ignored_by_path]: the loop over [IGNORED_FILES]. *)
Fixpoint ignored_loop (path : string) (patterns : list string) : bool :=
  match patterns with
  | [] => false
  | pattern :: patterns' =>
      if endswith path pattern then true else ignored_loop path patterns'
  end.

Definition ignored_by_path (self : loc) : M World bool :=
  o <- deref self ;;
  ret (ignored_loop (full_path o) IGNORED_FILES).

(** [hashlib.sha1]: the type of the accumulator, a new accumulator,
    [update] and [hexdigest]. *)
Class Hashlib : Type := mkHashlib {
  HS : Type;
  sha1_new : HS;
  sha1_update : HS → list byte → HS;
  sha1_hexdigest : HS → string
}.

Section Sha1.
Context {hashlib : Hashlib}.

(** The [while True] loop of [sha1] over the unread part of the file.
    Every turn but the last consumes at least one byte, so
    [S (length rest)] turns are enough. *)
Fixpoint read_loop (turns : nat) (path : string) (rest : list byte) (h : HS)
    : M World HS :=
  match turns with
  | O => ret h
  | S turns' =>
      let data := take HASH_BUF_BYTES rest in
      log_io (IoRead path (length data)) ;;;
      match data with
      | [] => ret h
      | _ => read_loop turns' path (drop HASH_BUF_BYTES rest) (sha1_update h data)
      end
  end.

(** The [sha1] property. *)
Definition sha1 (self : loc) : M World string :=
  o <- deref self ;;
  match _sha1 o with
  | None =>
      content <- open_rb (full_path o) ;;
      h <- read_loop (S (length content)) (full_path o) content sha1_new ;;
      set_sha1 self (sha1_hexdigest h) ;;;
      ret (sha1_hexdigest h)
  | Some v => ret v
  end.
End Sha1.

(** ** The tree loader, the report writer and [main] *)

(** The triples [os.walk(top)] yields.  The nesting followed is bounded by
    the number of entries of the file system. *)
Definition walk (top : string) : M World (list (string * list string * list string)) :=
  λ w, Ok (os_walk (S (base.size (fs w))) (fs w) top, add_io (IoScandir top) w).

Definition read_files (directory_or_file : string) : M World (list loc) :=
  isfile <- os_path_isfile directory_or_file ;;
  if (isfile : bool) then
    lazy <- new_LazyFile directory_or_file ;;
    ret [lazy]
  else
    triples <- walk directory_or_file ;;
    r <- for_each triples ([], O)
           (λ acc '(dirpath, dirnames, filenames),
              for_each filenames acc
                (λ '(res, total_files) filename,
                   let full_path := os_path_join dirpath filename in
                   lazy <- new_LazyFile full_path ;;
                   ret (res ++ [lazy], S total_files))) ;;
    let '(res, total_files) := r in
    print ("A total of " +:+ pretty total_files +:+ " were contained in "
             +:+ directory_or_file) ;;;
    ret res.

(** [[f.full_path for f in files]]. *)
Fixpoint full_paths (files : list loc) : M World (list string) :=
  match files with
  | [] => ret []
  | f :: files' =>
      o <- deref f ;;
      ps <- full_paths files' ;;
      ret (full_path o :: ps)
  end.

Definition write_paths_to_file (files : list loc) (out_file : string) : M World unit :=
  files <- full_paths files ;;
  let files := merge_sort String.le files in
  write_text out_file (String.concat nl files +:+ nl).

(** [list(filter(lambda f: not f.ignored_by_path(), scratch))]. *)
Fixpoint filter_not_ignored (scratch : list loc) : M World (list loc) :=
  match scratch with
  | [] => ret []
  | f :: scratch' =>
      ignored <- ignored_by_path f ;;
      kept <- filter_not_ignored scratch' ;;
      ret (if (ignored : bool) then kept else f :: kept)
  end.

(** The namespace [parser.parse_args()] returns; an option that was not
    given is [None]. *)
Record Args : Type := mkArgs {
  args_archive : option string;
  args_scratch : option string;
  args_output : option string
}.

(** The local variables of [main] when it returns. *)
Record Locals : Type := mkLocals {
  loc_scratch : list loc;
  loc_archive : list loc;
  loc_matched : list loc;
  loc_no_match : list loc
}.

Section Main.
Context {hashlib : Hashlib}.
Variable set_iter : gset Key → list Key.

(** [lambda f: f.size] and [lambda f: f.sha1]. *)
Definition size_key : @KeyFn World loc := λ f, v <- size f ;; ret (KInt v).
Definition sha1_key : @KeyFn World loc :=
  λ f, v <- sha1 f ;; ret (KStr v).

(** [read_files(args.x)]: [os.path.isfile(None)] raises [TypeError]. *)
Definition read_files_arg (path : option string) : M World (list loc) :=
  match path with
  | Some p => read_files p
  | None => raise TypeError
  end.

(** [main].  The Python function returns [None]; the model returns its
    local variables, so that properties can speak about them. *)
Definition main (args : Args) : M World Locals :=
  scratch <- read_files_arg (args_scratch args) ;;
  archive <- read_files_arg (args_archive args) ;;
  scratch <- filter_not_ignored scratch ;;
  r <- match_by set_iter scratch archive [size_key; sha1_key] ;;
  let '(matched, no_match) := r in
  print (pretty (length no_match) +:+ "/" +:+ pretty (length scratch)
           +:+ " scratch files do not appear in the archive ("
           +:+ pretty (length archive) +:+ " files).") ;;;
  match args_output args with
  | Some output =>
      write_paths_to_file matched (os_path_join output "duplicates.txt") ;;;
      write_paths_to_file no_match (os_path_join output "missing.txt")
  | None => ret tt
  end ;;;
  ret (mkLocals scratch archive matched no_match).
End Main.

(** ** A concrete instance, for evaluation

    A stand-in for [hashlib.sha1] that accumulates the bytes seen and
    prints them as the digest, and the iteration order of [elements]. *)
Module Sample.
#[global] Instance hashlib : Hashlib := {|
  HS := list byte;
  sha1_new := [];
  sha1_update h data := h ++ data;
  sha1_hexdigest h := String.string_of_list_byte h
|}.
Definition set_iter (X : gset Key) : list Key := elements X.

Definition bytes (s : string) : list byte := String.list_byte_of_string s.

Definition tree : gmap string entry :=
  list_to_map
    [ ("/s", Dir 4096 ["a.txt"; "b.txt"; "c.jpg"; ".DS_Store"; "sub"]);
      ("/s/a.txt", File (bytes "0123456789"));
      ("/s/b.txt", File (bytes "abcdefghij"));
      ("/s/c.jpg", File (bytes "picture"));
      ("/s/.DS_Store", File (bytes "0123456789"));
      ("/s/sub", Dir 4096 ["notes.gdoc"]);
      ("/s/sub/notes.gdoc", File (bytes "link"));
      ("/a", Dir 4096 ["x.bin"; "y.gdoc"]);
      ("/a/x.bin", File (bytes "0123456789"));
      ("/a/y.gdoc", File (bytes "picture"));
      ("/out", Dir 4096 []) ].

Definition world0 : World := mkWorld tree (λ _, true) [] [] [].

Definition run (args : Args) : result (Locals * World) :=
  main set_iter args world0.

(** The world after [read_files "/s"] and [read_files "/a"]: descriptors
    0 to 4 are the scratch files, 5 and 6 the archive files. *)
Definition world1 : World :=
  match (_ <- read_files "/s" ;; read_files "/a") world0 with
  | Ok (_, w) => w
  | Raise _ => world0
  end.

(** The same, except that [/s/c.jpg] can be asked for its size (7) but
    cannot be opened for reading. *)
Definition world2 : World :=
  set_fs (<["/s/c.jpg" := Dir 7 []]> (fs world1)) world1.

(** A tree whose directory [/a] lists a name that does not resolve (a
    symbolic link whose target is gone), and the world after
    [read_files "/a"] there: descriptor 0 has the path [/a/gone]. *)
Definition dangling_tree : gmap string entry :=
  list_to_map [ ("/a", Dir 4096 ["gone"]) ].

Definition dangling : World :=
  match read_files "/a" (mkWorld dangling_tree (λ _, true) [] [] []) with
  | Ok (_, w) => w
  | Raise _ => mkWorld dangling_tree (λ _, true) [] [] []
  end.
End Sample.

(** * Vocabulary of the specification

    Definitions that the statements and proofs use to speak about runs of
    the program; none of them is part of the program. *)

(** The keys [func] returns on [files], each paired with its file: what
    the loop of [group_by] observes, separated from the dictionary it
    builds. *)
Fixpoint keyed {W F} (func : @KeyFn W F) (files : list F) : M W (list (Key * F)) :=
  match files with
  | [] => ret []
  | f :: files' =>
      k <- func f ;;
      ps <- keyed func files' ;;
      ret ((k, f) :: ps)
  end.

Definition group_pairs {F} (ps : list (Key * F)) (res : gmap Key (list F))
    : gmap Key (list F) :=
  foldl (λ res p, <[p.1 := default [] (res !! p.1) ++ [p.2]]> res) res ps.

Definition with_key {F} (k : Key) (ps : list (Key * F)) : list F :=
  (filter (λ p, p.1 = k) ps).*2.

(** A sequence of calls [body k], each starting in the world the previous
    one left. *)
Inductive runs {W K R : Type} (body : K → M W R) : list K → W → list R → W → Prop :=
  | runs_nil w : runs body [] w [] w
  | runs_cons k ks w r w1 rs w' :
      body k w = Ok (r, w1) → runs body ks w1 rs w' →
      runs body (k :: ks) w (r :: rs) w'.

(** The keys of the first stage: those of the scratch side that the
    archive side shares, and the others. *)
Definition shared_keys {F} (ps pa : list (Key * F)) : gset Key :=
  list_to_set ps.*1 ∩ list_to_set pa.*1.
Definition lone_keys {F} (ps pa : list (Key * F)) : gset Key :=
  list_to_set ps.*1 ∖ shared_keys ps pa.

Definition next_stage {W F} (set_iter : gset Key → list Key)
    (rest : list (@KeyFn W F)) (sg ag : gmap Key (list F))
    : list F * list F → Key → M W (list F * list F) :=
  λ '(matching, no_match) k,
    r <- match_by set_iter (item sg k) (item ag k) rest ;;
    let '(match_on_next_key, no_match_on_next_key) := r in
    ret (matching ++ match_on_next_key, no_match ++ no_match_on_next_key).

(** Two outcomes agree when both raise the same exception or both return the
    same value in related worlds. *)
Definition agree {W1 W2 A} (R : W1 → W2 → Prop)
    (r1 : result (A * W1)) (r2 : result (A * W2)) : Prop :=
  match r1, r2 with
  | Ok (a1, w1), Ok (a2, w2) => a1 = a2 ∧ R w1 w2
  | Raise e1, Raise e2 => e1 = e2
  | _, _ => False
  end.

Definition sim {W1 W2 A} (R : W1 → W2 → Prop) (c1 : M W1 A) (c2 : M W2 A) : Prop :=
  ∀ w1 w2, R w1 w2 → agree R (c1 w1) (c2 w2).

(** [shows I func kf]: in every world that satisfies [I], a call of [func]
    that returns gives the key [kf] gives for the file, and re-establishes
    [I]: the key of a file does not depend on the moment of the call. *)
Definition shows {W F} (I : W → Prop) (func : @KeyFn W F) (kf : F → option Key)
    : Prop :=
  ∀ x w k w', I w → func x w = Ok (k, w') → kf x = Some k ∧ I w'.

(** *** Recording the calls of the key functions

    [traced i func] behaves as [func] and appends [(i, x, k)] to a log each
    time [func] returns key [k] on file [x]; [traced_from i funcs] numbers
    the functions of a list from [i] on. *)
Definition traced {W F} (i : nat) (func : @KeyFn W F)
    : @KeyFn (W * list (nat * F * Key)) F :=
  λ x '(w, tr),
    match func x w with
    | Ok (k, w') => Ok (k, (w', tr ++ [(i, x, k)]))
    | Raise e => Raise e
    end.

Fixpoint traced_from {W F} (i : nat) (funcs : list (@KeyFn W F))
    : list (@KeyFn (W * list (nat * F * Key)) F) :=
  match funcs with
  | [] => []
  | func :: funcs' => traced i func :: traced_from (S i) funcs'
  end.

(** *** What a descriptor shows

    The cache fields of the object at a location, and the size and digest
    an access would show: the cached value when there is one, what the
    file system holds otherwise. *)
Definition cached_size (w : World) (x : loc) : option Z := heap w !! x ≫= _size.
Definition cached_sha1 (w : World) (x : loc) : option string := heap w !! x ≫= _sha1.
Definition path_of (w : World) (x : loc) : option string := full_path <$> heap w !! x.

Definition stat_size (f : gmap string entry) (path : string) : option Z :=
  match f !! path with
  | Some (File data) => Some (Z.of_nat (length data))
  | Some (Dir sz _) => Some sz
  | None => None
  end.

Definition size_of (f : gmap string entry) (o : LazyFile) : option Z :=
  match _size o with
  | Some v => Some v
  | None => stat_size f (full_path o)
  end.

Definition obs_size (w : World) (x : loc) : option Z :=
  heap w !! x ≫= size_of (fs w).

(** The accumulator [read_loop] ends with, as a function of the content. *)
Fixpoint hash_loop `{Hashlib} (turns : nat) (rest : list byte) (h : HS) : HS :=
  match turns with
  | O => h
  | S turns' =>
      match take HASH_BUF_BYTES rest with
      | [] => h
      | data => hash_loop turns' (drop HASH_BUF_BYTES rest) (sha1_update h data)
      end
  end.

Definition digest `{Hashlib} (content : list byte) : string :=
  sha1_hexdigest (hash_loop (S (length content)) content sha1_new).

Definition sha1_of `{Hashlib} (f : gmap string entry) (o : LazyFile)
    : option string :=
  match _sha1 o with
  | Some v => Some v
  | None =>
      match f !! full_path o with
      | Some (File content) => Some (digest content)
      | _ => None
      end
  end.

Definition obs_sha1 `{Hashlib} (w : World) (x : loc) : option string :=
  heap w !! x ≫= sha1_of (fs w).

(** [later w w']: [w'] is [w] after some accesses to descriptors.  The file
    system is the same, every object is still there with the same path, a
    cache that was set has kept its value, and every descriptor shows the
    size and digest it showed before. *)
Record later `{Hashlib} (w w' : World) : Prop := mkLater {
  later_fs : fs w' = fs w;
  later_writable : writable w' = writable w;
  later_stdout : stdout w' = stdout w;
  later_length : length (heap w') = length (heap w);
  later_obj : ∀ x o, heap w !! x = Some o →
    ∃ o', heap w' !! x = Some o' ∧ full_path o' = full_path o ∧
          (∀ v, _size o = Some v → _size o' = Some v) ∧
          (∀ v, _sha1 o = Some v → _sha1 o' = Some v) ∧
          size_of (fs w) o' = size_of (fs w) o ∧
          sha1_of (fs w) o' = sha1_of (fs w) o
}.

(** [caches_kept w w']: every cache that is set in [w] is set to the same
    value in [w']. *)
Definition caches_kept (w w' : World) : Prop :=
  ∀ x, (∀ v, cached_size w x = Some v → cached_size w' x = Some v) ∧
       (∀ v, cached_sha1 w x = Some v → cached_sha1 w' x = Some v).

(** What the program does with descriptors: the three accesses, loading a
    tree and writing a report; and a sequence of such operations. *)
Inductive access : Type :=
  | GetSize (x : loc)
  | GetSha1 (x : loc)
  | IsIgnored (x : loc)
  | ReadFiles (directory_or_file : string)
  | WritePaths (files : list loc) (out_file : string).

Definition do_access `{Hashlib} (a : access) : M World unit :=
  match a with
  | GetSize x => _ <- size x ;; ret tt
  | GetSha1 x => _ <- sha1 x ;; ret tt
  | IsIgnored x => _ <- ignored_by_path x ;; ret tt
  | ReadFiles directory_or_file => _ <- read_files directory_or_file ;; ret tt
  | WritePaths files out_file => write_paths_to_file files out_file
  end.

Fixpoint do_accesses `{Hashlib} (l : list access) : M World unit :=
  match l with
  | [] => ret tt
  | a :: l' =>
      do_access a ;;;
      do_accesses l'
  end.

(** A path that [ignored_by_path] is meant to reject. *)
Definition has_ignored_suffix (path : string) : Prop :=
  ∃ pattern front, pattern ∈ IGNORED_FILES ∧ path = front +:+ pattern.

(** The states the encoder's automaton reaches: a continuation byte is
    never an ASCII byte. *)
Definition utf8_wf (s : utf8_state) : Prop :=
  match s with
  | Utf8Start => True
  | Utf8Cont _ lo _ => (0x80 ≤ lo)%N
  end.

(** The text of a report: each path followed by a newline. *)
Fixpoint lines (paths : list string) : string :=
  match paths with
  | [] => ""
  | p :: paths' => p +:+ nl +:+ lines paths'
  end.

(** *** Further vocabulary

    What the further properties at the end of the file speak about. *)

(** Agreement of an archive descriptor with [x] on size and digest, as the
    descriptors show them in [w]. *)
Definition agrees `{Hashlib} (w : World) (arc : list loc) (x : loc) : Prop :=
  ∃ a, a ∈ arc ∧ obs_size w a = obs_size w x ∧ obs_sha1 w a = obs_sha1 w x.

(** Sharing of the size of [x] by a scratch and an archive descriptor. *)
Definition size_shared (w : World) (scr arc : list loc) (x : loc) : Prop :=
  ∃ s a, s ∈ scr ∧ a ∈ arc ∧
         obs_size w s = obs_size w x ∧ obs_size w a = obs_size w x.

(** The object [LazyFile(path)] makes. *)
Definition fresh_file (path : string) : LazyFile := mkLazyFile path None None.

(** The paths of the files under a directory, in the order [read_files]
    visits them. *)
Definition walk_paths (triples : list (string * list string * list string))
    : list string :=
  concat ((λ t : string * list string * list string,
             os_path_join t.1.1 <$> t.2) <$> triples).

(** The test [main] filters the scratch list with. *)
Definition keeps (w : World) (d : loc) : bool :=
  match path_of w d with
  | Some p => negb (ignored_loop p IGNORED_FILES)
  | None => false
  end.

(** The text of the report for a list of paths. *)
Definition report_text (paths : list string) : string :=
  String.concat nl (merge_sort String.le paths) +:+ nl.

(** Every name a directory lists resolves, to a file or to a directory. *)
Definition listed_resolve (f : gmap string entry) : Prop :=
  ∀ dir sz names name, f !! dir = Some (Dir sz names) → name ∈ names →
    is_Some (f !! os_path_join dir name).

(** Every path that resolves can be encoded. *)
Definition paths_encodable (f : gmap string entry) : Prop :=
  ∀ p, is_Some (f !! p) → encodable p = true.

(** A descriptor that was just made for a regular file. *)
Definition ready (w : World) (x : loc) : Prop :=
  ∃ p data, heap w !! x = Some (fresh_file p) ∧ fs w !! p = Some (File data).

(** * Properties *)

(** ** Running a computation *)

Lemma bind_Ok {W A B} (c : M W A) (k : A → M W B) w b w' :
  bind c k w = Ok (b, w') ↔ ∃ a w1, c w = Ok (a, w1) ∧ k a w1 = Ok (b, w').
Proof.
  unfold bind. split.
  - destruct (c w) as [[a w1]|e]; [eauto|done].
  - by intros (a & w1 & -> & ?).
Qed.

Lemma ret_Ok {W A} (a b : A) (w w' : W) : ret a w = Ok (b, w') ↔ a = b ∧ w = w'.
Proof. unfold ret. naive_solver. Qed.

(** Unfolds the binds and returns of a hypothesis that a run succeeded. *)
Ltac run_inv H :=
  repeat match type of H with
  | bind _ _ _ = Ok _ =>
      let a := fresh "a" in let w := fresh "w" in let H1 := fresh "Hrun" in
      apply bind_Ok in H as (a & w & H1 & H)
  | ret _ _ = Ok _ => apply ret_Ok in H as [? ?]
  end.

Lemma elem_of_concat {A} (x : A) (ls : list (list A)) :
  x ∈ concat ls ↔ ∃ l, l ∈ ls ∧ x ∈ l.
Proof.
  induction ls as [|l ls IH]; simpl.
  - rewrite elem_of_nil. split; [done|]. by intros (l & ?%elem_of_nil & _).
  - rewrite elem_of_app, IH. split.
    + intros [?|(l' & ? & ?)]; [exists l|exists l']; rewrite elem_of_cons; auto.
    + intros (l' & [->|?]%elem_of_cons & ?); eauto.
Qed.

(** ** Grouping *)

Section Grouping.
Context {W F : Type}.
Implicit Types (func : @KeyFn W F) (files : list F) (res : gmap Key (list F)).
Implicit Types (ps : list (Key * F)) (k : Key).

Lemma keyed_files func files w ps w' :
  keyed func files w = Ok (ps, w') → ps.*2 = files.
Proof.
  revert w ps. induction files as [|f files IH]; intros w ps H; simpl in H.
  - apply ret_Ok in H as [Hps _]. by subst.
  - run_inv H. subst. simpl. f_equal. eauto.
Qed.

Lemma group_by_into_keyed func files res w :
  group_by_into func files res w =
  match keyed func files w with
  | Ok (ps, w') => Ok (group_pairs ps res, w')
  | Raise e => Raise e
  end.
Proof.
  revert res w. induction files as [|f files IH]; intros res w; simpl; [done|].
  unfold bind. destruct (func f w) as [[k w1]|e]; [|done].
  rewrite IH. by destruct (keyed func files w1) as [[ps w2]|e].
Qed.

Lemma group_by_Ok func files w g w' :
  group_by files func w = Ok (g, w') ↔
  ∃ ps, keyed func files w = Ok (ps, w') ∧ g = group_pairs ps ∅.
Proof.
  unfold group_by. rewrite group_by_into_keyed.
  destruct (keyed func files w) as [[ps w1]|e]; naive_solver.
Qed.

Lemma item_group_pairs ps res k :
  item (group_pairs ps res) k = item res k ++ with_key k ps.
Proof.
  revert res. induction ps as [|[k' f] ps IH]; intros res; simpl.
  - by rewrite app_nil_r.
  - rewrite IH. unfold with_key. rewrite filter_cons. simpl.
    unfold item at 1. destruct (decide (k' = k)) as [->|Hne].
    + rewrite lookup_insert_eq. simpl. by rewrite <-app_assoc.
    + by rewrite lookup_insert_ne.
Qed.

Lemma dom_group_pairs ps res :
  dom (group_pairs ps res) = dom res ∪ list_to_set ps.*1.
Proof.
  revert res. induction ps as [|[k' f] ps IH]; intros res; simpl.
  - set_solver.
  - rewrite IH, dom_insert_L. set_solver.
Qed.

Lemma elem_of_with_key k ps f : f ∈ with_key k ps ↔ (k, f) ∈ ps.
Proof.
  unfold with_key. rewrite list_elem_of_fmap. split.
  - intros ([k' f'] & -> & [Hk ?]%list_elem_of_filter). simpl in *. by subst.
  - intros ?. exists (k, f). split; [done|]. by apply list_elem_of_filter.
Qed.

Lemma with_key_nil k ps : k ∉ ps.*1 → with_key k ps = [].
Proof.
  intros Hk. unfold with_key. induction ps as [|[k' f] ps IH]; [done|].
  rewrite filter_cons. simpl in *. apply not_elem_of_cons in Hk as [? ?].
  rewrite decide_False by done. auto.
Qed.

(** The groups of distinct keys that cover every key partition the files. *)
Lemma with_key_partition (ks : list Key) ps :
  NoDup ks → (∀ k, k ∈ ps.*1 → k ∈ ks) →
  concat ((λ k, with_key k ps) <$> ks) ≡ₚ ps.*2.
Proof.
  intros Hnd. revert ps. induction Hnd as [|k ks Hk Hnd IH]; intros ps Hcov.
  - destruct ps as [|p ps]; [done|].
    specialize (Hcov p.1). rewrite fmap_cons in Hcov. set_solver.
  - rewrite fmap_cons. simpl.
    rewrite <-(filter_app_complement (λ p, p.1 = k) ps) at 2.
    rewrite fmap_app. apply Permutation_app; [done|].
    rewrite <-(IH (filter (λ p, ¬ p.1 = k) ps)).
    + apply reflexive_eq. f_equal. apply Forall_fmap_ext_1, Forall_forall.
      intros k' Hk'. unfold with_key. f_equal.
      rewrite list_filter_filter. apply list_filter_iff.
      intros p. split; [|naive_solver].
      intros ->. split; [done|]. by intros ->.
    + intros k' ([k'' f] & -> & [Hne Hin]%list_elem_of_filter)%list_elem_of_fmap.
      simpl in *. specialize (Hcov k''). rewrite list_elem_of_fmap in Hcov.
      apply elem_of_cons in Hcov as [?|?]; [done|done|by exists (k'', f)].
Qed.
End Grouping.

(** ** The shape of a successful run of [match_by] *)

Lemma runs_ext {W K R} (body1 body2 : K → M W R) ks w rs w' :
  (∀ k w, k ∈ ks → body1 k w = body2 k w) →
  runs body1 ks w rs w' → runs body2 ks w rs w'.
Proof.
  intros Hext Hr. induction Hr as [|k ks w r w1 rs w' Hk Hr IH]; [constructor|].
  econstructor.
  - rewrite <-Hext; [done|]. apply elem_of_cons. by left.
  - apply IH. intros k' w0 ?. apply Hext. apply elem_of_cons. by right.
Qed.

Lemma runs_length {W K R} (body : K → M W R) ks w rs w' :
  runs body ks w rs w' → length rs = length ks.
Proof. induction 1; simpl; auto. Qed.

(** A property of worlds that every call preserves holds at the end. *)
Lemma runs_preserve {W K R} (body : K → M W R) (I : W → Prop) ks w rs w' :
  (∀ k w r w', k ∈ ks → body k w = Ok (r, w') → I w → I w') →
  runs body ks w rs w' → I w → I w'.
Proof.
  intros Hb Hr. induction Hr as [|k ks w r w1 rs w' Hk Hr IH]; [done|].
  intros Hw. apply IH.
  - intros k' w0 r0 w0' ?. apply Hb. apply elem_of_cons. by right.
  - eapply Hb; [|done..]. apply elem_of_cons. by left.
Qed.

Lemma keyed_runs {W F} (func : @KeyFn W F) files w ps w' :
  keyed func files w = Ok (ps, w') ↔
  runs func files w ps.*1 w' ∧ ps.*2 = files.
Proof.
  revert w ps. induction files as [|f files IH]; intros w ps; simpl.
  - rewrite ret_Ok. split.
    + intros [<- <-]. split; [constructor|done].
    + intros [Hr Hps]. apply fmap_nil_inv in Hps as ->. simpl in Hr.
      by inversion Hr.
  - rewrite bind_Ok. split.
    + intros (k & w1 & Hk & H). run_inv H. subst. simpl.
      match goal with Hps : keyed _ _ _ = _ |- _ => apply IH in Hps as [? ?] end.
      split; [by econstructor|by f_equal].
    + intros [Hr Hps]. destruct ps as [|[k f'] ps]; [done|].
      simpl in *. injection Hps as -> Hps. inversion Hr; subst.
      eexists _, _. split; [done|]. apply bind_Ok. eexists _, _.
      split; [by apply IH|done].
Qed.

Section Shape.
Context {W F : Type}.
Variable set_iter : gset Key → list Key.
Implicit Types (func : @KeyFn W F) (rest funcs : list (@KeyFn W F)).
Implicit Types (scr arc : list F) (ps pa : list (Key * F)).

Lemma for_each_next_stage rest sg ag ks acc w r w' :
  for_each ks acc (next_stage set_iter rest sg ag) w = Ok (r, w') ↔
  ∃ rs, runs (λ k, match_by set_iter (item sg k) (item ag k) rest) ks w rs w'
        ∧ r = (acc.1 ++ concat rs.*1, acc.2 ++ concat rs.*2).
Proof.
  revert acc w. induction ks as [|k ks IH]; intros [m u] w; simpl.
  - rewrite ret_Ok. split.
    + intros [<- <-]. exists []. split; [constructor|]. simpl.
      by rewrite !app_nil_r.
    + intros (rs & Hr & ->). inversion Hr; subst. simpl.
      by rewrite !app_nil_r.
  - rewrite bind_Ok. split.
    + intros ([m1 u1] & w1 & Hk & H). apply IH in H as (rs & Hr & ->).
      apply bind_Ok in Hk as ([m' u'] & w2 & Hk & Hret).
      apply ret_Ok in Hret as [[= <- <-] <-].
      exists ((m', u') :: rs). split; [by econstructor|].
      simpl. by rewrite !app_assoc.
    + intros (rs & Hr & ->). inversion Hr as [|? ? ? [m' u'] w1 rs' ? Hk Hr']; subst.
      exists (m ++ m', u ++ u'), w1. split.
      * apply bind_Ok. eexists _, _. split; [done|done].
      * apply IH. exists rs'. split; [done|]. simpl. by rewrite !app_assoc.
Qed.

Lemma match_by_nil_Ok scr arc w r w' :
  match_by set_iter scr arc (@nil (@KeyFn W F)) w = Ok (r, w') ↔ r = (scr, []) ∧ w' = w.
Proof. simpl. rewrite ret_Ok. naive_solver. Qed.

Lemma match_by_cons_Ok scr arc func rest w r w' :
  match_by set_iter scr arc (func :: rest) w = Ok (r, w') ↔
  ∃ ps w1 pa w2 rs,
    keyed func scr w = Ok (ps, w1) ∧ keyed func arc w1 = Ok (pa, w2) ∧
    runs (λ k, match_by set_iter (with_key k ps) (with_key k pa) rest)
         (set_iter (shared_keys ps pa)) w2 rs w' ∧
    r = (concat rs.*1,
         concat ((λ k, with_key k ps) <$> set_iter (lone_keys ps pa))
           ++ concat rs.*2).
Proof.
  change (match_by set_iter scr arc (func :: rest)) with
    (sg <- group_by scr func ;;
     ag <- group_by arc func ;;
     for_each (set_iter (dom sg ∩ dom ag))
       ([], concat (item sg <$> set_iter (dom sg ∖ (dom sg ∩ dom ag))))
       (next_stage set_iter rest sg ag)).
  assert (Hitem : ∀ ps k, item (group_pairs ps ∅) k = with_key k ps).
  { intros ps k. rewrite item_group_pairs. by unfold item; rewrite lookup_empty. }
  assert (Hdom : ∀ ps, dom (group_pairs (F:=F) ps ∅) = list_to_set ps.*1).
  { intros ps. rewrite dom_group_pairs, dom_empty_L. set_solver. }
  rewrite bind_Ok. split.
  - intros (sg & w1 & (ps & Hps & ->)%group_by_Ok & H).
    apply bind_Ok in H as (ag & w2 & (pa & Hpa & ->)%group_by_Ok & H).
    apply for_each_next_stage in H as (rs & Hr & ->).
    rewrite !Hdom in *. exists ps, w1, pa, w2, rs.
    split_and!; [done|done| |].
    + eapply runs_ext; [|done]. intros k w0 _. simpl. by rewrite !Hitem.
    + simpl. do 3 f_equal. apply Forall_fmap_ext_1, Forall_forall.
      intros k _. apply Hitem.
  - intros (ps & w1 & pa & w2 & rs & Hps & Hpa & Hr & ->).
    exists (group_pairs ps ∅), w1. split; [apply group_by_Ok; eauto|].
    apply bind_Ok. exists (group_pairs pa ∅), w2.
    split; [apply group_by_Ok; eauto|].
    apply for_each_next_stage. exists rs. rewrite !Hdom. split.
    + eapply runs_ext; [|done]. intros k w0 _. simpl. by rewrite !Hitem.
    + simpl. do 3 f_equal. apply Forall_fmap_ext_1, Forall_forall.
      intros k _. symmetry. apply Hitem.
Qed.
End Shape.

(** ** General facts about [match_by] *)

Section Facts.
Context {W F : Type}.
Variable set_iter : gset Key → list Key.
Hypothesis set_iter_perm : ∀ X, set_iter X ≡ₚ elements X.
Implicit Types (func : @KeyFn W F) (rest funcs : list (@KeyFn W F)).
Implicit Types (scr arc : list F) (ps pa : list (Key * F)).

Lemma elem_of_set_iter X k : k ∈ set_iter X ↔ k ∈ X.
Proof. by rewrite set_iter_perm, elem_of_elements. Qed.

Lemma stage_keys_perm ps pa :
  set_iter (shared_keys ps pa) ++ set_iter (lone_keys ps pa)
    ≡ₚ elements (list_to_set (C:=gset Key) ps.*1).
Proof.
  rewrite !set_iter_perm, <-elements_disj_union.
  - apply reflexive_eq. f_equal. unfold lone_keys, shared_keys.
    apply set_eq. intros k.
    rewrite elem_of_union, elem_of_difference, elem_of_intersection.
    destruct (decide (k ∈ (list_to_set pa.*1 : gset Key))); naive_solver.
  - unfold lone_keys. set_solver.
Qed.

Lemma stage_keys_partition ps pa :
  concat ((λ k, with_key k ps) <$>
            (set_iter (shared_keys ps pa) ++ set_iter (lone_keys ps pa)))
    ≡ₚ ps.*2.
Proof.
  apply with_key_partition.
  - rewrite stage_keys_perm. apply NoDup_elements.
  - intros k Hk. rewrite stage_keys_perm, elem_of_elements.
    by apply elem_of_list_to_set.
Qed.

Lemma runs_perm {K} (body : K → M W (list F * list F)) (g : K → list F)
    ks w rs w' :
  (∀ k w r w', k ∈ ks → body k w = Ok (r, w') → r.1 ++ r.2 ≡ₚ g k) →
  runs body ks w rs w' →
  concat rs.*1 ++ concat rs.*2 ≡ₚ concat (g <$> ks).
Proof.
  intros Hb Hr. induction Hr as [|k ks w r w1 rs w' Hk Hr IH]; [done|].
  simpl. rewrite <-IH, <-(Hb k w r w1); [|apply elem_of_cons; by left|done|].
  - rewrite <-!app_assoc. apply Permutation_app_head.
    rewrite !app_assoc. apply Permutation_app_tail, Permutation_app_comm.
  - intros k' w0 r0 w0' ?. apply Hb. apply elem_of_cons. by right.
Qed.

(** Whatever the key functions do, a run that returns splits the scratch
    list: the two results together are a rearrangement of it. *)
Lemma match_by_perm funcs scr arc w m u w' :
  match_by set_iter scr arc funcs w = Ok ((m, u), w') → m ++ u ≡ₚ scr.
Proof.
  revert scr arc w m u w'.
  induction funcs as [|func rest IH]; intros scr arc w m u w' H.
  - apply match_by_nil_Ok in H as [[= -> ->] _]. by rewrite app_nil_r.
  - apply match_by_cons_Ok in H
      as (ps & w1 & pa & w2 & rs & Hps & Hpa & Hr & [= -> ->]).
    apply keyed_files in Hps as <-.
    rewrite <-(stage_keys_partition ps pa), fmap_app, concat_app.
    rewrite (Permutation_app_comm (concat (_ <$> set_iter (lone_keys _ _)))).
    rewrite app_assoc. apply Permutation_app_tail.
    eapply runs_perm; [|done].
    intros k w0 [m0 u0] w0' _ H0. simpl. eauto.
Qed.

Lemma match_by_elem_of funcs scr arc w m u w' x :
  match_by set_iter scr arc funcs w = Ok ((m, u), w') →
  x ∈ scr ↔ x ∈ m ∨ x ∈ u.
Proof. intros H%match_by_perm. by rewrite <-H, elem_of_app. Qed.

Lemma match_by_NoDup funcs scr arc w m u w' :
  match_by set_iter scr arc funcs w = Ok ((m, u), w') →
  NoDup scr → NoDup m ∧ NoDup u ∧ ∀ x, x ∈ m → x ∉ u.
Proof.
  intros H%match_by_perm Hnd. rewrite <-H in Hnd.
  apply NoDup_app in Hnd. naive_solver.
Qed.

(** A property of worlds that every key function preserves, on the files
    it can be given, is preserved by the matcher. *)
Lemma keyed_preserve (I : W → Prop) func files w ps w' :
  (∀ x w k w', x ∈ files → func x w = Ok (k, w') → I w → I w') →
  keyed func files w = Ok (ps, w') → I w → I w'.
Proof.
  intros Hf [Hr _]%keyed_runs. by eapply runs_preserve.
Qed.

Lemma with_key_subseteq k ps : with_key k ps ⊆ ps.*2.
Proof.
  intros f Hf%elem_of_with_key. apply list_elem_of_fmap. by exists (k, f).
Qed.

Lemma match_by_preserve (I : W → Prop) funcs scr arc w r w' :
  (∀ func x w k w', func ∈ funcs → x ∈ scr ++ arc →
     func x w = Ok (k, w') → I w → I w') →
  match_by set_iter scr arc funcs w = Ok (r, w') → I w → I w'.
Proof.
  revert scr arc w r w'.
  induction funcs as [|func rest IH]; intros scr arc w r w' Hf H.
  - by apply match_by_nil_Ok in H as [_ ->].
  - apply match_by_cons_Ok in H
      as (ps & w1 & pa & w2 & rs & Hps & Hpa & Hr & _).
    intros Hw.
    assert (I w1) as Hw1.
    { eapply keyed_preserve; [|done..]. intros x w0 k w0' ?.
      apply Hf; [apply elem_of_cons; by left|apply elem_of_app; by left]. }
    assert (I w2) as Hw2.
    { eapply keyed_preserve; [|done..]. intros x w0 k w0' ?.
      apply Hf; [apply elem_of_cons; by left|apply elem_of_app; by right]. }
    eapply runs_preserve; [|done..].
    intros k w0 r0 w0' _. apply IH. intros func' x w3 k' w3' ? Hx.
    apply Hf; [apply elem_of_cons; by right|].
    apply keyed_files in Hps as <-. apply keyed_files in Hpa as <-.
    apply elem_of_app in Hx as [Hx%with_key_subseteq|Hx%with_key_subseteq];
      apply elem_of_app; auto.
Qed.
End Facts.

(** ** When [match_by] returns *)

Section Success.
Context {W F : Type}.
Variable set_iter : gset Key → list Key.
Implicit Types (func : @KeyFn W F) (rest funcs : list (@KeyFn W F)).
Implicit Types (scr arc : list F) (I : W → Prop).

Lemma runs_succeed {K R} (body : K → M W R) I ks w :
  (∀ k w, k ∈ ks → I w → ∃ r w', body k w = Ok (r, w') ∧ I w') →
  I w → ∃ rs w', runs body ks w rs w' ∧ I w'.
Proof.
  revert w. induction ks as [|k ks IH]; intros w Hb Hw.
  - exists [], w. split; [constructor|done].
  - destruct (Hb k w) as (r & w1 & Hk & Hw1); [apply elem_of_cons; by left|done|].
    destruct (IH w1) as (rs & w' & Hr & Hw'); [|done|].
    { intros k' w0 ?. apply Hb. apply elem_of_cons. by right. }
    exists (r :: rs), w'. split; [by econstructor|done].
Qed.

Lemma keyed_succeed func I files w :
  (∀ x w, x ∈ files → I w → ∃ k w', func x w = Ok (k, w') ∧ I w') →
  I w → ∃ ps w', keyed func files w = Ok (ps, w') ∧ I w'.
Proof.
  intros Hf Hw. destruct (runs_succeed func I files w Hf Hw) as (ks & w' & Hr & Hw').
  exists (zip ks files), w'. split; [|done]. apply keyed_runs.
  pose proof (runs_length _ _ _ _ _ Hr) as Hlen.
  rewrite fst_zip, snd_zip by lia. done.
Qed.

(** If, in every world that satisfies [I], every key function returns a
    key for every file of the two lists and re-establishes [I], then the
    matcher returns. *)
Lemma match_by_succeed I funcs scr arc w :
  (∀ func x w, func ∈ funcs → x ∈ scr ++ arc → I w →
     ∃ k w', func x w = Ok (k, w') ∧ I w') →
  I w → ∃ r w', match_by set_iter scr arc funcs w = Ok (r, w') ∧ I w'.
Proof.
  revert scr arc w.
  induction funcs as [|func rest IH]; intros scr arc w Hf Hw.
  - exists (scr, []), w. split; [by apply match_by_nil_Ok|done].
  - destruct (keyed_succeed func I scr w) as (ps & w1 & Hps & Hw1); [|done|].
    { intros x w0 ?. apply Hf; [apply elem_of_cons; by left|].
      apply elem_of_app. by left. }
    destruct (keyed_succeed func I arc w1) as (pa & w2 & Hpa & Hw2); [|done|].
    { intros x w0 ?. apply Hf; [apply elem_of_cons; by left|].
      apply elem_of_app. by right. }
    destruct (runs_succeed
                (λ k, match_by set_iter (with_key k ps) (with_key k pa) rest)
                I (set_iter (shared_keys ps pa)) w2) as (rs & w' & Hr & Hw');
      [|done|].
    { intros k w0 _ Hw0. apply IH; [|done]. intros func' x w3 ? Hx.
      apply Hf; [apply elem_of_cons; by right|].
      pose proof (keyed_files _ _ _ _ _ Hps) as <-.
      pose proof (keyed_files _ _ _ _ _ Hpa) as <-.
      apply elem_of_app in Hx as [Hx|Hx];
        apply elem_of_with_key in Hx; apply elem_of_app; [left|right];
        apply list_elem_of_fmap; by exists (k, x). }
    eexists _, w'. split; [|done].
    apply match_by_cons_Ok. by exists ps, w1, pa, w2, rs.
Qed.
End Success.

(** ** Key functions that differ only in what they record *)

Section Simulation.
Context {W1 W2 F : Type}.
Variable R : W1 → W2 → Prop.
Variable set_iter : gset Key → list Key.

Lemma sim_ret {A} (a : A) : sim R (ret a) (ret a).
Proof. by intros w1 w2 ?. Qed.

Lemma sim_bind {A B} (c1 : M W1 A) (c2 : M W2 A) (k1 : A → M W1 B) (k2 : A → M W2 B) :
  sim R c1 c2 → (∀ a, sim R (k1 a) (k2 a)) → sim R (bind c1 k1) (bind c2 k2).
Proof.
  intros Hc Hk w1 w2 Hw. specialize (Hc w1 w2 Hw). unfold bind, agree in *.
  destruct (c1 w1) as [[a1 w1']|e1], (c2 w2) as [[a2 w2']|e2]; try done.
  destruct Hc as [-> ?]. by apply Hk.
Qed.

Lemma sim_for_each {A B} (xs : list A) (acc : B)
    (body1 : B → A → M W1 B) (body2 : B → A → M W2 B) :
  (∀ acc x, sim R (body1 acc x) (body2 acc x)) →
  sim R (for_each xs acc body1) (for_each xs acc body2).
Proof.
  intros Hb. revert acc. induction xs as [|x xs IH]; intros acc; simpl.
  - apply sim_ret.
  - apply sim_bind; [apply Hb|]. intros acc'. apply IH.
Qed.

Lemma sim_group_by_into (f1 : @KeyFn W1 F) (f2 : @KeyFn W2 F) files res :
  (∀ x, sim R (f1 x) (f2 x)) →
  sim R (group_by_into f1 files res) (group_by_into f2 files res).
Proof.
  intros Hf. revert res. induction files as [|x files IH]; intros res; simpl.
  - apply sim_ret.
  - apply sim_bind; [apply Hf|]. intros k. apply IH.
Qed.

Lemma sim_match_by (funcs1 : list (@KeyFn W1 F)) (funcs2 : list (@KeyFn W2 F)) scr arc :
  Forall2 (λ f1 f2, ∀ x, sim R (f1 x) (f2 x)) funcs1 funcs2 →
  sim R (match_by set_iter scr arc funcs1) (match_by set_iter scr arc funcs2).
Proof.
  intros Hfs. revert scr arc.
  induction Hfs as [|f1 f2 funcs1 funcs2 Hf Hfs IH]; intros scr arc; simpl.
  - apply sim_ret.
  - apply sim_bind; [by apply sim_group_by_into|]. intros sg.
    apply sim_bind; [by apply sim_group_by_into|]. intros ag.
    apply sim_for_each. intros [m u] k.
    apply sim_bind; [apply IH|]. intros [m' u']. apply sim_ret.
Qed.
End Simulation.

(** ** The cached attributes of a descriptor *)

Lemma deref_Ok x w o w' : deref x w = Ok (o, w') ↔ heap w !! x = Some o ∧ w' = w.
Proof. unfold deref. destruct (heap w !! x); naive_solver. Qed.

(** What a successful [size] did: it read the cache, or it asked the file
    system once and filled the cache. *)
Lemma size_Ok x w v w' :
  size x w = Ok (v, w') ↔
  ∃ o, heap w !! x = Some o ∧
    ((_size o = Some v ∧ w' = w) ∨
     (_size o = None ∧ stat_size (fs w) (full_path o) = Some v ∧
      w' = set_heap (<[x := mkLazyFile (full_path o) (Some v) (_sha1 o)]> (heap w))
             (add_io (IoStat (full_path o)) w))).
Proof.
  unfold size, set_size, os_path_getsize, assign, stat_size, bind, ret, deref.
  destruct (heap w !! x) as [o|] eqn:Hx; [|naive_solver].
  destruct (_size o) as [v0|] eqn:Hs; [naive_solver|].
  destruct (fs w !! full_path o) as [[data|sz names]|] eqn:Hf; simpl;
    rewrite ?Hx; simpl.
  1,2: split;
    [ intros [= <- <-]; exists o; split; [done|]; right; by rewrite Hf
    | intros (o0 & [= <-] & [[? ?]|(_ & Hv & ->)]); [congruence|];
      rewrite Hf in Hv; by injection Hv as <- ].
  split; [done|]. intros (o0 & [= <-] & [[? ?]|(_ & Hv & ->)]); [congruence|].
  by rewrite Hf in Hv.
Qed.

(** [size] returns what the descriptor shows and leaves it cached; a cached
    value is returned as it is, and nothing else happens; [size] returns
    whenever the descriptor shows a size; it never touches a digest cache. *)
Lemma size_shows x w v w' :
  size x w = Ok (v, w') → obs_size w x = Some v ∧ cached_size w' x = Some v.
Proof.
  intros (o & Hx & [[Hs ->]|(Hs & Hst & ->)])%size_Ok;
    unfold obs_size, cached_size, size_of; simpl.
  - by rewrite Hx; simpl; rewrite Hs.
  - rewrite Hx. simpl. rewrite Hs.
    by rewrite list_lookup_insert_eq by (by eapply lookup_lt_Some).
Qed.

Lemma size_cached x w v : cached_size w x = Some v → size x w = Ok (v, w).
Proof.
  unfold cached_size. intros H. apply size_Ok.
  destruct (heap w !! x) as [o|]; [|done]. exists o. naive_solver.
Qed.

Lemma size_returns x w v : obs_size w x = Some v → ∃ w', size x w = Ok (v, w').
Proof.
  unfold obs_size, size_of. intros H.
  destruct (heap w !! x) as [o|] eqn:Hx; [|done]. simpl in H.
  destruct (_size o) as [v0|] eqn:Hs.
  - exists w. apply size_Ok. exists o. naive_solver.
  - eexists. apply size_Ok. exists o. split; [done|]. right. done.
Qed.

Lemma size_keeps_sha1 x w v w' y :
  size x w = Ok (v, w') → cached_sha1 w' y = cached_sha1 w y.
Proof.
  intros (o & Hx & [[_ ->]|(Hs & Hst & ->)])%size_Ok; [done|].
  unfold cached_sha1. simpl. destruct (decide (y = x)) as [->|Hne].
  - rewrite list_lookup_insert_eq by (by eapply lookup_lt_Some). by rewrite Hx.
  - by rewrite list_lookup_insert_ne.
Qed.

Section Descriptor.
Context {hashlib : Hashlib}.


Lemma HASH_BUF_BYTES_pos : 0 < HASH_BUF_BYTES.
Proof. with_strategy transparent [HASH_BUF_BYTES] (unfold HASH_BUF_BYTES). lia. Qed.

(** The loop ends because a read returned nothing, not because its turns
    ran out: more turns than [S (length rest)] change nothing. *)
Lemma hash_loop_turns turns1 turns2 rest h :
  length rest < turns1 → length rest < turns2 →
  hash_loop turns1 rest h = hash_loop turns2 rest h.
Proof.
  revert turns2 rest h.
  induction turns1 as [|turns1 IH]; intros turns2 rest h H1 H2; [lia|].
  destruct turns2 as [|turns2]; [lia|]. simpl.
  destruct (take HASH_BUF_BYTES rest) as [|b data] eqn:Htake; [done|].
  assert (length (drop HASH_BUF_BYTES rest) < length rest).
  { rewrite length_drop. pose proof HASH_BUF_BYTES_pos.
    destruct rest; [by rewrite take_nil in Htake|simpl; lia]. }
  apply IH; lia.
Qed.

(** The reading loop returns the accumulator [hash_loop] computes and only
    adds to the log of file-system operations. *)
Lemma read_loop_Ok turns path rest h w :
  ∃ evs, read_loop turns path rest h w
         = Ok (hash_loop turns rest h,
               mkWorld (fs w) (writable w) (heap w) (stdout w) (io_log w ++ evs)).
Proof.
  revert rest h w. induction turns as [|turns IH]; intros rest h w; simpl.
  - exists []. unfold ret. rewrite app_nil_r. by destruct w.
  - unfold bind, log_io. simpl.
    destruct (take HASH_BUF_BYTES rest) as [|b data] eqn:Htake.
    + eexists [_]. done.
    + destruct (IH (drop HASH_BUF_BYTES rest) (sha1_update h (b :: data))
                  (add_io (IoRead path (length (b :: data))) w)) as [evs ->].
      eexists (_ :: evs). simpl. by rewrite <-app_assoc.
Qed.

Lemma sha1_cached x w o v :
  heap w !! x = Some o → _sha1 o = Some v → sha1 x w = Ok (v, w).
Proof.
  intros Hx Hs. unfold sha1, bind, ret, deref. by rewrite Hx, Hs.
Qed.

Lemma sha1_fill x w o content :
  heap w !! x = Some o → _sha1 o = None →
  fs w !! full_path o = Some (File content) →
  ∃ evs, sha1 x w
         = Ok (digest content,
               mkWorld (fs w) (writable w)
                 (<[x := mkLazyFile (full_path o) (_size o) (Some (digest content))]>
                    (heap w))
                 (stdout w) (io_log w ++ evs)).
Proof.
  intros Hx Hs Hf.
  unfold sha1, set_sha1, open_rb, assign, bind, ret, deref.
  rewrite Hx, Hs, Hf.
  destruct (read_loop_Ok (S (length content)) (full_path o) content sha1_new
              (add_io (IoOpen (full_path o)) w)) as [evs ->].
  cbn [heap set_heap add_io fs writable stdout io_log]. rewrite Hx.
  eexists (_ :: evs). unfold digest, set_heap. simpl.
  by rewrite <-app_assoc.
Qed.

(** What a successful [sha1] did: it read the cache, or it read the file
    once and filled the cache. *)
Lemma sha1_Ok x w v w' :
  sha1 x w = Ok (v, w') →
  ∃ o, heap w !! x = Some o ∧
    ((_sha1 o = Some v ∧ w' = w) ∨
     (_sha1 o = None ∧ ∃ content evs,
        fs w !! full_path o = Some (File content) ∧ v = digest content ∧
        w' = mkWorld (fs w) (writable w)
               (<[x := mkLazyFile (full_path o) (_size o) (Some v)]> (heap w))
               (stdout w) (io_log w ++ evs))).
Proof.
  intros H. destruct (heap w !! x) as [o|] eqn:Hx.
  2: { unfold sha1, bind, deref in H. by rewrite Hx in H. }
  exists o. split; [done|]. destruct (_sha1 o) as [v0|] eqn:Hs.
  - rewrite (sha1_cached x w o v0) in H by done. injection H as <- <-. by left.
  - right. split; [done|].
    destruct (fs w !! full_path o) as [[content|sz names]|] eqn:Hf.
    + destruct (sha1_fill x w o content) as [evs Hrun]; [done..|].
      rewrite Hrun in H. injection H as <- <-. by exists content, evs.
    + unfold sha1, open_rb, bind, deref in H. by rewrite Hx, Hs, Hf in H.
    + unfold sha1, open_rb, bind, deref in H. by rewrite Hx, Hs, Hf in H.
Qed.
Lemma later_refl w : later w w.
Proof. split; try done. intros x o Hx. exists o. naive_solver. Qed.

Lemma later_trans w1 w2 w3 : later w1 w2 → later w2 w3 → later w1 w3.
Proof.
  intros [Hf1 Hw1 Hs1 Hl1 Ho1] [Hf2 Hw2 Hs2 Hl2 Ho2].
  split; try congruence. intros x o Hx.
  destruct (Ho1 x o Hx) as (o' & Hx' & Hp' & Hsz' & Hsh' & Hso' & Hho').
  destruct (Ho2 x o' Hx') as (o'' & Hx'' & Hp'' & Hsz'' & Hsh'' & Hso'' & Hho'').
  rewrite Hf1 in Hso'', Hho''. exists o''. split_and!; [done|congruence|auto..| |];
    congruence.
Qed.

(** Replacing the object at [x] by one that shows the same leads to a later
    world. *)
Lemma later_fill w x o o' evs :
  heap w !! x = Some o → full_path o' = full_path o →
  (∀ v, _size o = Some v → _size o' = Some v) →
  (∀ v, _sha1 o = Some v → _sha1 o' = Some v) →
  size_of (fs w) o' = size_of (fs w) o →
  sha1_of (fs w) o' = sha1_of (fs w) o →
  later w (mkWorld (fs w) (writable w) (<[x := o']> (heap w)) (stdout w)
             (io_log w ++ evs)).
Proof.
  intros Hx Hp Hsz Hsh Hso Hho. split; simpl; try done.
  - apply length_insert.
  - intros y oy Hy. destruct (decide (y = x)) as [->|Hne].
    + exists o'. rewrite list_lookup_insert_eq by (by eapply lookup_lt_Some).
      assert (oy = o) as -> by congruence. done.
    + exists oy. rewrite list_lookup_insert_ne by done. naive_solver.
Qed.

Lemma later_size x w v w' : size x w = Ok (v, w') → later w w'.
Proof.
  intros (o & Hx & [[_ ->]|(Hs & Hst & ->)])%size_Ok; [apply later_refl|].
  apply (later_fill w x o (mkLazyFile (full_path o) (Some v) (_sha1 o))
           [IoStat (full_path o)]); simpl; try done.
  - by rewrite Hs.
  - unfold size_of. simpl. by rewrite Hs.
Qed.

Lemma later_sha1 x w v w' : sha1 x w = Ok (v, w') → later w w'.
Proof.
  intros (o & Hx & [[_ ->]|(Hs & content & evs & Hf & -> & ->)])%sha1_Ok;
    [apply later_refl|].
  apply (later_fill w x o); simpl; try done.
  - by rewrite Hs.
  - unfold sha1_of. simpl. by rewrite Hs, Hf.
Qed.

Lemma later_lookup_None w w' x : later w w' → heap w !! x = None → heap w' !! x = None.
Proof.
  intros [_ _ _ Hl _] Hx. apply lookup_ge_None. apply lookup_ge_None in Hx. lia.
Qed.

Lemma later_obs_size w w' x : later w w' → obs_size w' x = obs_size w x.
Proof.
  intros Hl. unfold obs_size. destruct (heap w !! x) as [o|] eqn:Hx.
  - destruct (later_obj _ _ Hl x o Hx) as (o' & -> & _ & _ & _ & Hso & _).
    simpl. by rewrite (later_fs _ _ Hl).
  - by rewrite (later_lookup_None w w' x).
Qed.

Lemma later_obs_sha1 w w' x : later w w' → obs_sha1 w' x = obs_sha1 w x.
Proof.
  intros Hl. unfold obs_sha1. destruct (heap w !! x) as [o|] eqn:Hx.
  - destruct (later_obj _ _ Hl x o Hx) as (o' & -> & _ & _ & _ & _ & Hho).
    simpl. by rewrite (later_fs _ _ Hl).
  - by rewrite (later_lookup_None w w' x).
Qed.

Lemma later_path_of w w' x : later w w' → path_of w' x = path_of w x.
Proof.
  intros Hl. unfold path_of. destruct (heap w !! x) as [o|] eqn:Hx.
  - destruct (later_obj _ _ Hl x o Hx) as (o' & -> & Hp & _). simpl. by f_equal.
  - by rewrite (later_lookup_None w w' x).
Qed.

(** A cache that is set keeps its value. *)
Lemma later_cached_size w w' x v :
  later w w' → cached_size w x = Some v → cached_size w' x = Some v.
Proof.
  intros Hl. unfold cached_size. destruct (heap w !! x) as [o|] eqn:Hx; [|done].
  destruct (later_obj _ _ Hl x o Hx) as (o' & -> & _ & Hsz & _). simpl. auto.
Qed.

Lemma later_cached_sha1 w w' x v :
  later w w' → cached_sha1 w x = Some v → cached_sha1 w' x = Some v.
Proof.
  intros Hl. unfold cached_sha1. destruct (heap w !! x) as [o|] eqn:Hx; [|done].
  destruct (later_obj _ _ Hl x o Hx) as (o' & -> & _ & _ & Hsh & _). simpl. auto.
Qed.

(** The same for [sha1]. *)

Lemma sha1_shows x w v w' :
  sha1 x w = Ok (v, w') → obs_sha1 w x = Some v ∧ cached_sha1 w' x = Some v.
Proof.
  intros (o & Hx & [[Hs ->]|(Hs & content & evs & Hf & -> & ->)])%sha1_Ok;
    unfold obs_sha1, cached_sha1, sha1_of; simpl.
  - by rewrite Hx; simpl; rewrite Hs.
  - rewrite Hx. simpl. rewrite Hs, Hf.
    by rewrite list_lookup_insert_eq by (by eapply lookup_lt_Some).
Qed.


Lemma sha1_cached' x w v : cached_sha1 w x = Some v → sha1 x w = Ok (v, w).
Proof.
  unfold cached_sha1. intros H.
  destruct (heap w !! x) as [o|] eqn:Hx; [|done]. by apply (sha1_cached x w o).
Qed.


Lemma sha1_returns x w v : obs_sha1 w x = Some v → ∃ w', sha1 x w = Ok (v, w').
Proof.
  unfold obs_sha1, sha1_of. intros H.
  destruct (heap w !! x) as [o|] eqn:Hx; [|done]. simpl in H.
  destruct (_sha1 o) as [v0|] eqn:Hs.
  - exists w. injection H as <-. by apply (sha1_cached x w o).
  - destruct (fs w !! full_path o) as [[content|sz names]|] eqn:Hf; [|done..].
    injection H as <-. destruct (sha1_fill x w o content) as [evs Hrun]; [done..|].
    eauto.
Qed.

(** [sha1] touches the digest cache of its own descriptor only, and no size
    cache. *)

Lemma sha1_keeps_sha1 x w v w' y :
  sha1 x w = Ok (v, w') → y ≠ x → cached_sha1 w' y = cached_sha1 w y.
Proof.
  intros (o & Hx & [[_ ->]|(Hs & content & evs & Hf & -> & ->)])%sha1_Ok Hne; [done|].
  unfold cached_sha1. simpl. by rewrite list_lookup_insert_ne.
Qed.

Lemma sha1_keeps_size x w v w' y :
  sha1 x w = Ok (v, w') → cached_size w' y = cached_size w y.
Proof.
  intros (o & Hx & [[_ ->]|(Hs & content & evs & Hf & -> & ->)])%sha1_Ok; [done|].
  unfold cached_size. simpl. destruct (decide (y = x)) as [->|Hne].
  - rewrite list_lookup_insert_eq by (by eapply lookup_lt_Some). by rewrite Hx.
  - by rewrite list_lookup_insert_ne.
Qed.
End Descriptor.

(** ** Which scratch files are matched

    When each key function returns, for a file, a key that does not depend
    on the moment of the call ([kf x], for a function [kf] on files), the
    matched files are those for which an archive file has the same key at
    every stage. *)

Section Matched.
Context {W F : Type}.
Variable set_iter : gset Key → list Key.
Hypothesis set_iter_perm : ∀ X, set_iter X ≡ₚ elements X.
Variable I : W → Prop.
Implicit Types (func : @KeyFn W F) (rest funcs : list (@KeyFn W F)).
Implicit Types (kf : F → option Key) (kfs : list (F → option Key)).
Implicit Types (scr arc : list F) (ps pa : list (Key * F)).

Lemma runs_Forall2 {K R} (body : K → M W R) ks w rs w' :
  (∀ k w r w', body k w = Ok (r, w') → I w → I w') →
  runs body ks w rs w' → I w →
  I w' ∧ Forall2 (λ k r, ∃ w0 w1, I w0 ∧ body k w0 = Ok (r, w1)) ks rs.
Proof.
  intros Hb Hr. induction Hr as [|k ks w r w1 rs w' Hk Hr IH]; intros Hw.
  - split; [done|constructor].
  - destruct IH as [Hw' Hall]; [by eapply Hb|].
    split; [done|]. constructor; [|done]. by exists w, w1.
Qed.

Lemma keyed_shows func kf files w ps w' :
  shows I func kf → keyed func files w = Ok (ps, w') → I w →
  I w' ∧ ∀ k x, (k, x) ∈ ps ↔ x ∈ files ∧ kf x = Some k.
Proof.
  intros Hf. revert w ps. induction files as [|f files IH]; intros w ps H Hw; simpl in H.
  - apply ret_Ok in H as [<- <-]. split; [done|]. intros k x.
    rewrite !elem_of_nil. naive_solver.
  - run_inv H. subst. destruct (Hf _ _ _ _ Hw Hrun) as [Hk Hw1].
    destruct (IH _ _ Hrun0 Hw1) as [Hw' Hps]. split; [done|].
    intros k x. rewrite !elem_of_cons, Hps. naive_solver.
Qed.

Lemma elem_of_shared_keys ps pa k :
  k ∈ shared_keys ps pa ↔ (∃ x, (k, x) ∈ ps) ∧ (∃ a, (k, a) ∈ pa).
Proof.
  unfold shared_keys. rewrite elem_of_intersection, !elem_of_list_to_set.
  rewrite !list_elem_of_fmap. split.
  - intros [([k1 x] & -> & ?) ([k2 a] & Hk & ?)]. simpl in *. subst. eauto.
  - intros [[x ?] [a ?]]. split; [by exists (k, x)|by exists (k, a)].
Qed.

Lemma elem_of_lone_keys ps pa k :
  k ∈ lone_keys ps pa ↔ (∃ x, (k, x) ∈ ps) ∧ ¬ (∃ a, (k, a) ∈ pa).
Proof.
  unfold lone_keys. rewrite elem_of_difference, elem_of_shared_keys.
  rewrite elem_of_list_to_set, list_elem_of_fmap. split.
  - intros [([k1 x] & -> & ?) Hno]. simpl in *. split; [eauto|]. intros ?.
    apply Hno. eauto.
  - intros [[x ?] Hno]. split; [by exists (k, x)|]. by intros [_ ?].
Qed.

Lemma match_by_shows funcs kfs scr arc w m u w' :
  Forall2 (shows I) funcs kfs → (funcs = [] → arc ≠ []) →
  match_by set_iter scr arc funcs w = Ok ((m, u), w') → I w →
  I w' ∧ ∀ x, x ∈ m ↔ x ∈ scr ∧ ∃ a, a ∈ arc ∧ Forall (λ kf, kf a = kf x) kfs.
Proof.
  intros Hfs. revert scr arc w m u w'.
  induction Hfs as [|func kf rest kfs Hf Hfs IH]; intros scr arc w m u w' Harc H Hw.
  - apply match_by_nil_Ok in H as [[= -> ->] ->]. split; [done|].
    intros x. split; [|naive_solver]. intros ?. split; [done|].
    destruct arc as [|a arc]; [by destruct Harc|].
    exists a. split; [apply elem_of_cons; by left|constructor].
  - apply match_by_cons_Ok in H
      as (ps & w1 & pa & w2 & rs & Hps & Hpa & Hr & [= -> ->]).
    destruct (keyed_shows _ _ _ _ _ _ Hf Hps Hw) as [Hw1 Hps'].
    destruct (keyed_shows _ _ _ _ _ _ Hf Hpa Hw1) as [Hw2 Hpa'].
    pose proof (match_by_preserve set_iter I rest) as Hpres.
    assert (∀ k w r w',
      match_by set_iter (with_key k ps) (with_key k pa) rest w = Ok (r, w') →
      I w → I w') as Hbody.
    { intros k w0 r w0'. apply Hpres. intros func' x w3 k' w3' Hin _ Hrun Hw3.
      rewrite list_elem_of_lookup in Hin. destruct Hin as [i Hi].
      destruct (Forall2_lookup_l _ _ _ _ _ Hfs Hi) as (kf' & _ & Hsh).
      by destruct (Hsh _ _ _ _ Hw3 Hrun). }
    destruct (runs_Forall2 _ _ _ _ _ Hbody Hr Hw2) as [Hw' Hall].
    split; [done|]. intros x. rewrite elem_of_concat. split.
    + intros (ms & Hms & Hx). apply list_elem_of_fmap in Hms as ([m0 u0] & -> & Hr0).
      apply list_elem_of_lookup in Hr0 as [i Hi].
      destruct (Forall2_lookup_r _ _ _ _ _ Hall Hi) as (k & Hk & w0 & w0' & Hw0 & Hrun).
      apply list_elem_of_lookup_2, elem_of_set_iter, elem_of_shared_keys in Hk
        as [_ [a0 Ha0]]; [|done].
      apply IH in Hrun as [_ Hm0]; [|intros _|done].
      2: { intros Hnil. apply elem_of_with_key in Ha0. rewrite Hnil in Ha0.
           by apply elem_of_nil in Ha0. }
      simpl in Hx. destruct (proj1 (Hm0 x) Hx) as [Hx1 (a & Ha1 & Hrest)].
      apply elem_of_with_key, Hps' in Hx1 as [? Hkx].
      apply elem_of_with_key, Hpa' in Ha1 as [? Hka].
      split; [done|]. exists a. split; [done|]. constructor; [congruence|done].
    + intros (Hx & a & Ha & Hkeys). apply Forall_cons in Hkeys as [Hk0 Hrest].
      assert (∃ k, (k, a) ∈ pa) as [k Hka].
      { apply keyed_files in Hpa. rewrite <-Hpa in Ha.
        apply list_elem_of_fmap in Ha as ([k a'] & -> & ?). eauto. }
      pose proof Hka as [_ Hkfa]%Hpa'.
      assert ((k, x) ∈ ps) as Hkx by (apply Hps'; split; [done|congruence]).
      assert (k ∈ set_iter (shared_keys ps pa)) as Hk.
      { apply elem_of_set_iter; [done|]. apply elem_of_shared_keys. eauto. }
      apply list_elem_of_lookup in Hk as [i Hi].
      destruct (Forall2_lookup_l _ _ _ _ _ Hall Hi)
        as ([m0 u0] & Hr0 & w0 & w0' & Hw0 & Hrun).
      exists m0. split.
      * apply list_elem_of_fmap. exists (m0, u0). split; [done|].
        by eapply list_elem_of_lookup_2.
      * apply IH in Hrun as [_ Hm0]; [|intros _|done].
        2: { intros Hnil. apply elem_of_with_key in Hka. rewrite Hnil in Hka.
             by apply elem_of_nil in Hka. }
        apply Hm0. split; [by apply elem_of_with_key|].
        exists a. split; [by apply elem_of_with_key|done].
Qed.
(** With such key functions no file is both matched and unmatched, even
    when the scratch list names a file more than once. *)
Lemma match_by_shows_disjoint funcs kfs scr arc w m u w' :
  Forall2 (shows I) funcs kfs →
  match_by set_iter scr arc funcs w = Ok ((m, u), w') → I w →
  ∀ x, x ∈ m → x ∉ u.
Proof.
  intros Hfs. revert scr arc w m u w'.
  induction Hfs as [|func kf rest kfs Hf Hfs IH]; intros scr arc w m u w' H Hw.
  - apply match_by_nil_Ok in H as [[= -> ->] ->]. by intros x _ ?%elem_of_nil.
  - apply match_by_cons_Ok in H
      as (ps & w1 & pa & w2 & rs & Hps & Hpa & Hr & [= -> ->]).
    destruct (keyed_shows _ _ _ _ _ _ Hf Hps Hw) as [Hw1 Hps'].
    destruct (keyed_shows _ _ _ _ _ _ Hf Hpa Hw1) as [Hw2 Hpa'].
    assert (∀ k w r w',
      match_by set_iter (with_key k ps) (with_key k pa) rest w = Ok (r, w') →
      I w → I w') as Hbody.
    { intros k w0 r w0'. apply (match_by_preserve set_iter I rest).
      intros func' x w3 k' w3' Hin _ Hrun Hw3.
      rewrite list_elem_of_lookup in Hin. destruct Hin as [i Hi].
      destruct (Forall2_lookup_l _ _ _ _ _ Hfs Hi) as (kf' & _ & Hsh).
      by destruct (Hsh _ _ _ _ Hw3 Hrun). }
    destruct (runs_Forall2 _ _ _ _ _ Hbody Hr Hw2) as [_ Hall].
    assert (Hgroup : ∀ i k m0 u0 x,
      set_iter (shared_keys ps pa) !! i = Some k → rs !! i = Some (m0, u0) →
      x ∈ m0 ∨ x ∈ u0 → kf x = Some k).
    { intros i k m0 u0 x Hk Hr0 Hx.
      destruct (Forall2_lookup_lr _ _ _ _ _ _ Hall Hk Hr0) as (w0 & w0' & _ & Hrun).
      apply (match_by_elem_of set_iter set_iter_perm) with (x := x) in Hrun.
      apply Hrun, elem_of_with_key, Hps' in Hx. by destruct Hx. }
    intros x (ms & Hms & Hxm)%elem_of_concat.
    apply list_elem_of_fmap in Hms as ([m0 u0] & -> & Hr0).
    apply list_elem_of_lookup in Hr0 as [i Hi]. simpl in Hxm.
    destruct (Forall2_lookup_r _ _ _ _ _ Hall Hi) as (k & Hk & w0 & w0' & Hw0 & Hrun).
    pose proof (Hgroup i k m0 u0 x Hk Hi (or_introl Hxm)) as Hkx.
    intros [Hxu|Hxu]%elem_of_app.
    + apply elem_of_concat in Hxu as (l & Hl & Hxl).
      apply list_elem_of_fmap in Hl as (k' & -> & Hk').
      apply elem_of_set_iter, elem_of_lone_keys in Hk' as [_ Hlone]; [|done].
      apply elem_of_with_key, Hps' in Hxl as [_ Hk'x].
      assert (k' = k) as -> by congruence.
      apply list_elem_of_lookup_2, elem_of_set_iter, elem_of_shared_keys in Hk
        as [_ Hshared]; [|done].
      by apply Hlone.
    + apply elem_of_concat in Hxu as (us & Hus & Hxu).
      apply list_elem_of_fmap in Hus as ([m1 u1] & -> & Hr1).
      apply list_elem_of_lookup in Hr1 as [j Hj]. simpl in Hxu.
      destruct (Forall2_lookup_r _ _ _ _ _ Hall Hj) as (k' & Hk' & _).
      pose proof (Hgroup j k' m1 u1 x Hk' Hj (or_intror Hxu)) as Hk'x.
      assert (k' = k) as -> by congruence.
      assert (i = j) as ->.
      { eapply NoDup_lookup; [|done..]. rewrite set_iter_perm. apply NoDup_elements. }
      assert (m1 = m0 ∧ u1 = u0) as [-> ->] by (split; congruence).
      by apply (IH _ _ _ _ _ _ Hrun Hw0 x).
Qed.
End Matched.

(** ** The calls the matcher makes *)

Section Trace.
Context {W F : Type}.
Variable set_iter : gset Key → list Key.
Hypothesis set_iter_perm : ∀ X, set_iter X ≡ₚ elements X.
Implicit Types (func : @KeyFn W F) (rest funcs : list (@KeyFn W F)).
Implicit Types (scr arc : list F) (ps pa : list (Key * F)).
Implicit Types (tr new : list (nat * F * Key)).

Lemma traced_Ok i func x w tr k wt :
  traced i func x (w, tr) = Ok (k, wt) ↔
  ∃ w', func x w = Ok (k, w') ∧ wt = (w', tr ++ [(i, x, k)]).
Proof.
  unfold traced. destruct (func x w) as [[k' w']|e]; [|naive_solver].
  split; [intros [= <- <-]; eauto|]. by intros (w'' & [= <- <-] & ->).
Qed.

(** Recording changes nothing else: the recorded run and the plain run
    return the same, or raise the same. *)
Lemma traced_from_sim i funcs :
  Forall2 (λ f1 f2, ∀ x, sim (λ (wt : W * list (nat * F * Key)) w, wt.1 = w) (f1 x) (f2 x))
    (traced_from i funcs) funcs.
Proof.
  revert i. induction funcs as [|func funcs IH]; intros i; simpl; constructor; [|done].
  intros x [w tr] w0 <-. unfold agree, traced. simpl.
  by destruct (func x w) as [[k w']|e].
Qed.

Lemma match_by_traced i funcs scr arc w tr r w' :
  match_by set_iter scr arc funcs w = Ok (r, w') ↔
  ∃ tr', match_by set_iter scr arc (traced_from i funcs) (w, tr) = Ok (r, (w', tr')).
Proof.
  pose proof (sim_match_by _ set_iter _ _ scr arc (traced_from_sim i funcs)
                (w, tr) w eq_refl) as Hsim.
  unfold agree in Hsim.
  destruct (match_by set_iter scr arc (traced_from i funcs) (w, tr))
    as [[r1 [w1 tr1]]|e1], (match_by set_iter scr arc funcs w) as [[r2 w2]|e2];
    try done; simpl in *.
  - destruct Hsim as [-> ->]. split; [intros [= <- <-]; eauto|].
    by intros (tr' & [= <- <- _]).
  - split; [done|]. by intros [? ?].
Qed.

Lemma keyed_traced i func files w tr ps wt :
  keyed (traced i func) files (w, tr) = Ok (ps, wt) →
  ∃ w', wt = (w', tr ++ ((λ p, (i, p.2, p.1)) <$> ps)).
Proof.
  revert w tr ps. induction files as [|f files IH]; intros w tr ps H; simpl in H.
  - apply ret_Ok in H as [<- <-]. exists w. by rewrite app_nil_r.
  - run_inv H. subst. apply traced_Ok in Hrun as (w1 & _ & ->).
    apply IH in Hrun0 as (w' & ->). exists w'. simpl. by rewrite <-app_assoc.
Qed.

Lemma runs_trace {K R} (body : K → M (W * list (nat * F * Key)) R)
    (Q : K → nat * F * Key → Prop) ks w tr rs wt :
  (∀ k w tr r wt, k ∈ ks → body k (w, tr) = Ok (r, wt) →
     ∃ w' new, wt = (w', tr ++ new) ∧ ∀ e, e ∈ new → Q k e) →
  runs body ks (w, tr) rs wt →
  ∃ w' new, wt = (w', tr ++ new) ∧ ∀ e, e ∈ new → ∃ k, k ∈ ks ∧ Q k e.
Proof.
  intros Hb Hr. remember (w, tr) as wt0 eqn:Hwt0. revert w tr Hwt0.
  induction Hr as [wt0|k ks wt0 r wt1 rs wt Hk Hr IH]; intros w tr ->.
  - exists w, []. rewrite app_nil_r. split; [done|]. by intros e ?%elem_of_nil.
  - destruct (Hb k w tr r wt1) as (w1 & new1 & -> & Hnew1);
      [apply elem_of_cons; by left|done|].
    destruct (IH) with (w := w1) (tr := tr ++ new1) as (w' & new & -> & Hnew);
      [|done|].
    { intros k' w0 tr0 r0 wt0 ?. apply Hb. apply elem_of_cons. by right. }
    exists w', (new1 ++ new). rewrite app_assoc. split; [done|].
    intros e [He|He]%elem_of_app.
    + exists k. split; [apply elem_of_cons; by left|auto].
    + destruct (Hnew e He) as (k' & ? & ?). exists k'.
      split; [apply elem_of_cons; by right|done].
Qed.

(** Every call recorded during [match_by] is numbered from [i] on and is on
    a file of one of the two lists. *)
Lemma match_by_trace_bound funcs i scr arc w tr r wt :
  match_by set_iter scr arc (traced_from i funcs) (w, tr) = Ok (r, wt) →
  ∃ w' new, wt = (w', tr ++ new) ∧
            ∀ j x k, (j, x, k) ∈ new → i ≤ j ∧ x ∈ scr ++ arc.
Proof.
  revert i scr arc w tr r wt.
  induction funcs as [|func rest IH]; intros i scr arc w tr r wt H.
  - apply match_by_nil_Ok in H as [_ ->]. exists w, []. rewrite app_nil_r.
    split; [done|]. by intros j x k ?%elem_of_nil.
  - simpl traced_from in H. apply match_by_cons_Ok in H
      as (ps & wt1 & pa & wt2 & rs & Hps & Hpa & Hr & _).
    pose proof (keyed_files _ _ _ _ _ Hps) as Hps2.
    apply keyed_traced in Hps as (w1 & ->).
    pose proof (keyed_files _ _ _ _ _ Hpa) as Hpa2.
    apply keyed_traced in Hpa as (w2 & ->).
    apply (runs_trace _ (λ k '(j, x, _), S i ≤ j ∧ x ∈ with_key k ps ++ with_key k pa))
      in Hr as (w' & new & -> & Hnew).
    2: { intros k w0 tr0 r0 wt0 _ Hrun. apply IH in Hrun as (w0' & new0 & -> & Hn).
         exists w0', new0. split; [done|]. intros [[j x] k']. apply Hn. }
    exists w'. eexists. rewrite <-!app_assoc. split; [done|].
    intros j x k. rewrite !elem_of_app, !list_elem_of_fmap.
    intros [([k1 x1] & [= -> <- <-] & Hin)|[([k1 x1] & [= -> <- <-] & Hin)|Hin]].
    + split; [done|]. left. rewrite <-Hps2. apply list_elem_of_fmap. by exists (k, x).
    + split; [done|]. right. rewrite <-Hpa2. apply list_elem_of_fmap. by exists (k, x).
    + apply Hnew in Hin as (k0 & _ & Hj & Hx). split; [lia|].
      rewrite <-Hps2, <-Hpa2.
      apply elem_of_app in Hx as [Hx%with_key_subseteq|Hx%with_key_subseteq]; auto.
Qed.

(** A scratch file whose first key no archive file shares is unmatched,
    and no function after the first is ever called on it. *)
Lemma lone_file_trace func rest scr arc w d m u w' tr :
  match_by set_iter scr arc (traced_from 0 (func :: rest)) (w, [])
    = Ok ((m, u), (w', tr)) →
  d ∈ scr →
  (∀ a ka kd, a ∈ arc → (0, a, ka) ∈ tr → (0, d, kd) ∈ tr → ka ≠ kd) →
  d ∈ u ∧ (d ∉ m) ∧ (∀ j k, (j, d, k) ∈ tr → j = 0).
Proof.
  intros H Hd Hno. simpl traced_from in H.
  apply match_by_cons_Ok in H
    as (ps & wt1 & pa & wt2 & rs & Hps & Hpa & Hr & [= -> ->]).
  pose proof (keyed_files _ _ _ _ _ Hps) as Hps2.
  apply keyed_traced in Hps as (w1 & ->).
  pose proof (keyed_files _ _ _ _ _ Hpa) as Hpa2.
  apply keyed_traced in Hpa as (w2 & ->).
  pose proof Hr as Hr'.
  apply (runs_trace _ (λ k '(j, x, _), 1 ≤ j ∧ x ∈ with_key k ps ++ with_key k pa))
    in Hr' as (w'' & new & [= <- ->] & Hnew).
  2: { intros k w0 tr0 r0 wt0 _ Hrun.
       apply match_by_trace_bound in Hrun as (w0' & new0 & -> & Hn).
       exists w0', new0. split; [done|]. intros [[j x] k']. apply Hn. }
  simpl in Hno.
  assert (Hin_ps : ∀ k x, (k, x) ∈ ps →
    (0, x, k) ∈ ((λ p, (0, p.2, p.1)) <$> ps) ++ ((λ p, (0, p.2, p.1)) <$> pa) ++ new).
  { intros k x ?. apply elem_of_app. left. apply list_elem_of_fmap. by exists (k, x). }
  assert (Hin_pa : ∀ k x, (k, x) ∈ pa →
    (0, x, k) ∈ ((λ p, (0, p.2, p.1)) <$> ps) ++ ((λ p, (0, p.2, p.1)) <$> pa) ++ new).
  { intros k x ?. apply elem_of_app. right. apply elem_of_app. left.
    apply list_elem_of_fmap. by exists (k, x). }
  rewrite <-app_assoc in Hno.
  assert (Harc : ∀ k a, (k, a) ∈ pa → a ∈ arc).
  { intros k a ?. rewrite <-Hpa2. apply list_elem_of_fmap. by exists (k, a). }
  assert (F1 : ∀ k, (k, d) ∈ ps → ¬ ∃ a, (k, a) ∈ pa).
  { intros k Hkd [a Hka]. by eapply (Hno a k k); eauto. }
  assert (F2 : ∀ k, (k, d) ∉ pa).
  { intros k Hkd. by eapply (Hno d k k); eauto. }
  assert (Hshared : ∀ k, k ∈ set_iter (shared_keys ps pa) →
    d ∉ with_key k ps ++ with_key k pa).
  { intros k Hk%elem_of_set_iter; [|done]. apply elem_of_shared_keys in Hk as [_ Hpa'].
    intros [Hx%elem_of_with_key|Hx%elem_of_with_key]%elem_of_app.
    - by apply (F1 k).
    - by apply (F2 k). }
  split_and!.
  - rewrite <-Hps2 in Hd. apply list_elem_of_fmap in Hd as ([k x] & -> & Hkd).
    simpl in *. apply elem_of_app. left. apply elem_of_concat.
    exists (with_key k ps). split; [|by apply elem_of_with_key].
    apply list_elem_of_fmap. exists k. split; [done|].
    apply elem_of_set_iter; [done|]. apply elem_of_lone_keys. split; [eauto|].
    by apply F1.
  - intros (ms & Hms & Hx)%elem_of_concat.
    apply list_elem_of_fmap in Hms as ([m0 u0] & -> & Hr0).
    apply list_elem_of_lookup in Hr0 as [i Hi].
    destruct (runs_Forall2 (λ _, True) _ _ _ _ _ (λ _ _ _ _ _ _, Logic.I) Hr Logic.I)
      as [_ Hall].
    destruct (Forall2_lookup_r _ _ _ _ _ Hall Hi) as (k & Hk & wt0 & wt0' & _ & Hrun).
    apply list_elem_of_lookup_2 in Hk.
    apply (match_by_elem_of set_iter set_iter_perm) with (x := d) in Hrun.
    apply (Hshared k Hk). apply elem_of_app. left. apply Hrun. by left.
  - intros j k. rewrite !elem_of_app, !list_elem_of_fmap.
    intros [[(p & [= -> _ _] & _)|(p & [= -> _ _] & _)]|Hin]; [done..|].
    apply Hnew in Hin as (k0 & Hk0 & _ & Hx). by destruct (Hshared k0 Hk0).
Qed.
End Trace.

(** ** The key functions of [main] *)

Section KeyFunctions.
Context {hashlib : Hashlib}.
Variable set_iter : gset Key → list Key.
Hypothesis set_iter_perm : ∀ X, set_iter X ≡ₚ elements X.


Lemma size_key_Ok x w k w' :
  size_key x w = Ok (k, w') ↔ ∃ v, size x w = Ok (v, w') ∧ k = KInt v.
Proof.
  unfold size_key. rewrite bind_Ok. split.
  - intros (v & w1 & Hv & [<- <-]%ret_Ok). eauto.
  - intros (v & Hv & ->). by exists v, w'.
Qed.

Lemma sha1_key_Ok x w k w' :
  sha1_key x w = Ok (k, w') ↔ ∃ v, sha1 x w = Ok (v, w') ∧ k = KStr v.
Proof.
  unfold sha1_key. rewrite bind_Ok. split.
  - intros (v & w1 & Hv & [<- <-]%ret_Ok). eauto.
  - intros (v & Hv & ->). by exists v, w'.
Qed.

(** Throughout a run that starts in [w0], the two key functions return the
    size and the digest the descriptor showed in [w0]. *)
Lemma size_key_shows w0 :
  shows (later w0) size_key (λ x, KInt <$> obs_size w0 x).
Proof.
  intros x w k w' Hw (v & Hv & ->)%size_key_Ok. split.
  - destruct (size_shows _ _ _ _ Hv) as [Hobs _].
    by rewrite <-(later_obs_size w0 w x Hw), Hobs.
  - eapply later_trans; [done|]. by eapply later_size.
Qed.

Lemma sha1_key_shows w0 :
  shows (later w0) sha1_key (λ x, KStr <$> obs_sha1 w0 x).
Proof.
  intros x w k w' Hw (v & Hv & ->)%sha1_key_Ok. split.
  - destruct (sha1_shows _ _ _ _ Hv) as [Hobs _].
    by rewrite <-(later_obs_sha1 w0 w x Hw), Hobs.
  - eapply later_trans; [done|]. by eapply later_sha1.
Qed.

(** A run of the matcher with the keys of [main] only fills caches, and the
    matched files are the scratch files some archive file agrees with on
    size and on digest. *)
Lemma match_by_size_sha1 scr arc w m u w' :
  match_by set_iter scr arc [size_key; sha1_key] w = Ok ((m, u), w') →
  later w w' ∧
  ∀ x, x ∈ m ↔ x ∈ scr ∧ ∃ a, a ∈ arc ∧ obs_size w a = obs_size w x
                                ∧ obs_sha1 w a = obs_sha1 w x.
Proof.
  intros H.
  destruct (match_by_shows set_iter set_iter_perm (later w)
              [size_key; sha1_key]
              [λ x, KInt <$> obs_size w x; λ x, KStr <$> obs_sha1 w x]
              scr arc w m u w') as [Hl Hm]; [|done|done|apply later_refl|].
  { constructor; [apply size_key_shows|].
    constructor; [apply sha1_key_shows|constructor]. }
  split; [done|]. intros x. rewrite Hm. do 2 f_equiv. intros a.
  rewrite !Forall_cons, Forall_nil. split.
  - intros (? & Hs & Hh & _). split_and!; [done| |].
    + destruct (obs_size w a), (obs_size w x); simpl in *; congruence.
    + destruct (obs_sha1 w a), (obs_sha1 w x); simpl in *; congruence.
  - intros (? & -> & ->). done.
Qed.

(** The two key functions return on every descriptor that shows a size and
    a digest. *)
Lemma key_functions_return w0 (files : list loc) :
  (∀ x, x ∈ files → is_Some (obs_size w0 x) ∧ is_Some (obs_sha1 w0 x)) →
  ∀ func x w, func ∈ [size_key; sha1_key] → x ∈ files → later w0 w →
    ∃ k w', func x w = Ok (k, w') ∧ later w0 w'.
Proof.
  intros Hfiles func x w Hfunc Hx Hw. destruct (Hfiles x Hx) as [[n Hn] [h Hh]].
  apply elem_of_cons in Hfunc as [->|Hfunc]; [|apply list_elem_of_singleton in Hfunc as ->].
  - destruct (size_returns x w n) as [w' Hrun].
    { by rewrite (later_obs_size w0 w x Hw). }
    exists (KInt n), w'. split; [apply size_key_Ok; eauto|].
    eapply later_trans; [done|]. by eapply later_size.
  - destruct (sha1_returns x w h) as [w' Hrun].
    { by rewrite (later_obs_sha1 w0 w x Hw). }
    exists (KStr h), w'. split; [apply sha1_key_Ok; eauto|].
    eapply later_trans; [done|]. by eapply later_sha1.
Qed.
End KeyFunctions.

(** * The claims *)

(** ** The matcher, for any key functions *)

Section MatcherClaims.
Context {W F : Type}.
Variable set_iter : gset Key → list Key.
Hypothesis set_iter_perm : ∀ X, set_iter X ≡ₚ elements X.
Implicit Types (func : @KeyFn W F) (rest funcs : list (@KeyFn W F)).
Implicit Types (scr arc : list F).

(** C1 (completeness).  Whenever the matcher returns [(m, u)], the two
    lists together are a rearrangement of the scratch list: every scratch
    descriptor is in one of them and nothing else is.  No descriptor is in
    both, or twice in one, when the scratch descriptors are distinct; and no
    descriptor is in both when the key of a file does not depend on the
    moment of the call ([shows]).  The matcher does return when every key
    function returns a key on every file of the two lists ([I] is any
    property of worlds the key functions need and keep). *)
Theorem match_by_complete (I : W → Prop) funcs scr arc w :
  (∀ m u w', match_by set_iter scr arc funcs w = Ok ((m, u), w') →
     m ++ u ≡ₚ scr ∧ (∀ x, x ∈ scr ↔ x ∈ m ∨ x ∈ u) ∧
     (NoDup scr → NoDup m ∧ NoDup u ∧ ∀ x, x ∈ m → x ∉ u) ∧
     (∀ kfs, Forall2 (shows I) funcs kfs → I w → ∀ x, x ∈ m → x ∉ u)) ∧
  ((∀ func x w, func ∈ funcs → x ∈ scr ++ arc → I w →
      ∃ k w', func x w = Ok (k, w') ∧ I w') →
   I w → ∃ m u w', match_by set_iter scr arc funcs w = Ok ((m, u), w')).
Proof.
  split.
  - intros m u w' H. split_and!.
    + by eapply match_by_perm.
    + intros x. by eapply match_by_elem_of.
    + by eapply match_by_NoDup.
    + intros kfs Hkfs Hw. by eapply match_by_shows_disjoint.
  - intros Hf Hw.
    destruct (match_by_succeed set_iter I funcs scr arc w Hf Hw)
      as ([m u] & w' & H & _).
    eauto.
Qed.

Lemma set_iter_empty : set_iter ∅ = [].
Proof. apply Permutation_nil_r. by rewrite set_iter_perm, elements_empty. Qed.

Lemma group_by_nil func w : group_by [] func w = Ok (∅, w).
Proof. done. Qed.

Lemma keyed_Raise func files w e :
  keyed func files w = Raise e → ∃ x w0, x ∈ files ∧ func x w0 = Raise e.
Proof.
  revert w. induction files as [|f files IH]; intros w; simpl; [done|].
  unfold bind. destruct (func f w) as [[k w1]|e'] eqn:Hf.
  - destruct (keyed func files w1) as [[ps w2]|e'] eqn:Hk; [done|].
    intros [= ->]. destruct (IH _ Hk) as (x & w0 & Hx & Hrun).
    exists x, w0. split; [apply elem_of_cons; by right|done].
  - intros [= ->]. exists f, w. split; [apply elem_of_cons; by left|done].
Qed.

(** C6, as the code has it (empty inputs).  An empty list is no error by
    itself, but the other list is still grouped by the first key function,
    and the outcome of that grouping is the outcome of the call.  When the
    grouping returns: with no scratch descriptor both results are empty,
    whatever the archive and the key functions; with no archive descriptor
    and at least one key function nothing is matched and the unmatched
    result is a rearrangement of the scratch list.  The grouping returns
    when the first key function returns a key on every file of the list;
    when it raises, the exception is one the first key function raised on a
    file of the list, and the matcher raises it.  With no key function
    nothing is called. *)
Theorem match_by_empty_inputs :
  (∀ arc w, match_by set_iter [] arc (@nil (@KeyFn W F)) w = Ok (([], []), w)) ∧
  (∀ arc func rest w,
     match_by set_iter [] arc (func :: rest) w =
     match group_by arc func w with
     | Ok (_, w') => Ok (([], []), w')
     | Raise e => Raise e
     end) ∧
  (∀ scr func rest w,
     match_by set_iter scr [] (func :: rest) w =
     match group_by scr func w with
     | Ok (sg, w') => Ok (([], concat (item sg <$> set_iter (dom sg))), w')
     | Raise e => Raise e
     end) ∧
  (∀ scr func w sg w',
     group_by scr func w = Ok (sg, w') →
     concat (item sg <$> set_iter (dom sg)) ≡ₚ scr) ∧
  (∀ (I : W → Prop) files func w,
     (∀ x w, x ∈ files → I w → ∃ k w', func x w = Ok (k, w') ∧ I w') → I w →
     ∃ g w', group_by files func w = Ok (g, w')) ∧
  (∀ files func w e,
     group_by files func w = Raise e →
     ∃ x w0, x ∈ files ∧ func x w0 = Raise e).
Proof.
  split_and!.
  - done.
  - intros arc func rest w. simpl. unfold bind at 1. rewrite group_by_nil.
    unfold bind. destruct (group_by arc func w) as [[ag w']|e]; [|done].
    rewrite dom_empty_L.
    replace (∅ ∩ dom ag) with (∅ : gset Key) by set_solver.
    replace (∅ ∖ ∅) with (∅ : gset Key) by set_solver.
    by rewrite set_iter_empty.
  - intros scr func rest w. simpl. unfold bind at 1.
    destruct (group_by scr func w) as [[sg w']|e]; [|done].
    unfold bind. rewrite group_by_nil, dom_empty_L.
    replace (dom sg ∩ ∅) with (∅ : gset Key) by set_solver.
    replace (dom sg ∖ ∅) with (dom sg) by set_solver.
    by rewrite set_iter_empty.
  - intros scr func w sg w' (ps & Hps & ->)%group_by_Ok.
    apply keyed_files in Hps as <-.
    rewrite dom_group_pairs, dom_empty_L.
    rewrite <-(with_key_partition (set_iter (∅ ∪ list_to_set ps.*1)) ps).
    + apply reflexive_eq. f_equal. apply Forall_fmap_ext_1, Forall_forall.
      intros k _. rewrite item_group_pairs. by unfold item; rewrite lookup_empty.
    + rewrite set_iter_perm. apply NoDup_elements.
    + intros k Hk. apply elem_of_set_iter; [done|]. set_solver.
  - intros I files func w Hfunc Hw.
    destruct (keyed_succeed func I files w Hfunc Hw) as (ps & w' & Hps & _).
    exists (group_pairs ps ∅), w'. apply group_by_Ok. eauto.
  - intros files func w e. unfold group_by. rewrite group_by_into_keyed.
    destruct (keyed func files w) as [[ps w']|e'] eqn:Hk; [done|].
    intros [= ->]. by eapply keyed_Raise.
Qed.

(** C7 (no key function).  With an empty list of key functions the matcher
    returns the whole scratch list as matched and nothing as unmatched, and
    does nothing else. *)
Theorem match_by_no_key_function scr arc (w : W) :
  match_by set_iter scr arc (@nil (@KeyFn W F)) w = Ok ((scr, []), w).
Proof. by apply match_by_nil_Ok. Qed.
End MatcherClaims.

(** ** The matcher with the keys of [main], and the descriptors *)

Lemma Permutation_singleton_split {A} (m u : list A) (s : A) :
  m ++ u ≡ₚ [s] → s ∉ m → m = [] ∧ u = [s].
Proof.
  intros Hp Hs. destruct m as [|y m].
  - split; [done|]. by apply Permutation_singleton_r.
  - exfalso. apply Hs. assert (y ∈ [s]) as ->%list_elem_of_singleton.
    { rewrite <-Hp. apply elem_of_cons. by left. }
    apply elem_of_cons. by left.
Qed.

Section ProgramClaims.
Context {hashlib : Hashlib}.
Variable set_iter : gset Key → list Key.
Hypothesis set_iter_perm : ∀ X, set_iter X ≡ₚ elements X.


(** In a run with the keys of [main], the keys recorded for the first
    function are the sizes the descriptors showed at the start. *)
Lemma size_sha1_trace_sizes scr arc w r w' tr :
  match_by set_iter scr arc (traced_from 0 [size_key; sha1_key]) (w, []) = Ok (r, (w', tr)) →
  ∀ x k, (0, x, k) ∈ tr → KInt <$> obs_size w x = Some k.
Proof.
  intros H.
  apply (match_by_preserve set_iter
           (λ wt : World * list (nat * loc * Key),
              later w wt.1 ∧ ∀ x k, (0, x, k) ∈ wt.2 → KInt <$> obs_size w x = Some k))
    in H; [by destruct H| |].
  - intros func x [w0 tr0] k [w1 tr1] Hfunc _ Hrun [Hl Htr]. simpl in Hl, Htr |- *.
    apply elem_of_cons in Hfunc as [->|Hfunc];
      [|apply list_elem_of_singleton in Hfunc as ->];
      apply traced_Ok in Hrun as (w1' & Hrun & [= -> ->]).
    + destruct (size_key_shows w _ _ _ _ Hl Hrun)
        as [Hk Hl1].
      split; [done|]. intros y k' [?|[= -> ->]%list_elem_of_singleton]%elem_of_app; auto.
    + destruct (sha1_key_shows w _ _ _ _ Hl Hrun)
        as [Hk Hl1].
      split; [done|]. intros y k' [?|[=]%list_elem_of_singleton]%elem_of_app; auto.
  - split; [apply later_refl|]. by intros x k ?%elem_of_nil.
Qed.

(** The digest cache of a descriptor changes only in a call of the second
    function on that descriptor. *)
Lemma size_sha1_trace_cache scr arc w r w' tr d :
  match_by set_iter scr arc (traced_from 0 [size_key; sha1_key]) (w, []) = Ok (r, (w', tr)) →
  (∀ j k, (j, d, k) ∈ tr → j = 0) → cached_sha1 w' d = cached_sha1 w d.
Proof.
  intros H.
  refine (match_by_preserve set_iter
           (λ wt : World * list (nat * loc * Key),
              (∀ j k, (j, d, k) ∈ wt.2 → j = 0) → cached_sha1 wt.1 d = cached_sha1 w d)
           _ _ _ _ _ _ _ H (λ _, eq_refl)).
  intros func x [w0 tr0] k [w1 tr1] Hfunc _ Hrun IH Htr. simpl in IH, Htr |- *.
  apply elem_of_cons in Hfunc as [->|Hfunc];
    [|apply list_elem_of_singleton in Hfunc as ->];
    apply traced_Ok in Hrun as (w1' & Hrun & [= -> ->]).
  - apply size_key_Ok in Hrun as (v & Hrun & _).
    rewrite (size_keeps_sha1 _ _ _ _ d Hrun). apply IH.
    intros j k' ?. apply (Htr j k'). apply elem_of_app. by left.
  - apply sha1_key_Ok in Hrun as (v & Hrun & _).
    assert (d ≠ x) as Hne.
    { intros ->. specialize (Htr 1 k). rewrite elem_of_app, list_elem_of_singleton in Htr.
      by specialize (Htr (or_intror eq_refl)). }
    rewrite (sha1_keeps_sha1 _ _ _ _ d Hrun Hne). apply IH.
    intros j k' ?. apply (Htr j k'). apply elem_of_app. by left.
Qed.

(** C2 (short circuit).  Record the calls of the key functions as
    [(stage, file, key)].  For any key functions: a scratch descriptor whose
    first key is the first key of no archive descriptor ends up unmatched,
    and every recorded call on it is a call of the first function.  With the
    keys of [main]: a scratch descriptor whose size is the size of no archive
    descriptor ends up unmatched, its digest cache is what it was before the
    run (unset if it was unset), and in the recorded run, which returns the
    same, the digest function is never called on it. *)
Theorem short_circuit :
  (∀ (W F : Type) (func : @KeyFn W F) rest scr arc w d m u w' tr,
     match_by set_iter scr arc (traced_from 0 (func :: rest)) (w, [])
       = Ok ((m, u), (w', tr)) →
     d ∈ scr →
     (∀ a ka kd, a ∈ arc → (0, a, ka) ∈ tr → (0, d, kd) ∈ tr → ka ≠ kd) →
     d ∈ u ∧ (d ∉ m) ∧ (∀ j k, (j, d, k) ∈ tr → j = 0)) ∧
  (∀ scr arc w d m u w',
     match_by set_iter scr arc [size_key; sha1_key] w = Ok ((m, u), w') →
     d ∈ scr →
     (∀ a, a ∈ arc → obs_size w a ≠ obs_size w d) →
     d ∈ u ∧ (d ∉ m) ∧ cached_sha1 w' d = cached_sha1 w d ∧
     ∃ tr, match_by set_iter scr arc (traced_from 0 [size_key; sha1_key]) (w, [])
             = Ok ((m, u), (w', tr))
           ∧ ∀ j k, (j, d, k) ∈ tr → j = 0).
Proof.
  split.
  - intros W F func rest scr arc w d m u w' tr. by apply lone_file_trace.
  - intros scr arc w d m u w' H Hd Hno.
    apply (match_by_traced set_iter 0 _ _ _ _ []) in H as [tr Htr].
    pose proof (size_sha1_trace_sizes _ _ _ _ _ _ Htr) as Hsizes.
    destruct (lone_file_trace set_iter set_iter_perm _ _ _ _ _ d _ _ _ _ Htr Hd)
      as (Hu & Hm & Hcalls).
    { intros a ka kd Ha Hka Hkd <-. apply (Hno a Ha).
      apply Hsizes in Hka, Hkd.
      destruct (obs_size w a), (obs_size w d); simpl in *; congruence. }
    split_and!; [done|done| |].
    + by eapply size_sha1_trace_cache.
    + by exists tr.
Qed.

(** C3 (hash necessity).  Take two descriptors that show the same size and
    different digests.  When the archive list holds only the one, the other
    is unmatched wherever it occurs in the scratch list; and for the scratch
    list that holds only the other the matcher returns no matched
    descriptor and that one unmatched. *)
Theorem hash_necessity :
  (∀ scr a s w m u w',
     match_by set_iter scr [a] [size_key; sha1_key] w = Ok ((m, u), w') →
     s ∈ scr → obs_size w s = obs_size w a → obs_sha1 w s ≠ obs_sha1 w a →
     s ∈ u ∧ s ∉ m) ∧
  (∀ a s w n h1 h2,
     obs_size w s = Some n → obs_size w a = Some n →
     obs_sha1 w s = Some h1 → obs_sha1 w a = Some h2 → h1 ≠ h2 →
     ∃ w', match_by set_iter [s] [a] [size_key; sha1_key] w = Ok (([], [s]), w')).
Proof.
  assert (Hpart : ∀ scr a s w m u w',
     match_by set_iter scr [a] [size_key; sha1_key] w = Ok ((m, u), w') →
     s ∈ scr → obs_sha1 w s ≠ obs_sha1 w a → s ∈ u ∧ s ∉ m).
  { intros scr a s w m u w' H Hs Hne.
    assert (s ∉ m) as Hm.
    { destruct (match_by_size_sha1 _ set_iter_perm _ _ _ _ _ _ H) as [_ Hm].
      intros Hin. apply Hm in Hin as (_ & a' & ->%list_elem_of_singleton & _ & Heq).
      by apply Hne. }
    split; [|done].
    apply (match_by_elem_of set_iter set_iter_perm) with (x := s) in H.
    apply H in Hs as [?|?]; done. }
  split; [intros scr a s w m u w' H Hs _ Hne; by apply (Hpart scr a s w m u w')|].
  intros a s w n h1 h2 Hss Hsa Hhs Hha Hne.
  destruct (match_by_succeed set_iter (later w) [size_key; sha1_key] [s] [a] w)
    as ([m u] & w' & H & _); [|apply later_refl|].
  { apply key_functions_return. intros x [->|Hx]%elem_of_cons;
      [|apply list_elem_of_singleton in Hx as ->]; split; eauto. }
  exists w'. rewrite H. destruct (Hpart [s] a s w m u w' H) as [Hu Hm].
  { apply elem_of_cons. by left. }
  { congruence. }
  apply (match_by_perm set_iter set_iter_perm) in H.
  by destruct (Permutation_singleton_split m u s H Hm) as [-> ->].
Qed.

End ProgramClaims.

(** ** Strings, the ignore test and the report text *)

Lemma list_ascii_of_string_app (a b : string) :
  String.list_ascii_of_string (a +:+ b)
  = String.list_ascii_of_string a ++ String.list_ascii_of_string b.
Proof. induction a as [|c a IH]; simpl; [done|]. by rewrite IH. Qed.

Lemma endswith_spec (s pattern : string) :
  endswith s pattern = true ↔ ∃ front, s = front +:+ pattern.
Proof.
  unfold endswith. rewrite bool_decide_eq_true. split.
  - intros [k Hk]. exists (String.string_of_list_ascii k).
    rewrite <-(String.string_of_list_ascii_of_string s), Hk.
    rewrite <-(String.string_of_list_ascii_of_string pattern) at 2.
    generalize (String.list_ascii_of_string pattern). clear Hk. intros l.
    induction k as [|c k IH]; [done|].
    transitivity (String c (String.string_of_list_ascii k +:+ String.string_of_list_ascii l));
      [simpl; by rewrite IH|done].
  - intros [front ->]. exists (String.list_ascii_of_string front).
    apply list_ascii_of_string_app.
Qed.

Lemma ignored_loop_spec (path : string) (patterns : list string) :
  ignored_loop path patterns = true ↔
  ∃ pattern front, pattern ∈ patterns ∧ path = front +:+ pattern.
Proof.
  induction patterns as [|p patterns IH]; simpl.
  - split; [done|]. by intros (? & ? & ?%elem_of_nil & _).
  - destruct (endswith path p) eqn:He.
    + split; [|done]. intros _. apply endswith_spec in He as [front ->].
      exists p, front. split; [apply elem_of_cons; by left|done].
    + rewrite IH. split.
      * intros (p' & front & ? & ->). exists p', front.
        split; [apply elem_of_cons; by right|done].
      * intros (p' & front & [Heq|?]%elem_of_cons & ->); [subst p'|eauto].
        assert (endswith (front +:+ p) p = true) by (apply endswith_spec; eauto).
        congruence.
Qed.

(** [ignored_by_path] reads the path and nothing else, and answers the
    suffix test. *)
Lemma ignored_by_path_Ok x w b w' :
  ignored_by_path x w = Ok (b, w') ↔
  w' = w ∧ ∃ p, path_of w x = Some p ∧ b = ignored_loop p IGNORED_FILES.
Proof.
  unfold ignored_by_path, path_of. rewrite bind_Ok. split.
  - intros (o & w1 & [Hx ->]%deref_Ok & [<- <-]%ret_Ok). split; [done|].
    exists (full_path o). by rewrite Hx.
  - intros (-> & p & Hp & ->). destruct (heap w !! x) as [o|] eqn:Hx; [|done].
    injection Hp as <-. exists o, w. split; [by apply deref_Ok|done].
Qed.

Lemma filter_not_ignored_subseteq scratch w kept w' :
  filter_not_ignored scratch w = Ok (kept, w') → kept ⊆ scratch.
Proof.
  revert kept. induction scratch as [|f scratch IH]; intros kept H; simpl in H.
  - apply ret_Ok in H as [<- _]. done.
  - run_inv H. subst. apply ignored_by_path_Ok in Hrun as (-> & _).
    specialize (IH _ Hrun0). destruct a; set_solver.
Qed.

(** The filter changes nothing in the world, and keeps exactly the
    descriptors whose path has none of the ignored suffixes. *)
Lemma filter_not_ignored_Ok scratch w kept w' :
  filter_not_ignored scratch w = Ok (kept, w') →
  w' = w ∧
  ∀ d, d ∈ scratch →
    ∃ p, path_of w d = Some p ∧ (d ∈ kept ↔ ¬ has_ignored_suffix p).
Proof.
  revert kept. induction scratch as [|f scratch IH]; intros kept H; simpl in H.
  - apply ret_Ok in H as [<- <-]. split; [done|]. by intros d ?%elem_of_nil.
  - run_inv H. subst.
    apply ignored_by_path_Ok in Hrun as (-> & p & Hp & ->).
    pose proof (filter_not_ignored_subseteq _ _ _ _ Hrun0) as Hsub.
    destruct (IH _ Hrun0) as [-> Hkept]. split; [done|].
    assert (Hspec : ∀ q, has_ignored_suffix q ↔ ignored_loop q IGNORED_FILES = true).
    { intros q. symmetry. apply ignored_loop_spec. }
    intros d Hd. destruct (decide (d = f)) as [->|Hne].
    + exists p. split; [done|]. rewrite Hspec.
      destruct (ignored_loop p IGNORED_FILES) eqn:Hi.
      * split; [|done]. intros Hin.
        destruct (Hkept f (Hsub f Hin)) as (p' & Hp' & Hiff).
        assert (p' = p) as -> by congruence.
        apply Hiff in Hin. by rewrite Hspec in Hin.
      * split; [done|]. intros _. apply elem_of_cons. by left.
    + apply elem_of_cons in Hd as [?|Hd]; [done|].
      destruct (Hkept d Hd) as (p' & Hp' & Hiff). exists p'. split; [done|].
      rewrite <-Hiff. destruct (ignored_loop p IGNORED_FILES);
        [done|]. rewrite elem_of_cons. naive_solver.
Qed.

(** ** The report writer *)

Lemma full_paths_Ok files w ps w' :
  full_paths files w = Ok (ps, w') ↔
  w' = w ∧ Forall2 (λ f p, path_of w f = Some p) files ps.
Proof.
  revert ps. induction files as [|f files IH]; intros ps; simpl.
  - rewrite ret_Ok. split.
    + intros [<- <-]. split; [done|constructor].
    + intros [-> ->%Forall2_nil_inv_l]. done.
  - rewrite bind_Ok. split.
    + intros (o & w1 & [Hf ->]%deref_Ok & H). run_inv H. subst.
      apply IH in Hrun as [-> Hall]. split; [done|].
      constructor; [|done]. unfold path_of. by rewrite Hf.
    + intros [-> Hall]. apply Forall2_cons_inv_l in Hall as (p & ps' & Hp & Hall & ->).
      unfold path_of in Hp. destruct (heap w !! f) as [o|] eqn:Hf; [|done].
      injection Hp as <-. exists o, w. split; [by apply deref_Ok|].
      apply bind_Ok. exists ps', w. split; [by apply IH|done].
Qed.

Lemma write_text_Ok path text w w' :
  write_text path text w = Ok (tt, w') ↔
  writable w path = true ∧ is_dir (fs w) path = false ∧
  encodable text = true ∧
  w' = add_io (IoWrite path)
         (set_fs (<[path := File (String.list_byte_of_string text)]> (fs w)) w).
Proof.
  unfold write_text.
  destruct (writable w path), (is_dir (fs w) path), (encodable text);
    simpl; naive_solver.
Qed.

Lemma string_app_assoc (a b c : string) : (a +:+ b) +:+ c = a +:+ (b +:+ c).
Proof.
  induction a as [|x a IH]; [done|].
  transitivity (String x ((a +:+ b) +:+ c)); [done|]. by rewrite IH.
Qed.

(** [nl.join(paths) + nl] puts a newline after every path, when there is a
    path. *)
Lemma join_lines (paths : list string) :
  paths ≠ [] → String.concat nl paths +:+ nl = lines paths.
Proof.
  induction paths as [|p paths IH]; [done|]. intros _.
  destruct paths as [|q paths]; [done|].
  transitivity (p +:+ nl +:+ (String.concat nl (q :: paths) +:+ nl)).
  - change (String.concat nl (p :: q :: paths))
      with (p +:+ nl +:+ String.concat nl (q :: paths)).
    by rewrite !string_app_assoc.
  - by rewrite IH.
Qed.

(** *** The encoder *)

Lemma utf8_step_wf s b s' : utf8_step s b = Some s' → utf8_wf s'.
Proof.
  destruct s as [|more lo hi]; simpl.
  - repeat case_match; intros [= <-]; simpl; done || lia.
  - case_match; [|done]. intros [= <-]. destruct more; simpl; done || lia.
Qed.

Lemma utf8_accepts_app s a b :
  utf8_accepts s a = true → utf8_accepts s (a ++ b) = utf8_accepts Utf8Start b.
Proof.
  revert s. induction a as [|x a IH]; intros s; simpl.
  - by destruct s.
  - destruct (utf8_step s x); [apply IH|done].
Qed.

(** A newline ends a character: the text up to it and the text after it
    are encoded apart. *)
Lemma utf8_accepts_newline s a b :
  utf8_wf s →
  utf8_accepts s (a ++ 10%N :: b) = utf8_accepts s a && utf8_accepts Utf8Start b.
Proof.
  revert s. induction a as [|x a IH]; intros s Hs; simpl.
  - destruct s as [|more lo hi]; [done|]. simpl in *.
    destruct (lo <=? 10)%N eqn:Hlo; [apply N.leb_le in Hlo; lia|done].
  - destruct (utf8_step s x) as [s'|] eqn:Hstep; [|done].
    apply IH. by eapply utf8_step_wf.
Qed.

Lemma encodable_newline (a b : string) :
  encodable (a +:+ nl +:+ b) = encodable a && encodable b.
Proof.
  unfold encodable. rewrite list_ascii_of_string_app, fmap_app.
  change (nl +:+ b) with (String "010" b). by apply utf8_accepts_newline.
Qed.

Lemma encodable_lines (paths : list string) :
  encodable (lines paths) = true ↔ Forall (λ p, encodable p = true) paths.
Proof.
  induction paths as [|p paths IH]; simpl.
  - split; [constructor|done].
  - rewrite encodable_newline, andb_true_iff, IH, Forall_cons. done.
Qed.

(** The text of a report can be encoded exactly when every path can. *)
Lemma encodable_report (paths : list string) :
  encodable (String.concat nl paths +:+ nl) = true ↔
  Forall (λ p, encodable p = true) paths.
Proof.
  destruct paths as [|p paths]; [split; [constructor|done]|].
  rewrite join_lines by done. apply encodable_lines.
Qed.

Lemma write_paths_to_file_Ok files out_file w w' :
  write_paths_to_file files out_file w = Ok (tt, w') ↔
  ∃ paths, Forall2 (λ f p, path_of w f = Some p) files paths ∧
    writable w out_file = true ∧ is_dir (fs w) out_file = false ∧
    Forall (λ p, encodable p = true) paths ∧
    w' = add_io (IoWrite out_file)
           (set_fs (<[out_file := File (String.list_byte_of_string
                        (String.concat nl (merge_sort String.le paths) +:+ nl))]>
                      (fs w)) w).
Proof.
  unfold write_paths_to_file. rewrite bind_Ok. split.
  - intros (paths & w1 & [-> Hall]%full_paths_Ok
              & (Hw & Hd & He & ->)%write_text_Ok).
    exists paths. split_and!; [done..| |done].
    apply encodable_report in He. by rewrite merge_sort_Permutation in He.
  - intros (paths & Hall & Hw & Hd & He & ->). exists paths, w.
    split; [by apply full_paths_Ok|]. apply write_text_Ok.
    split_and!; [done..| |done].
    apply encodable_report. by rewrite merge_sort_Permutation.
Qed.

(** ** [main], step by step *)

Section MainShape.
Context {hashlib : Hashlib}.
Variable set_iter : gset Key → list Key.


Lemma main_Ok args w L w' :
  main set_iter args w = Ok (L, w') ↔
  ∃ scratch0 w1 archive w2 scratch matched no_match w3,
    read_files_arg (args_scratch args) w = Ok (scratch0, w1) ∧
    read_files_arg (args_archive args) w1 = Ok (archive, w2) ∧
    filter_not_ignored scratch0 w2 = Ok (scratch, w2) ∧
    match_by set_iter scratch archive [size_key; sha1_key] w2
      = Ok ((matched, no_match), w3) ∧
    L = mkLocals scratch archive matched no_match ∧
    let w4 :=
      add_stdout (pretty (length no_match) +:+ "/" +:+ pretty (length scratch)
                    +:+ " scratch files do not appear in the archive ("
                    +:+ pretty (length archive) +:+ " files).") w3 in
    match args_output args with
    | Some output =>
        ∃ w5, write_paths_to_file matched (os_path_join output "duplicates.txt") w4
                = Ok (tt, w5) ∧
              write_paths_to_file no_match (os_path_join output "missing.txt") w5
                = Ok (tt, w')
    | None => w' = w4
    end.
Proof.
  unfold main. split.
  - intros H. apply bind_Ok in H as (scratch0 & w1 & Hs & H).
    apply bind_Ok in H as (archive & w2 & Ha & H).
    apply bind_Ok in H as (scratch & w2' & Hf & H).
    pose proof (filter_not_ignored_Ok _ _ _ _ Hf) as [-> _].
    apply bind_Ok in H as ([matched no_match] & w3 & Hm & H).
    apply bind_Ok in H as ([] & w4 & [= <-] & H).
    apply bind_Ok in H as ([] & w5 & Hout & [<- <-]%ret_Ok).
    exists scratch0, w1, archive, w2, scratch, matched, no_match, w3.
    split_and!; try done. simpl.
    destruct (args_output args) as [output|].
    + apply bind_Ok in Hout as ([] & w6 & H1 & H2). eauto.
    + by apply ret_Ok in Hout as [_ <-].
  - intros (scratch0 & w1 & archive & w2 & scratch & matched & no_match & w3
            & Hs & Ha & Hf & Hm & -> & Hout).
    apply bind_Ok. exists scratch0, w1. split; [done|].
    apply bind_Ok. exists archive, w2. split; [done|].
    apply bind_Ok. exists scratch, w2. split; [done|].
    apply bind_Ok. exists (matched, no_match), w3. split; [done|].
    apply bind_Ok. eexists tt, _. split; [done|].
    apply bind_Ok. exists tt, w'. split; [|done].
    simpl in Hout. destruct (args_output args) as [output|].
    + destruct Hout as (w5 & H1 & H2). apply bind_Ok. by exists tt, w5.
    + by subst.
Qed.

(** Reading a tree does not change the file system. *)
Lemma for_each_fs {A B} (xs : list A) (acc : B) (body : B → A → M World B) w r w' :
  (∀ acc x w r w', body acc x w = Ok (r, w') → fs w' = fs w) →
  for_each xs acc body w = Ok (r, w') → fs w' = fs w.
Proof.
  intros Hb. revert acc w. induction xs as [|x xs IH]; intros acc w H; simpl in H.
  - by apply ret_Ok in H as [_ <-].
  - run_inv H. etrans; [by eapply IH|by eapply Hb].
Qed.

Lemma read_files_fs path w files w' :
  read_files path w = Ok (files, w') → fs w' = fs w.
Proof.
  unfold read_files. intros H. apply bind_Ok in H as (isfile & w1 & [= <- <-] & H).
  destruct (match fs w !! path with Some (File _) => true | _ => false end).
  - run_inv H. subst. by injection Hrun as <- <-.
  - apply bind_Ok in H as (triples & w2 & [= <- <-] & H).
    apply bind_Ok in H as ([res total] & w3 & Hloop & H).
    run_inv H. subst. injection Hrun as <-. subst w'. simpl.
    apply for_each_fs in Hloop; [done|].
    intros acc [[dirpath dirnames] filenames] w0 r0 w0'. apply for_each_fs.
    intros [res' total'] filename w4 r4 w4' H4. run_inv H4. subst.
    by injection Hrun as <- <-.
Qed.

Lemma read_files_arg_fs path w files w' :
  read_files_arg path w = Ok (files, w') → fs w' = fs w.
Proof. destruct path as [p|]; [apply read_files_fs|done]. Qed.

(** A root that does not resolve: [os.path.isfile] is false, [os.walk]
    yields nothing, and [read_files] returns the empty list. *)
Lemma read_files_missing root w :
  fs w !! root = None →
  read_files root w
  = Ok ([], add_stdout ("A total of 0 were contained in " +:+ root)
              (add_io (IoScandir root) (add_io (IoStat root) w))).
Proof.
  intros Hroot. unfold read_files, bind, os_path_isfile, walk. rewrite Hroot.
  simpl. by rewrite Hroot.
Qed.
End MainShape.

(** ** The caches over the life of a descriptor *)

Section DescriptorClaims.
Context {hashlib : Hashlib}.

Lemma caches_kept_heap w w' new : heap w' = heap w ++ new → caches_kept w w'.
Proof.
  intros Hh x. unfold cached_size, cached_sha1. rewrite Hh.
  destruct (heap w !! x) as [o|] eqn:Hx; [|done].
  by rewrite (lookup_app_l_Some _ _ _ _ Hx).
Qed.

Lemma caches_kept_later w w' : later w w' → caches_kept w w'.
Proof.
  intros Hl x. split; intros v.
  - by apply later_cached_size.
  - by apply later_cached_sha1.
Qed.

Lemma for_each_heap {A B} (xs : list A) (acc : B) (body : B → A → M World B) w r w' :
  (∀ acc x w r w', body acc x w = Ok (r, w') → ∃ new, heap w' = heap w ++ new) →
  for_each xs acc body w = Ok (r, w') → ∃ new, heap w' = heap w ++ new.
Proof.
  intros Hb. revert acc w. induction xs as [|x xs IH]; intros acc w H; simpl in H.
  - apply ret_Ok in H as [_ <-]. exists []. by rewrite app_nil_r.
  - run_inv H. apply Hb in Hrun as [new1 Hn1]. apply IH in H as [new2 Hn2].
    exists (new1 ++ new2). by rewrite Hn2, Hn1, app_assoc.
Qed.

(** Loading a tree only adds objects to the heap. *)
Lemma read_files_heap path w files w' :
  read_files path w = Ok (files, w') → ∃ new, heap w' = heap w ++ new.
Proof.
  unfold read_files. intros H. apply bind_Ok in H as (isfile & w1 & [= <- <-] & H).
  destruct (match fs w !! path with Some (File _) => true | _ => false end).
  - run_inv H. subst. injection Hrun as <- <-. by eexists.
  - apply bind_Ok in H as (triples & w2 & [= <- <-] & H).
    apply bind_Ok in H as ([res total] & w3 & Hloop & H).
    run_inv H. subst. injection Hrun as <-. subst w'. simpl.
    apply for_each_heap in Hloop; [done|].
    intros acc [[dirpath dirnames] filenames] w0 r0 w0'. apply for_each_heap.
    intros [res' total'] filename w4 r4 w4' H4. run_inv H4. subst.
    injection Hrun as <- <-. by eexists.
Qed.

Lemma do_accesses_keeps accs w w' :
  do_accesses accs w = Ok (tt, w') → caches_kept w w'.
Proof.
  revert w. induction accs as [|a accs IH]; intros w H; simpl in H.
  - by apply ret_Ok in H as [_ <-].
  - apply bind_Ok in H as ([] & w1 & Ha & H). apply IH in H.
    assert (caches_kept w w1) as H1.
    { destruct a as [x|x|x|path|files out_file]; simpl in Ha.
      - apply bind_Ok in Ha as (v & w2 & Ha & [_ <-]%ret_Ok).
        by eapply caches_kept_later, later_size.
      - apply bind_Ok in Ha as (v & w2 & Ha & [_ <-]%ret_Ok).
        by eapply caches_kept_later, later_sha1.
      - apply bind_Ok in Ha as (v & w2 & Ha & [_ <-]%ret_Ok).
        apply ignored_by_path_Ok in Ha as [-> _]. done.
      - apply bind_Ok in Ha as (v & w2 & Ha & [_ <-]%ret_Ok).
        apply read_files_heap in Ha as [new Hn]. by eapply caches_kept_heap.
      - apply write_paths_to_file_Ok in Ha as (paths & _ & _ & _ & _ & ->).
        apply (caches_kept_heap _ _ []). simpl. by rewrite app_nil_r. }
    intros x. destruct (H1 x), (H x). split; auto.
Qed.

(** C4 (cached attributes).  An access that returns leaves the value it
    returned in the cache.  Once a value is in the cache, an access returns
    it and leaves the world as it is (no object changes and no file-system
    operation is logged), and this stays so after any sequence of
    operations of the program on any descriptors (accesses, loading trees,
    writing reports): the size and the digest a descriptor shows never
    change, and each is computed at most once. *)
Theorem cached_attributes :
  (∀ x w v w', size x w = Ok (v, w') → cached_size w' x = Some v) ∧
  (∀ x w v, cached_size w x = Some v →
     size x w = Ok (v, w) ∧
     ∀ accs w', do_accesses accs w = Ok (tt, w') →
       cached_size w' x = Some v ∧ size x w' = Ok (v, w')) ∧
  (∀ x w v w', sha1 x w = Ok (v, w') → cached_sha1 w' x = Some v) ∧
  (∀ x w v, cached_sha1 w x = Some v →
     sha1 x w = Ok (v, w) ∧
     ∀ accs w', do_accesses accs w = Ok (tt, w') →
       cached_sha1 w' x = Some v ∧ sha1 x w' = Ok (v, w')).
Proof.
  split_and!.
  - intros x w v w' H. by destruct (size_shows _ _ _ _ H).
  - intros x w v Hc. split; [by apply size_cached|].
    intros accs w' Hk%do_accesses_keeps.
    pose proof (proj1 (Hk x) v Hc) as Hc'.
    split; [done|by apply size_cached].
  - intros x w v w' H. by destruct (sha1_shows _ _ _ _ H).
  - intros x w v Hc. split; [by apply sha1_cached'|].
    intros accs w' Hk%do_accesses_keeps.
    pose proof (proj2 (Hk x) v Hc) as Hc'.
    split; [done|by apply sha1_cached'].
Qed.
End DescriptorClaims.

(** ** The loader, the filter and the reports *)

Lemma write_paths_to_file_heap files out_file w w' :
  write_paths_to_file files out_file w = Ok (tt, w') → heap w' = heap w.
Proof. by intros (paths & _ & _ & _ & _ & ->)%write_paths_to_file_Ok. Qed.

Lemma os_path_join_name (a name : string) :
  startswith name sep = false → ∃ front, os_path_join a name = front +:+ name.
Proof.
  intros Hn. unfold os_path_join. rewrite Hn.
  destruct (bool_decide (a = "") || endswith a sep); [by exists a|].
  exists (a +:+ sep). by rewrite string_app_assoc.
Qed.

Lemma report_paths_differ (output : string) :
  os_path_join output "duplicates.txt" ≠ os_path_join output "missing.txt".
Proof.
  unfold os_path_join.
  replace (startswith "duplicates.txt" sep) with false by by vm_compute.
  replace (startswith "missing.txt" sep) with false by by vm_compute.
  destruct (bool_decide (output = "") || endswith output sep);
    intros H; [|rewrite <-!string_app_assoc in H]; by apply (inj (String.app _)) in H.
Qed.

(** C8 (report format).  The report writer stores in the output file the
    paths of the descriptors, in the order of [String.le] (byte-wise
    lexicographic, which for UTF-8 is the order of the code points), each
    followed by a newline.  When the descriptors are valid and the file can
    be opened for writing, it returns if every path can be encoded, and
    raises [UnicodeEncodeError] if one cannot.  For descriptors with paths
    [/s/z.txt] and [/s/b.txt] the file holds exactly [/s/b.txt], newline,
    [/s/z.txt], newline. *)
Theorem report_sorted :
  (∀ files out_file w w',
     files ≠ [] → write_paths_to_file files out_file w = Ok (tt, w') →
     ∃ paths sorted,
       Forall2 (λ f p, path_of w f = Some p) files paths ∧
       sorted ≡ₚ paths ∧ Sorted String.le sorted ∧
       fs w' !! out_file = Some (File (String.list_byte_of_string (lines sorted)))) ∧
  (∀ files out_file w paths,
     Forall2 (λ f p, path_of w f = Some p) files paths →
     writable w out_file = true → is_dir (fs w) out_file = false →
     (Forall (λ p, encodable p = true) paths →
        ∃ w', write_paths_to_file files out_file w = Ok (tt, w')) ∧
     (¬ Forall (λ p, encodable p = true) paths →
        write_paths_to_file files out_file w = Raise UnicodeEncodeError)) ∧
  (∀ z b out_file w w',
     path_of w z = Some "/s/z.txt" → path_of w b = Some "/s/b.txt" →
     write_paths_to_file [z; b] out_file w = Ok (tt, w') →
     fs w' !! out_file
     = Some (File (String.list_byte_of_string
                     ("/s/b.txt" +:+ nl +:+ "/s/z.txt" +:+ nl)))).
Proof.
  split_and!.
  - intros files out_file w w' Hne (paths & Hall & _ & _ & _ & ->)%write_paths_to_file_Ok.
    exists paths, (merge_sort String.le paths). split_and!.
    + done.
    + apply merge_sort_Permutation.
    + apply (Sorted_merge_sort String.le).
    + simpl. rewrite lookup_insert_eq. do 3 f_equal. apply join_lines.
      intros Hnil. apply (f_equal length) in Hnil.
      rewrite (Permutation_length (merge_sort_Permutation String.le paths)) in Hnil.
      rewrite <-(Forall2_length _ _ _ Hall) in Hnil. by destruct files.
  - intros files out_file w paths Hall Hw Hd. split.
    + intros He. eexists. apply write_paths_to_file_Ok. by exists paths.
    + intros He. unfold write_paths_to_file, bind.
      rewrite (proj2 (full_paths_Ok files w paths w) (conj eq_refl Hall)).
      unfold write_text. rewrite Hw, Hd. simpl.
      destruct (encodable _) eqn:Htext; [|done].
      apply encodable_report in Htext.
      by rewrite merge_sort_Permutation in Htext.
  - intros z b out_file w w' Hz Hb (paths & Hall & _ & _ & _ & ->)%write_paths_to_file_Ok.
    apply Forall2_cons_inv_l in Hall as (pz & paths' & Hpz & Hall & ->).
    apply Forall2_cons_inv_l in Hall as (pb & paths'' & Hpb & Hall & ->).
    apply Forall2_nil_inv_l in Hall as ->.
    assert (pz = "/s/z.txt") as -> by congruence.
    assert (pb = "/s/b.txt") as -> by congruence.
    simpl. by rewrite lookup_insert_eq.
Qed.

Section MainClaims.
Context {hashlib : Hashlib}.
Variable set_iter : gset Key → list Key.
Hypothesis set_iter_perm : ∀ X, set_iter X ≡ₚ elements X.


(** From the world in which the scratch list is filtered to the end of
    [main], the objects of the heap keep their paths. *)
Lemma main_paths args w L w' :
  main set_iter args w = Ok (L, w') →
  ∃ scratch0 w1 w2 w3,
    read_files_arg (args_scratch args) w = Ok (scratch0, w1) ∧
    read_files_arg (args_archive args) w1 = Ok (loc_archive L, w2) ∧
    filter_not_ignored scratch0 w2 = Ok (loc_scratch L, w2) ∧
    match_by set_iter (loc_scratch L) (loc_archive L) [size_key; sha1_key] w2
      = Ok ((loc_matched L, loc_no_match L), w3) ∧
    ∀ d, path_of w' d = path_of w2 d.
Proof.
  intros (scratch0 & w1 & archive & w2 & scratch & matched & no_match & w3
          & Hs & Ha & Hf & Hm & -> & Hout)%main_Ok.
  exists scratch0, w1, w2, w3. split_and!; try done. intros d.
  destruct (match_by_size_sha1 _ set_iter_perm _ _ _ _ _ _ Hm) as [Hl _].
  rewrite <-(later_path_of _ _ d Hl). unfold path_of. f_equal. f_equal.
  simpl in Hout. destruct (args_output args) as [output|].
  - destruct Hout as (w5 & H1%write_paths_to_file_heap & H2%write_paths_to_file_heap).
    by rewrite H2, H1.
  - by subst.
Qed.

(** C5 (ignore filter).  [ignored_by_path] changes nothing and answers
    whether the path ends with one of [.DS_Store], [.gdoc], [.gsheet],
    [.gslides].  In [main], the list given to the matcher as scratch holds
    exactly the loaded scratch descriptors whose path has none of these
    suffixes, so a loaded scratch descriptor is in one of the two results
    exactly when its path has none; the list given as archive is the loaded
    archive list, unfiltered. *)
Theorem ignore_filter :
  (∀ x w b w',
     ignored_by_path x w = Ok (b, w') →
     w' = w ∧ ∃ p, path_of w x = Some p ∧ (b = true ↔ has_ignored_suffix p)) ∧
  (∀ path,
     has_ignored_suffix path ↔
     ∃ front, path = front +:+ ".DS_Store" ∨ path = front +:+ ".gdoc" ∨
              path = front +:+ ".gsheet" ∨ path = front +:+ ".gslides") ∧
  (∀ args w L w',
     main set_iter args w = Ok (L, w') →
     ∃ scratch0 w1 w2 w3,
       read_files_arg (args_scratch args) w = Ok (scratch0, w1) ∧
       read_files_arg (args_archive args) w1 = Ok (loc_archive L, w2) ∧
       match_by set_iter (loc_scratch L) (loc_archive L) [size_key; sha1_key] w2
         = Ok ((loc_matched L, loc_no_match L), w3) ∧
       (∀ d, d ∈ loc_matched L ∨ d ∈ loc_no_match L → d ∈ scratch0) ∧
       (∀ d, d ∈ scratch0 →
          ∃ p, path_of w' d = Some p ∧
               (d ∈ loc_scratch L ↔ ¬ has_ignored_suffix p) ∧
               (d ∈ loc_matched L ∨ d ∈ loc_no_match L ↔ ¬ has_ignored_suffix p))).
Proof.
  split_and!.
  - intros x w b w' (-> & p & Hp & ->)%ignored_by_path_Ok. split; [done|].
    exists p. split; [done|]. apply ignored_loop_spec.
  - intros path. unfold has_ignored_suffix, IGNORED_FILES. split.
    + intros (pattern & front & Hin & ->). exists front.
      repeat (apply elem_of_cons in Hin as [Heq|Hin]; [subst pattern; tauto|]).
      by apply elem_of_nil in Hin.
    + intros (front & [-> | [-> | [-> | ->]]]); eexists _, front; (split; [|done]);
        repeat ((apply elem_of_cons; by left) || (apply elem_of_cons; right)).
  - intros args w L w' (scratch0 & w1 & w2 & w3 & Hs & Ha & Hf & Hm & Hpaths)%main_paths.
    exists scratch0, w1, w2, w3. split_and!; try done.
    + intros d Hd. apply (filter_not_ignored_subseteq _ _ _ _ Hf).
      by apply (match_by_elem_of set_iter set_iter_perm _ _ _ _ _ _ _ d Hm).
    + intros d Hd. destruct (filter_not_ignored_Ok _ _ _ _ Hf) as [_ Hkept].
      destruct (Hkept d Hd) as (p & Hp & Hiff). exists p.
      split_and!; [by rewrite Hpaths|done|].
      rewrite <-Hiff. symmetry.
      apply (match_by_elem_of set_iter set_iter_perm _ _ _ _ _ _ _ d Hm).
Qed.

(** C10 (empty report).  For an empty list the report writer still writes
    the file, and its content is one newline.  In [main] with an output
    directory, when nothing is matched [duplicates.txt] is that single
    newline at the end of the run, and when nothing is unmatched
    [missing.txt] is. *)
Theorem report_empty :
  (∀ out_file w,
     writable w out_file = true → is_dir (fs w) out_file = false →
     ∃ w', write_paths_to_file [] out_file w = Ok (tt, w') ∧
           fs w' !! out_file = Some (File [x0a])) ∧
  (∀ args output w L w',
     main set_iter args w = Ok (L, w') → args_output args = Some output →
     (loc_matched L = [] →
        fs w' !! os_path_join output "duplicates.txt" = Some (File [x0a])) ∧
     (loc_no_match L = [] →
        fs w' !! os_path_join output "missing.txt" = Some (File [x0a]))).
Proof.
  split.
  - intros out_file w Hw Hd. eexists. split.
    + apply write_paths_to_file_Ok. exists []. split; [constructor|done].
    + simpl. by rewrite lookup_insert_eq.
  - intros args output w L w'
      (scratch0 & w1 & archive & w2 & scratch & matched & no_match & w3
       & _ & _ & _ & _ & -> & Hout)%main_Ok Hargs.
    rewrite Hargs in Hout. simpl in Hout. destruct Hout as (w5 & H1 & H2).
    apply write_paths_to_file_Ok in H1 as (p1 & Hp1 & _ & _ & _ & ->).
    apply write_paths_to_file_Ok in H2 as (p2 & Hp2 & _ & _ & _ & ->).
    simpl. split; intros ->.
    + apply Forall2_nil_inv_l in Hp1 as ->.
      rewrite lookup_insert_ne by (apply not_eq_sym, report_paths_differ).
      by rewrite lookup_insert_eq.
    + apply Forall2_nil_inv_l in Hp2 as ->. by rewrite lookup_insert_eq.
Qed.

End MainClaims.

(** * The claims on the sample tree *)

Lemma Sample_set_iter_perm (X : gset Key) : Sample.set_iter X ≡ₚ elements X.
Proof. done. Qed.

Lemma Sample_world1_shows (x : loc) :
  x ∈ [0; 1; 2; 5; 6] →
  is_Some (obs_size Sample.world1 x)
  ∧ is_Some (obs_sha1 Sample.world1 x).
Proof.
  intros Hx. repeat (apply elem_of_cons in Hx as [->|Hx]; [by split; eexists; vm_compute|]).
  by apply elem_of_nil in Hx.
Qed.

(** The matcher returns on the sample scratch and archive files, and its
    results rearrange the scratch list. *)
Lemma match_by_complete_witness :
  ∃ m u w',
    match_by Sample.set_iter [0; 1; 2] [5; 6] [size_key; sha1_key] Sample.world1
      = Ok ((m, u), w')
    ∧ m ++ u ≡ₚ [0; 1; 2].
Proof.
  destruct (match_by_complete Sample.set_iter Sample_set_iter_perm
              (later Sample.world1)
              [size_key; sha1_key] [0; 1; 2] [5; 6] Sample.world1)
    as [Hany Hret].
  destruct Hret as (m & u & w' & Hrun).
  - apply key_functions_return. intros x Hx. apply Sample_world1_shows.
    exact Hx.
  - apply later_refl.
  - exists m, u, w'. split; [exact Hrun|]. exact (proj1 (Hany m u w' Hrun)).
Defined.

(** With no scratch file, the archive files are still grouped by size and
    nothing is returned. *)
Lemma match_by_empty_inputs_witness :
  (∀ X, Sample.set_iter X ≡ₚ elements X) ∧
  ∃ w', match_by Sample.set_iter [] [5; 6] [size_key; sha1_key] Sample.world1
        = Ok (([], []), w').
Proof.
  split; [exact Sample_set_iter_perm|].
  destruct (match_by_empty_inputs (W:=World) (F:=loc) Sample.set_iter Sample_set_iter_perm)
    as (_ & Hscr & _).
  rewrite Hscr. eexists. vm_compute. reflexivity.
Defined.

(** C6 as the specification states it fails: the one descriptor of the
    tree with the name that does not resolve, as the only archive
    descriptor against no scratch descriptor and as the only scratch
    descriptor against no archive descriptor.  Both calls end with the
    [OSError] of [os.path.getsize], not with a result. *)
Lemma empty_inputs_raise :
  path_of Sample.dangling 0 = Some "/a/gone" ∧
  match_by Sample.set_iter [] [0] [size_key; sha1_key] Sample.dangling
    = Raise (OSError "/a/gone") ∧
  match_by Sample.set_iter [0] [] [size_key; sha1_key] Sample.dangling
    = Raise (OSError "/a/gone").
Proof. split_and!; vm_compute; reflexivity. Qed.

(** [/s/c.jpg] (descriptor 2, size 7) against [/a/x.bin] (descriptor 5,
    10 bytes), in the world in which reading [/s/c.jpg] raises: the
    matcher returns, the descriptor is unmatched and its digest cache is
    still unset. *)
Lemma short_circuit_witness :
  sha1 2 Sample.world2 = Raise (OSError "/s/c.jpg") ∧
  ∃ m u w',
    match_by Sample.set_iter [0; 1; 2] [5] [size_key; sha1_key] Sample.world2
      = Ok ((m, u), w')
    ∧ 2 ∈ u ∧ cached_sha1 w' 2 = None.
Proof.
  split; [vm_compute; reflexivity|].
  eexists _, _, _. split; [vm_compute; reflexivity|].
  match goal with |- 2 ∈ ?u ∧ cached_sha1 ?w' 2 = None =>
    destruct (proj2 (short_circuit Sample.set_iter Sample_set_iter_perm)
                [0; 1; 2] [5] Sample.world2 2 [0] u w')
      as (Hu & _ & Hc & _)
  end.
  - vm_compute. reflexivity.
  - apply elem_of_cons. right. apply elem_of_cons. right. apply elem_of_cons. by left.
  - intros a Ha. apply list_elem_of_singleton in Ha as ->. by vm_compute.
  - split; [exact Hu|]. rewrite Hc. vm_compute. reflexivity.
Defined.

(** [/s/b.txt] (descriptor 1) and [/a/x.bin] (descriptor 5): ten bytes
    each, different content. *)
Lemma hash_necessity_witness :
  ∃ w', match_by Sample.set_iter [1] [5] [size_key; sha1_key] Sample.world1
        = Ok (([], [1]), w').
Proof.
  apply (proj2 (hash_necessity Sample.set_iter Sample_set_iter_perm)
           5 1 Sample.world1 10%Z "abcdefghij" "0123456789").
  - vm_compute. reflexivity.
  - vm_compute. reflexivity.
  - vm_compute. reflexivity.
  - vm_compute. reflexivity.
  - discriminate.
Defined.

(** The size of [/s/a.txt] (descriptor 0), asked again after its digest
    was computed, the archive was loaded once more, a report was written
    and another size was asked. *)
Lemma cached_attributes_witness :
  ∃ w1 w2,
    size 0 Sample.world1 = Ok (10%Z, w1) ∧
    do_accesses [GetSha1 0; ReadFiles "/a"; WritePaths [0] "/out/report.txt"; GetSize 1] w1
      = Ok (tt, w2) ∧
    size 0 w2 = Ok (10%Z, w2).
Proof.
  destruct cached_attributes as (Hfill & Hread & _).
  eexists _, _. split; [vm_compute; reflexivity|].
  match goal with |- do_accesses _ ?w1 = _ ∧ _ =>
    destruct (Hread 0 w1 10%Z) as [_ Hafter];
      [apply (Hfill 0 Sample.world1); vm_compute; reflexivity|]
  end.
  split; [vm_compute; reflexivity|].
  match goal with |- size 0 ?w2 = _ =>
    apply (Hafter [GetSha1 0; ReadFiles "/a"; WritePaths [0] "/out/report.txt"; GetSize 1] w2)
  end.
  vm_compute. reflexivity.
Defined.

(** A run on the sample tree: no path in a result has an ignored suffix. *)
Lemma ignore_filter_witness :
  ∃ L w',
    Sample.run (mkArgs (Some "/a") (Some "/s") None) = Ok (L, w') ∧
    ∀ d, d ∈ loc_matched L ∨ d ∈ loc_no_match L →
         ∃ p, path_of w' d = Some p ∧ ¬ has_ignored_suffix p.
Proof.
  eexists _, _. split; [vm_compute; reflexivity|].
  intros d Hd.
  match goal with |- ∃ p, path_of ?w' d = Some p ∧ _ =>
    destruct (proj2 (proj2 (ignore_filter Sample.set_iter
                              Sample_set_iter_perm))
                (mkArgs (Some "/a") (Some "/s") None) Sample.world0
                (mkLocals [0; 1; 2] [5; 6] [2; 0] [1]) w')
      as (scratch0 & w1 & w2 & w3 & _ & _ & _ & Hsub & Hall)
  end.
  - vm_compute. reflexivity.
  - destruct (Hall d (Hsub d Hd)) as (p & Hp & _ & Hiff).
    exists p. split; [exact Hp|]. apply Hiff. exact Hd.
Defined.

(** The two paths of the example, given in the order [z], [b]; and a
    path whose name is the byte [0xFF], which is not UTF-8: the report
    cannot be encoded. *)
Lemma report_sorted_witness :
  (∃ w',
     write_paths_to_file [0; 1] "/out/missing.txt"
       (mkWorld ∅ (λ _, true)
          [mkLazyFile "/s/z.txt" None None; mkLazyFile "/s/b.txt" None None] [] [])
       = Ok (tt, w')
     ∧ fs w' !! "/out/missing.txt"
       = Some (File (String.list_byte_of_string
                       ("/s/b.txt" +:+ nl +:+ "/s/z.txt" +:+ nl)))) ∧
  write_paths_to_file [0] "/out/missing.txt"
    (mkWorld ∅ (λ _, true) [mkLazyFile (String "255" ".txt") None None] [] [])
    = Raise UnicodeEncodeError.
Proof.
  destruct report_sorted as (_ & Hreturns & Hexample).
  split.
  - eexists. split; [vm_compute; reflexivity|].
    apply (Hexample 0 1 "/out/missing.txt"
             (mkWorld ∅ (λ _, true)
                [mkLazyFile "/s/z.txt" None None; mkLazyFile "/s/b.txt" None None]
                [] [])).
    + reflexivity.
    + reflexivity.
    + vm_compute. reflexivity.
  - apply (Hreturns [0] "/out/missing.txt"
             (mkWorld ∅ (λ _, true) [mkLazyFile (String "255" ".txt") None None] [] [])
             [String "255" ".txt"]).
    + repeat constructor.
    + reflexivity.
    + reflexivity.
    + intros Hall. apply Forall_cons in Hall as [Henc _].
      vm_compute in Henc. discriminate Henc.
Defined.

(** A run on the sample tree with a missing archive root and an output
    directory: nothing is matched, and [duplicates.txt] is one newline. *)
Lemma report_empty_witness :
  ∃ L w',
    Sample.run (mkArgs (Some "/nope") (Some "/s") (Some "/out")) = Ok (L, w') ∧
    fs w' !! "/out/duplicates.txt" = Some (File [x0a]).
Proof.
  eexists _, _. split; [vm_compute; reflexivity|].
  match goal with |- fs ?w' !! _ = _ =>
    destruct (proj2 (report_empty Sample.set_iter)
                (mkArgs (Some "/nope") (Some "/s") (Some "/out")) "/out"
                Sample.world0 (mkLocals [0; 1; 2] [] [] [2; 0; 1]) w')
      as [Hdup _]
  end.
  - vm_compute. reflexivity.
  - reflexivity.
  - apply Hdup. reflexivity.
Defined.

(** * Further properties of the code *)

(** ** [group_by] and [match_by], for any key functions *)

Section MoreGrouping.
Context {W F : Type}.
Implicit Types (func : @KeyFn W F) (files : list F) (ps : list (Key * F)).

(** X1.  [group_by] calls the key function once on each file, in the order
    of the list ([keyed] gives the keys it returned, each with its file).
    The keys of the dictionary are exactly the keys that were returned; the
    value at a key lists, in the order of the input, the files for which
    that key was returned; no value is empty. *)
Theorem group_by_groups func files w g w' :
  group_by files func w = Ok (g, w') →
  ∃ ps, keyed func files w = Ok (ps, w') ∧ ps.*2 = files ∧
        dom g = list_to_set ps.*1 ∧
        (∀ k, item g k = (filter (λ p, p.1 = k) ps).*2) ∧
        (∀ k l, g !! k = Some l → l ≠ []).
Proof.
  intros (ps & Hps & ->)%group_by_Ok. exists ps.
  assert (Hitem : ∀ k, item (group_pairs ps ∅) k = with_key k ps).
  { intros k. rewrite item_group_pairs. by unfold item; rewrite lookup_empty. }
  assert (Hdom : dom (group_pairs ps ∅) = list_to_set ps.*1).
  { rewrite dom_group_pairs, dom_empty_L. set_solver. }
  split_and!; [done|by eapply keyed_files|done|done|].
  intros k l Hk ->.
  assert (k ∈ dom (group_pairs ps ∅)) as Hin by (apply elem_of_dom; eauto).
  rewrite Hdom, elem_of_list_to_set, list_elem_of_fmap in Hin.
  destruct Hin as ([k' x] & -> & Hin). simpl in *.
  apply elem_of_with_key in Hin. rewrite <-Hitem in Hin.
  unfold item in Hin. rewrite Hk in Hin. by apply elem_of_nil in Hin.
Qed.
End MoreGrouping.

Section MoreMatcher.
Context {W F : Type}.
Variable set_iter : gset Key → list Key.
Hypothesis set_iter_perm : ∀ X, set_iter X ≡ₚ elements X.
Implicit Types (func : @KeyFn W F) (rest funcs : list (@KeyFn W F)).
Implicit Types (scr arc files : list F) (ps pa : list (Key * F)).


(** X3.  The matcher does nothing to the world but call the key functions:
    a property of worlds that every call of a key function on a file of the
    two lists preserves is preserved by the whole run. *)
Theorem match_by_only_calls_keys (I : W → Prop) funcs scr arc w r w' :
  (∀ func x w k w', func ∈ funcs → x ∈ scr ++ arc →
     func x w = Ok (k, w') → I w → I w') →
  match_by set_iter scr arc funcs w = Ok (r, w') → I w → I w'.
Proof. apply match_by_preserve. Qed.

(** The calls of a run, in order: first stage, then the later stages. *)
Lemma trace_shape func rest scr arc w r w' tr :
  match_by set_iter scr arc (traced_from 0 (func :: rest)) (w, [])
    = Ok (r, (w', tr)) →
  ∃ ps pa new,
    ps.*2 = scr ∧ pa.*2 = arc ∧
    tr = ((λ p, (0, p.2, p.1)) <$> ps) ++ ((λ p, (0, p.2, p.1)) <$> pa) ++ new ∧
    ∀ j x k, (j, x, k) ∈ new →
      1 ≤ j ∧ ∃ k0, ((k0, x) ∈ ps ∨ (k0, x) ∈ pa)
                    ∧ (∃ s, (k0, s) ∈ ps) ∧ (∃ a, (k0, a) ∈ pa).
Proof.
  intros H. simpl traced_from in H.
  apply match_by_cons_Ok in H
    as (ps & wt1 & pa & wt2 & rs & Hps & Hpa & Hr & _).
  pose proof (keyed_files _ _ _ _ _ Hps) as Hps2.
  apply keyed_traced in Hps as (w1 & ->).
  pose proof (keyed_files _ _ _ _ _ Hpa) as Hpa2.
  apply keyed_traced in Hpa as (w2 & ->).
  apply (runs_trace _ (λ k '(j, x, _), 1 ≤ j ∧ x ∈ with_key k ps ++ with_key k pa))
    in Hr as (w'' & new & [= <- ->] & Hnew).
  2: { intros k w0 tr0 r0 wt0 _ Hrun.
       apply (match_by_trace_bound set_iter) in Hrun as (w0' & new0 & -> & Hn).
       exists w0', new0. split; [done|]. intros [[j x] k']. apply Hn. }
  exists ps, pa, new. split_and!; [done|done|by rewrite <-app_assoc|].
  intros j x k Hin. apply Hnew in Hin as (k0 & Hk0 & Hj & Hx).
  split; [done|]. exists k0.
  apply elem_of_set_iter, elem_of_shared_keys in Hk0 as [Hs Ha]; [|done].
  split_and!; [|done|done].
  apply elem_of_app in Hx as [Hx|Hx]; apply elem_of_with_key in Hx; auto.
Qed.

(** X4.  Record the calls as [(stage, file, key)].  The first key function
    is called once on each scratch file and then once on each archive file,
    in the order of the lists, before any other call.  Every later call is
    a call of a later function on a file whose first key was returned both
    for a scratch file and for an archive file. *)
Theorem match_by_calls func rest scr arc w r w' tr :
  match_by set_iter scr arc (traced_from 0 (func :: rest)) (w, [])
    = Ok (r, (w', tr)) →
  ∃ ps pa new,
    ps.*2 = scr ∧ pa.*2 = arc ∧
    tr = ((λ p, (0, p.2, p.1)) <$> ps) ++ ((λ p, (0, p.2, p.1)) <$> pa) ++ new ∧
    ∀ j x k, (j, x, k) ∈ new →
      1 ≤ j ∧ ∃ k0, ((k0, x) ∈ ps ∨ (k0, x) ∈ pa)
                    ∧ (∃ s, (k0, s) ∈ ps) ∧ (∃ a, (k0, a) ∈ pa).
Proof. apply trace_shape. Qed.
End MoreMatcher.

(** ** [match_by] with the keys of [main] *)

Lemma size_io_prefix x w v w' :
  size x w = Ok (v, w') → io_log w `prefix_of` io_log w'.
Proof.
  intros (o & Hx & [[_ ->]|(_ & _ & ->)])%size_Ok; [done|].
  simpl. by apply prefix_app_r.
Qed.

Lemma sha1_io_prefix `{Hashlib} x w v w' :
  sha1 x w = Ok (v, w') → io_log w `prefix_of` io_log w'.
Proof.
  intros (o & Hx & [[_ ->]|(_ & content & evs & _ & _ & ->)])%sha1_Ok; [done|].
  simpl. by apply prefix_app_r.
Qed.

Section MoreProgram.
Context {hashlib : Hashlib}.
Variable set_iter : gset Key → list Key.
Hypothesis set_iter_perm : ∀ X, set_iter X ≡ₚ elements X.

Lemma size_sha1_classes scr arc w m u w' :
  match_by set_iter scr arc [size_key; sha1_key] w = Ok ((m, u), w') →
  ∀ x, (x ∈ m ↔ x ∈ scr ∧ agrees w arc x) ∧
       (x ∈ u ↔ x ∈ scr ∧ ¬ agrees w arc x).
Proof.
  intros H x.
  destruct (match_by_size_sha1 _ set_iter_perm _ _ _ _ _ _ H) as [_ Hm].
  assert (Hdis : x ∈ m → x ∉ u).
  { apply (match_by_shows_disjoint set_iter set_iter_perm (later w)
             [size_key; sha1_key]
             [λ x, KInt <$> obs_size w x; λ x, KStr <$> obs_sha1 w x]
             scr arc w m u w'); [|done|apply later_refl].
    constructor; [apply size_key_shows|].
    constructor; [apply sha1_key_shows|constructor]. }
  pose proof (match_by_elem_of set_iter set_iter_perm _ _ _ _ _ _ _ x H) as Hin.
  split; [apply Hm|]. split.
  - intros Hu. split; [apply Hin; by right|]. intros Hex.
    apply Hdis; [|done]. apply Hm. split; [|done]. apply Hin. by right.
  - intros [Hx Hnm]. apply Hin in Hx as [Hxm|?]; [|done].
    exfalso. apply Hnm. by apply Hm in Hxm as [_ ?].
Qed.

(** X5.  With the keys of [main], a scratch descriptor is matched exactly
    when some archive descriptor shows the same size and the same digest,
    and unmatched exactly when none does; so no descriptor is in both
    results, also when the scratch list names it twice. *)
Theorem match_by_size_and_digest scr arc w m u w' :
  match_by set_iter scr arc [size_key; sha1_key] w = Ok ((m, u), w') →
  ∀ x, (x ∈ m ↔ x ∈ scr ∧ agrees w arc x) ∧
       (x ∈ u ↔ x ∈ scr ∧ ¬ agrees w arc x).
Proof. apply size_sha1_classes. Qed.

Lemma size_sha1_io_prefix scr arc w r w' :
  match_by set_iter scr arc [size_key; sha1_key] w = Ok (r, w') →
  io_log w `prefix_of` io_log w'.
Proof.
  intros H.
  refine (match_by_preserve set_iter (λ w0, io_log w `prefix_of` io_log w0)
            _ _ _ _ _ _ _ H _); [|done].
  intros func x w0 k w1 Hfunc _ Hrun Hpre.
  apply elem_of_cons in Hfunc as [->|Hfunc];
    [|apply list_elem_of_singleton in Hfunc as ->].
  - apply size_key_Ok in Hrun as (v & Hrun & _).
    etrans; [done|]. by eapply size_io_prefix.
  - apply sha1_key_Ok in Hrun as (v & Hrun & _).
    etrans; [done|]. by eapply sha1_io_prefix.
Qed.

(** X6.  A run of the matcher with the keys of [main] only reads: the file
    system, what may be written, the printed lines and the number of
    descriptors are as before, the log of file-system operations is only
    extended, and every descriptor has the path, shows the size and the
    digest, and keeps the cached values it had. *)
Theorem match_by_reads_only scr arc w r w' :
  match_by set_iter scr arc [size_key; sha1_key] w = Ok (r, w') →
  fs w' = fs w ∧ writable w' = writable w ∧ stdout w' = stdout w ∧
  length (heap w') = length (heap w) ∧
  io_log w `prefix_of` io_log w' ∧
  ∀ x, path_of w' x = path_of w x ∧
       obs_size w' x = obs_size w x ∧ obs_sha1 w' x = obs_sha1 w x ∧
       (∀ v, cached_size w x = Some v → cached_size w' x = Some v) ∧
       (∀ v, cached_sha1 w x = Some v → cached_sha1 w' x = Some v).
Proof.
  intros H. destruct r as [m u].
  destruct (match_by_size_sha1 _ set_iter_perm _ _ _ _ _ _ H) as [Hl _].
  split_and!; try apply Hl.
  - by eapply size_sha1_io_prefix.
  - intros x. split_and!.
    + by apply later_path_of.
    + by apply later_obs_size.
    + by apply later_obs_sha1.
    + intros v. by apply later_cached_size.
    + intros v. by apply later_cached_sha1.
Qed.

(** X7.  The digest is computed only where it can matter: in a run with the
    keys of [main], the digest cache of a descriptor changes only if the
    descriptor is in one of the two lists and its size is shown both by a
    scratch and by an archive descriptor. *)
Theorem digest_only_for_shared_sizes scr arc w r w' x :
  match_by set_iter scr arc [size_key; sha1_key] w = Ok (r, w') →
  ¬ (x ∈ scr ++ arc ∧ size_shared w scr arc x) →
  cached_sha1 w' x = cached_sha1 w x.
Proof.
  intros H Hx.
  apply (match_by_traced set_iter 0 _ _ _ _ []) in H as [tr Htr].
  eapply size_sha1_trace_cache; [done..|].
  intros j k Hin.
  pose proof (size_sha1_trace_sizes _ _ _ _ _ _ _ Htr) as Hsizes.
  destruct (trace_shape set_iter set_iter_perm _ _ _ _ _ _ _ _ Htr)
    as (ps & pa & new & Hps & Hpa & -> & Hnew).
  assert (Hps_in : ∀ k y, (k, y) ∈ ps → y ∈ scr ∧ KInt <$> obs_size w y = Some k).
  { intros k0 y Hy. split.
    - rewrite <-Hps. apply list_elem_of_fmap. by exists (k0, y).
    - apply Hsizes. apply elem_of_app. left. apply list_elem_of_fmap. by exists (k0, y). }
  assert (Hpa_in : ∀ k y, (k, y) ∈ pa → y ∈ arc ∧ KInt <$> obs_size w y = Some k).
  { intros k0 y Hy. split.
    - rewrite <-Hpa. apply list_elem_of_fmap. by exists (k0, y).
    - apply Hsizes. apply elem_of_app. right. apply elem_of_app. left.
      apply list_elem_of_fmap. by exists (k0, y). }
  rewrite !elem_of_app, !list_elem_of_fmap in Hin.
  destruct Hin as [(p & [= -> _ _] & _)|[(p & [= -> _ _] & _)|Hin]]; [done..|].
  exfalso. apply Hx.
  apply Hnew in Hin as (_ & k0 & Hk0 & [s Hs] & [a Ha]).
  apply Hps_in in Hs as [Hs Hks]. apply Hpa_in in Ha as [Ha Hka].
  assert (x ∈ scr ++ arc ∧ KInt <$> obs_size w x = Some k0) as [Hxin Hkx].
  { destruct Hk0 as [Hk0|Hk0]; [apply Hps_in in Hk0|apply Hpa_in in Hk0];
      destruct Hk0; split; try done; apply elem_of_app; auto. }
  split; [done|]. exists s, a. split_and!; [done|done| |].
  - destruct (obs_size w s), (obs_size w x); simpl in *; congruence.
  - destruct (obs_size w a), (obs_size w x); simpl in *; congruence.
Qed.
End MoreProgram.

(** ** When the matcher of [main] returns and when it raises *)

Section MoreSuccess.
Context {hashlib : Hashlib}.
Variable set_iter : gset Key → list Key.
Hypothesis set_iter_perm : ∀ X, set_iter X ≡ₚ elements X.

Lemma size_key_returns w0 x w :
  is_Some (obs_size w0 x) → later w0 w →
  ∃ k w', size_key x w = Ok (k, w') ∧ later w0 w'.
Proof.
  intros [n Hn] Hw. destruct (size_returns x w n) as [w' Hrun].
  { by rewrite (later_obs_size w0 w x Hw). }
  exists (KInt n), w'. split; [apply size_key_Ok; eauto|].
  eapply later_trans; [done|]. by eapply later_size.
Qed.

Lemma sha1_key_returns w0 x w :
  is_Some (obs_sha1 w0 x) → later w0 w →
  ∃ k w', sha1_key x w = Ok (k, w') ∧ later w0 w'.
Proof.
  intros [h Hh] Hw. destruct (sha1_returns x w h) as [w' Hrun].
  { by rewrite (later_obs_sha1 w0 w x Hw). }
  exists (KStr h), w'. split; [apply sha1_key_Ok; eauto|].
  eapply later_trans; [done|]. by eapply later_sha1.
Qed.

Lemma keyed_elem {W F} (func : @KeyFn W F) files w ps w' x :
  keyed func files w = Ok (ps, w') → x ∈ files → ∃ k, (k, x) ∈ ps.
Proof.
  intros Hps%keyed_files Hx. rewrite <-Hps in Hx.
  apply list_elem_of_fmap in Hx as ([k y] & -> & ?). eauto.
Qed.

Lemma KInt_fmap_inj (a b : option Z) : KInt <$> a = KInt <$> b → a = b.
Proof. destruct a, b; simpl; congruence. Qed.

Lemma match_by_returns_when scr arc w :
  (∀ x, x ∈ scr ++ arc → is_Some (obs_size w x)) →
  (∀ x, x ∈ scr ++ arc → size_shared w scr arc x → is_Some (obs_sha1 w x)) →
  ∃ r w', match_by set_iter scr arc [size_key; sha1_key] w = Ok (r, w').
Proof.
  intros Hsz Hdg.
  destruct (keyed_succeed size_key (later w) scr w) as (ps & w1 & Hps & Hw1);
    [|apply later_refl|].
  { intros x w0 Hx. apply size_key_returns, Hsz, elem_of_app. by left. }
  destruct (keyed_succeed size_key (later w) arc w1) as (pa & w2 & Hpa & Hw2);
    [|done|].
  { intros x w0 Hx. apply size_key_returns, Hsz, elem_of_app. by right. }
  destruct (keyed_shows _ _ _ _ _ _ _ (size_key_shows w) Hps (later_refl w))
    as [_ Hps'].
  destruct (keyed_shows _ _ _ _ _ _ _ (size_key_shows w) Hpa Hw1) as [_ Hpa'].
  destruct (runs_succeed
              (λ k, match_by set_iter (with_key k ps) (with_key k pa) [sha1_key])
              (later w) (set_iter (shared_keys ps pa)) w2) as (rs & w' & Hr & _);
    [|done|].
  { intros k w0 Hk Hw0.
    apply elem_of_set_iter, elem_of_shared_keys in Hk as [[s Hs] [a Ha]]; [|done].
    apply Hps' in Hs as [Hs Hks]. apply Hpa' in Ha as [Ha Hka].
    apply match_by_succeed; [|done].
    intros func x w3 ->%list_elem_of_singleton Hx Hw3.
    assert (x ∈ scr ++ arc ∧ KInt <$> obs_size w x = Some k) as [Hxin Hkx].
    { apply elem_of_app in Hx as [Hx|Hx]; apply elem_of_with_key in Hx;
        [apply Hps' in Hx|apply Hpa' in Hx]; destruct Hx;
        split; try done; apply elem_of_app; auto. }
    apply sha1_key_returns; [|done]. apply Hdg; [done|].
    exists s, a. split_and!; [done|done|apply KInt_fmap_inj..]; congruence. }
  eexists _, w'. apply match_by_cons_Ok. by exists ps, w1, pa, w2, rs.
Qed.

Lemma match_by_returned_then scr arc w r w' :
  match_by set_iter scr arc [size_key; sha1_key] w = Ok (r, w') →
  (∀ x, x ∈ scr ++ arc → is_Some (obs_size w x)) ∧
  (∀ x, x ∈ scr ++ arc → size_shared w scr arc x → is_Some (obs_sha1 w x)).
Proof.
  intros H. apply match_by_cons_Ok in H
    as (ps & w1 & pa & w2 & rs & Hps & Hpa & Hr & _).
  destruct (keyed_shows _ _ _ _ _ _ _ (size_key_shows w) Hps (later_refl w))
    as [Hw1 Hps'].
  destruct (keyed_shows _ _ _ _ _ _ _ (size_key_shows w) Hpa Hw1) as [Hw2 Hpa'].
  assert (Hsize : ∀ x, x ∈ scr ++ arc → ∃ k, KInt <$> obs_size w x = Some k ∧
                        ((k, x) ∈ ps ∨ (k, x) ∈ pa)).
  { intros x [Hx|Hx]%elem_of_app.
    - destruct (keyed_elem _ _ _ _ _ _ Hps Hx) as [k Hk]. exists k.
      split; [by apply Hps' in Hk as [_ ?]|by left].
    - destruct (keyed_elem _ _ _ _ _ _ Hpa Hx) as [k Hk]. exists k.
      split; [by apply Hpa' in Hk as [_ ?]|by right]. }
  split.
  - intros x Hx. destruct (Hsize x Hx) as (k & Hk & _).
    destruct (obs_size w x); [eauto|done].
  - intros x Hx (s & a & Hs & Ha & Hsx & Hax).
    destruct (Hsize x Hx) as (k & Hk & Hkx).
    assert ((k, s) ∈ ps) as Hks by (apply Hps'; split; [done|congruence]).
    assert ((k, a) ∈ pa) as Hka by (apply Hpa'; split; [done|congruence]).
    assert (k ∈ set_iter (shared_keys ps pa)) as Hkin.
    { apply elem_of_set_iter; [done|]. apply elem_of_shared_keys. eauto. }
    assert (∀ w0 k w r w',
      match_by set_iter (with_key k ps) (with_key k pa) [sha1_key] w = Ok (r, w') →
      later w0 w → later w0 w') as Hbody.
    { intros w0 k0 w3 r0 w3' Hrun Hw3. destruct r0 as [m0 u0].
      eapply later_trans; [done|].
      refine (match_by_preserve set_iter (later w3) _ _ _ _ _ _ _ Hrun (later_refl _)).
      intros func y w4 k4 w4' ->%list_elem_of_singleton _ Hrun4 Hw4.
      apply sha1_key_Ok in Hrun4 as (v & Hrun4 & _).
      eapply later_trans; [done|]. by eapply later_sha1. }
    destruct (runs_Forall2 (later w) _ _ _ _ _ (Hbody w) Hr Hw2) as [_ Hall].
    apply list_elem_of_lookup in Hkin as [i Hi].
    destruct (Forall2_lookup_l _ _ _ _ _ Hall Hi) as (r0 & _ & w3 & w3' & Hw3 & Hrun).
    apply match_by_cons_Ok in Hrun
      as (ps' & w4 & pa' & w5 & rs' & Hps2 & Hpa2 & _).
    destruct (keyed_shows _ _ _ _ _ _ _ (sha1_key_shows w) Hps2 Hw3) as [Hw4 Hps2'].
    destruct (keyed_shows _ _ _ _ _ _ _ (sha1_key_shows w) Hpa2 Hw4) as [_ Hpa2'].
    destruct Hkx as [Hkx|Hkx]; apply elem_of_with_key in Hkx.
    + destruct (keyed_elem _ _ _ _ _ _ Hps2 Hkx) as [k' Hk'].
      apply Hps2' in Hk' as [_ Hk']. destruct (obs_sha1 w x); [eauto|done].
    + destruct (keyed_elem _ _ _ _ _ _ Hpa2 Hkx) as [k' Hk'].
      apply Hpa2' in Hk' as [_ Hk']. destruct (obs_sha1 w x); [eauto|done].
Qed.

(** X8.  The matcher of [main] returns exactly when every descriptor of the
    two lists shows a size (its size is cached or its path resolves) and
    every descriptor whose size is shown on both sides shows a digest (it is
    cached or the path is a readable file).  Otherwise the run ends with an
    exception: one file that cannot be read where it has to be aborts the
    whole reconciliation, while a file that cannot be read is harmless when
    its size is on one side only. *)
Theorem match_by_returns_iff scr arc w :
  (∃ r w', match_by set_iter scr arc [size_key; sha1_key] w = Ok (r, w')) ↔
  (∀ x, x ∈ scr ++ arc → is_Some (obs_size w x)) ∧
  (∀ x, x ∈ scr ++ arc → size_shared w scr arc x → is_Some (obs_sha1 w x)).
Proof.
  split.
  - intros (r & w' & H). by eapply match_by_returned_then.
  - intros [Hsz Hdg]. by apply match_by_returns_when.
Qed.
End MoreSuccess.

(** ** The classification does not depend on orders or on cache state *)

(** X9.  Two runs of the matcher of [main] classify alike when the lists
    hold the same descriptors, whatever the order of the lists, the order in
    which sets are iterated, and whichever caches are already filled (the
    second run may start in any later world, for instance the one the first
    run left). *)
Theorem classification_is_stable `{Hashlib}
    (set_iter1 set_iter2 : gset Key → list Key)
    scr1 scr2 arc1 arc2 w1 w2 m1 u1 w1' m2 u2 w2' :
  (∀ X, set_iter1 X ≡ₚ elements X) → (∀ X, set_iter2 X ≡ₚ elements X) →
  (∀ x, x ∈ scr1 ↔ x ∈ scr2) → (∀ x, x ∈ arc1 ↔ x ∈ arc2) → later w1 w2 →
  match_by set_iter1 scr1 arc1 [size_key; sha1_key] w1 = Ok ((m1, u1), w1') →
  match_by set_iter2 scr2 arc2 [size_key; sha1_key] w2 = Ok ((m2, u2), w2') →
  ∀ x, (x ∈ m1 ↔ x ∈ m2) ∧ (x ∈ u1 ↔ x ∈ u2).
Proof.
  intros Hp1 Hp2 Hscr Harc Hl H1 H2 x.
  destruct (size_sha1_classes set_iter1 Hp1 _ _ _ _ _ _ H1 x) as [Hm1 Hu1].
  destruct (size_sha1_classes set_iter2 Hp2 _ _ _ _ _ _ H2 x) as [Hm2 Hu2].
  assert (agrees w1 arc1 x ↔ agrees w2 arc2 x) as Hag.
  { unfold agrees. split; intros (a & Ha & Hs & Hh); exists a.
    - rewrite !(later_obs_size w1 w2), !(later_obs_sha1 w1 w2) by done.
      split; [by apply Harc|done].
    - rewrite !(later_obs_size w1 w2) in Hs by done.
      rewrite !(later_obs_sha1 w1 w2) in Hh by done.
      split; [by apply Harc|done]. }
  rewrite Hm1, Hm2, Hu1, Hu2, Hscr, Hag. done.
Qed.

(** ** The tree loader *)

Lemma read_files_inner dirpath filenames res total w :
  ∃ w',
    for_each filenames (res, total)
      (λ '(res, total_files) filename,
         lazy <- new_LazyFile (os_path_join dirpath filename) ;;
         ret (res ++ [lazy], S total_files)) w
    = Ok ((res ++ seq (length (heap w)) (length filenames),
           total + length filenames), w')
    ∧ heap w' = heap w ++ (fresh_file <$> (os_path_join dirpath <$> filenames))
    ∧ fs w' = fs w ∧ writable w' = writable w ∧ stdout w' = stdout w
    ∧ io_log w' = io_log w.
Proof.
  revert res total w. induction filenames as [|f filenames IH]; intros res total w.
  - exists w. simpl. rewrite !app_nil_r, Nat.add_0_r. done.
  - simpl. unfold bind at 1. unfold bind at 1. simpl.
    destruct (IH (res ++ [length (heap w)]) (S total)
                (set_heap (heap w ++ [mkLazyFile (os_path_join dirpath f) None None]) w))
      as (w' & Hrun & Hh & Hf & Hwr & Hs & Hio).
    exists w'. rewrite Hrun. simpl in *.
    rewrite length_app, <-!app_assoc in *. simpl in *.
    rewrite Nat.add_1_r, Nat.add_succ_r. done.
Qed.

Lemma walk_paths_cons dirpath dirnames filenames triples :
  walk_paths ((dirpath, dirnames, filenames) :: triples)
  = (os_path_join dirpath <$> filenames) ++ walk_paths triples.
Proof. done. Qed.

Lemma read_files_outer triples res total w :
  ∃ w',
    for_each triples (res, total)
      (λ acc '(dirpath, dirnames, filenames),
         for_each filenames acc
           (λ '(res, total_files) filename,
              lazy <- new_LazyFile (os_path_join dirpath filename) ;;
              ret (res ++ [lazy], S total_files))) w
    = Ok ((res ++ seq (length (heap w)) (length (walk_paths triples)),
           total + length (walk_paths triples)), w')
    ∧ heap w' = heap w ++ (fresh_file <$> walk_paths triples)
    ∧ fs w' = fs w ∧ writable w' = writable w ∧ stdout w' = stdout w
    ∧ io_log w' = io_log w.
Proof.
  revert res total w.
  induction triples as [|[[dirpath dirnames] filenames] triples IH];
    intros res total w.
  - exists w. unfold walk_paths. simpl. rewrite !app_nil_r, Nat.add_0_r. done.
  - rewrite walk_paths_cons.
    change (for_each ((dirpath, dirnames, filenames) :: triples) (res, total) ?body w)
      with (bind (body (res, total) (dirpath, dirnames, filenames))
              (λ acc', for_each triples acc' body) w).
    unfold bind at 1.
    destruct (read_files_inner dirpath filenames res total w)
      as (w1 & -> & Hh1 & Hf1 & Hwr1 & Hs1 & Hio1).
    destruct (IH (res ++ seq (length (heap w)) (length filenames))
                (total + length filenames) w1)
      as (w' & Hrun & Hh & Hf & Hwr & Hs & Hio).
    exists w'. rewrite Hrun, Hh, Hh1.
    rewrite !length_app, !fmap_app, !length_fmap, seq_app, <-!app_assoc.
    rewrite Nat.add_assoc.
    split_and!; [done|done|congruence..].
Qed.

Lemma walk_Ok top w triples w' :
  walk top w = Ok (triples, w') →
  triples = os_walk (S (base.size (fs w))) (fs w) top ∧
  w' = add_io (IoScandir top) w.
Proof.
  intros H. injection H as H1 H2. split; symmetry; [exact H1|exact H2].
Qed.

(** The branch of [read_files] for a root that is not a regular file. *)
Lemma read_files_walk_Ok path w files w' :
  (triples <- walk path ;;
   r <- for_each triples ([], O)
          (λ acc '(dirpath, dirnames, filenames),
             for_each filenames acc
               (λ '(res, total_files) filename,
                  let full_path := os_path_join dirpath filename in
                  lazy <- new_LazyFile full_path ;;
                  ret (res ++ [lazy], S total_files))) ;;
   let '(res, total_files) := r in
   print ("A total of " +:+ pretty total_files +:+ " were contained in "
            +:+ path) ;;;
   ret res) w = Ok (files, w') →
  let paths := walk_paths (os_walk (S (base.size (fs w))) (fs w) path) in
  files = seq (length (heap w)) (length paths) ∧
  heap w' = heap w ++ (fresh_file <$> paths) ∧
  fs w' = fs w ∧ writable w' = writable w ∧
  stdout w' = stdout w ++ ["A total of " +:+ pretty (length paths)
                             +:+ " were contained in " +:+ path] ∧
  io_log w' = io_log w ++ [IoScandir path].
Proof.
  intros H paths. subst paths.
  apply bind_Ok in H as (triples & w2 & Hwalk & H).
  apply walk_Ok in Hwalk as [Htriples ->]. rewrite <-Htriples. clear Htriples.
  apply bind_Ok in H as ([res total] & w3 & Hloop & H).
  destruct (read_files_outer triples [] 0 (add_io (IoScandir path) w))
    as (w4 & Hrun & Hh & Hf & Hwr & Hs & Hio).
  pose proof (eq_trans (eq_sym Hrun) Hloop) as Heq. injection Heq as <- <- <-.
  apply bind_Ok in H as ([] & w5 & Hprint & H).
  apply ret_Ok in H as [<- <-].
  unfold print in Hprint. injection Hprint as <-.
  unfold add_stdout. simpl. rewrite Hh, Hf, Hwr, Hs, Hio. done.
Qed.

(** What [read_files] returns, and the world it leaves. *)
Lemma read_files_Ok path w files w' :
  read_files path w = Ok (files, w') →
  ∃ paths,
    files = seq (length (heap w)) (length paths) ∧
    heap w' = heap w ++ (fresh_file <$> paths) ∧
    fs w' = fs w ∧ writable w' = writable w ∧
    match fs w !! path with
    | Some (File _) =>
        paths = [path] ∧ stdout w' = stdout w ∧ io_log w' = io_log w ++ [IoStat path]
    | _ =>
        paths = walk_paths (os_walk (S (base.size (fs w))) (fs w) path) ∧
        stdout w' = stdout w ++ ["A total of " +:+ pretty (length paths)
                                   +:+ " were contained in " +:+ path] ∧
        io_log w' = io_log w ++ [IoStat path; IoScandir path]
    end.
Proof.
  unfold read_files. intros H. apply bind_Ok in H as (isfile & w1 & [= <- <-] & H).
  destruct (fs w !! path) as [[data|sz names]|] eqn:Hpath.
  - run_inv H. subst. injection Hrun as <- <-. exists [path]. done.
  - apply read_files_walk_Ok in H as (-> & Hh & Hf & Hwr & Hs & Hio).
    eexists. split_and!; try done. by rewrite Hio; simpl; rewrite <-app_assoc.
  - apply read_files_walk_Ok in H as (-> & Hh & Hf & Hwr & Hs & Hio).
    eexists. split_and!; try done. by rewrite Hio; simpl; rewrite <-app_assoc.
Qed.

(** X10.  [read_files] returns new descriptors: they are distinct, none was
    in the heap before, each has its path and both caches unset, and the
    descriptors that existed are left as they were.  The file system is not
    changed.  For a root that is a regular file the result is the one
    descriptor of that path and nothing is printed; otherwise the number
    printed is the number of descriptors returned. *)
Theorem read_files_fresh path w files w' :
  read_files path w = Ok (files, w') →
  NoDup files ∧ fs w' = fs w ∧
  (∀ x, x ∈ files →
     length (heap w) ≤ x ∧ is_Some (path_of w' x) ∧
     cached_size w' x = None ∧ cached_sha1 w' x = None) ∧
  (∀ x, x < length (heap w) → heap w' !! x = heap w !! x) ∧
  match fs w !! path with
  | Some (File _) =>
      files = [length (heap w)] ∧ path_of w' (length (heap w)) = Some path ∧
      stdout w' = stdout w
  | _ =>
      stdout w' = stdout w ++ ["A total of " +:+ pretty (length files)
                                 +:+ " were contained in " +:+ path]
  end.
Proof.
  intros (paths & -> & Hh & Hf & _ & Hcase)%read_files_Ok.
  split_and!.
  - apply NoDup_seq.
  - done.
  - intros x [Hlo Hhi]%elem_of_seq.
    assert (heap w' !! x = fresh_file <$> paths !! (x - length (heap w))) as Hx.
    { rewrite Hh, lookup_app_r, list_lookup_fmap by lia. done. }
    destruct (lookup_lt_is_Some_2 paths (x - length (heap w))) as [p Hp]; [lia|].
    unfold path_of, cached_size, cached_sha1. rewrite Hx, Hp. simpl.
    split_and!; [lia|eauto|done|done].
  - intros x Hx. by rewrite Hh, lookup_app_l.
  - destruct (fs w !! path) as [[data|sz names]|].
    + destruct Hcase as (-> & Hs & _). split_and!; [done| |done].
      unfold path_of. rewrite Hh, lookup_app_r by lia.
      by rewrite Nat.sub_diag.
    + destruct Hcase as (_ & -> & _). by rewrite length_seq.
    + destruct Hcase as (_ & -> & _). by rewrite length_seq.
Qed.

(** ** The digest and the reads of [sha1] *)

Section MoreSha1.
Context {hashlib : Hashlib}.

Lemma hash_loop_stream turns rest h :
  (∀ h a b, sha1_update (sha1_update h a) b = sha1_update h (a ++ b)) →
  (∀ h, sha1_update h [] = h) →
  length rest < turns → hash_loop turns rest h = sha1_update h rest.
Proof.
  intros update_app update_nil. revert rest h.
  induction turns as [|turns IH]; intros rest h Hlen; [lia|].
  simpl. pose proof HASH_BUF_BYTES_pos as Hpos.
  destruct (take HASH_BUF_BYTES rest) as [|b data] eqn:Htake.
  - destruct rest as [|c rest]; [by rewrite update_nil|].
    destruct HASH_BUF_BYTES; [lia|done].
  - rewrite IH.
    + by rewrite update_app, <-Htake, take_drop.
    + rewrite length_drop. apply (f_equal length) in Htake.
      rewrite length_take in Htake. simpl in *. lia.
Qed.

(** X11.  When the hash accumulator is a streaming one (feeding two pieces
    one after the other is feeding their concatenation, and feeding nothing
    changes nothing, as for [hashlib.sha1]), the first access to [sha1] of a
    descriptor of a regular file returns the digest of the whole content
    fed at once, whatever the length of the file, and caches it. *)
Theorem sha1_hashes_whole_content x w p content :
  (∀ h a b, sha1_update (sha1_update h a) b = sha1_update h (a ++ b)) →
  (∀ h, sha1_update h [] = h) →
  path_of w x = Some p → cached_sha1 w x = None →
  fs w !! p = Some (File content) →
  ∃ w', sha1 x w = Ok (sha1_hexdigest (sha1_update sha1_new content), w') ∧
        cached_sha1 w' x = Some (sha1_hexdigest (sha1_update sha1_new content)).
Proof.
  intros update_app update_nil Hp Hc Hf. unfold path_of, cached_sha1 in *.
  destruct (heap w !! x) as [o|] eqn:Hx; [|done]. simpl in *.
  injection Hp as <-.
  destruct (sha1_fill x w o content Hx Hc Hf) as [evs Hrun].
  unfold digest in Hrun. rewrite hash_loop_stream in Hrun by (done || lia).
  eexists. split; [done|]. simpl.
  rewrite list_lookup_insert_eq by (by eapply lookup_lt_Some). done.
Qed.

(** The reads of the loop: what each returned, in order. *)
Lemma read_loop_reads turns path rest h w :
  length rest < turns →
  ∃ ks, read_loop turns path rest h w
        = Ok (hash_loop turns rest h,
              mkWorld (fs w) (writable w) (heap w) (stdout w)
                (io_log w ++ (IoRead path <$> ks ++ [0]))) ∧
        Forall (λ k, 0 < k ≤ HASH_BUF_BYTES) ks ∧
        sum_list ks = length rest.
Proof.
  revert rest h w. induction turns as [|turns IH]; intros rest h w Hlen; [lia|].
  simpl. unfold bind, log_io. simpl. pose proof HASH_BUF_BYTES_pos as Hpos.
  destruct (take HASH_BUF_BYTES rest) as [|b data] eqn:Htake.
  - exists []. split_and!; [done|constructor|].
    destruct rest as [|c rest]; [done|]. destruct HASH_BUF_BYTES; [lia|done].
  - assert (length (b :: data) = length rest `min` HASH_BUF_BYTES) as Hk.
    { rewrite <-Htake, length_take. lia. }
    destruct (IH (drop HASH_BUF_BYTES rest) (sha1_update h (b :: data))
                (add_io (IoRead path (length (b :: data))) w))
      as (ks & -> & Hall & Hsum).
    { rewrite length_drop. simpl in Hk. lia. }
    exists (length (b :: data) :: ks). split_and!.
    + simpl. by rewrite <-app_assoc.
    + constructor; [simpl in *; lia|done].
    + simpl sum_list. rewrite Hsum, length_drop. simpl in *. lia.
Qed.

(** X12.  The first access to [sha1] of a descriptor of a regular file
    opens the file once and reads it to the end in pieces of at most
    [HASH_BUF_BYTES] bytes: the reads are logged in order, each but the last
    returned between 1 and [HASH_BUF_BYTES] bytes, together they returned
    the whole content, and the last returned nothing.  Nothing else is
    logged, and the file system is not changed. *)
Theorem sha1_reads_in_chunks x w p content v w' :
  path_of w x = Some p → cached_sha1 w x = None →
  fs w !! p = Some (File content) →
  sha1 x w = Ok (v, w') →
  fs w' = fs w ∧
  ∃ ks, io_log w' = io_log w ++ IoOpen p :: (IoRead p <$> ks ++ [0]) ∧
        Forall (λ k, 0 < k ≤ HASH_BUF_BYTES) ks ∧
        sum_list ks = length content.
Proof.
  intros Hp Hc Hf Hrun. unfold path_of, cached_sha1 in *.
  destruct (heap w !! x) as [o|] eqn:Hx; [|done]. simpl in *.
  injection Hp as <-.
  unfold sha1, set_sha1, open_rb, assign, bind, ret, deref in Hrun.
  rewrite Hx, Hc, Hf in Hrun.
  destruct (read_loop_reads (S (length content)) (full_path o) content sha1_new
              (add_io (IoOpen (full_path o)) w)) as (ks & Hloop & Hall & Hsum);
    [lia|].
  rewrite Hloop in Hrun.
  cbn [heap set_heap add_io fs writable stdout io_log] in Hrun.
  rewrite Hx in Hrun. injection Hrun as <- <-.
  split; [done|]. exists ks. split_and!; [|done|done].
  simpl. by rewrite <-app_assoc.
Qed.
End MoreSha1.

(** ** The filter and the report writer *)

Lemma filter_not_ignored_filter scratch w kept w' :
  filter_not_ignored scratch w = Ok (kept, w') ↔
  Forall (λ d, is_Some (path_of w d)) scratch ∧
  kept = filter (λ d, keeps w d = true) scratch ∧ w' = w.
Proof.
  revert kept w'. induction scratch as [|f scratch IH]; intros kept w'; simpl.
  - rewrite ret_Ok. split; [by intros [<- <-]|by intros (_ & -> & ->)].
  - rewrite bind_Ok. split.
    + intros (b & w1 & (-> & p & Hp & ->)%ignored_by_path_Ok & H).
      apply bind_Ok in H as (kept' & w2 & (Hall & -> & ->)%IH & [<- <-]%ret_Ok).
      split_and!; [constructor; eauto| |done].
      assert (Hk : keeps w f = negb (ignored_loop p IGNORED_FILES))
        by (unfold keeps; by rewrite Hp).
      rewrite filter_cons, Hk.
      by destruct (ignored_loop p IGNORED_FILES).
    + intros (Hall & -> & ->). apply Forall_cons in Hall as [[p Hp] Hall].
      exists (ignored_loop p IGNORED_FILES), w. split.
      { apply ignored_by_path_Ok. eauto. }
      apply bind_Ok. eexists _, w. split; [by apply IH|].
      apply ret_Ok. split; [|done].
      assert (Hk : keeps w f = negb (ignored_loop p IGNORED_FILES))
        by (unfold keeps; by rewrite Hp).
      rewrite filter_cons, Hk.
      by destruct (ignored_loop p IGNORED_FILES).
Qed.

(** X13.  The filter of [main] is a list filter: it returns, in the order
    of the input and with their repetitions, the descriptors whose path
    ends with none of the ignored suffixes, and it changes nothing.  It
    raises only for a reference to no object. *)
Theorem filter_keeps_order scratch w kept w' :
  filter_not_ignored scratch w = Ok (kept, w') ↔
  Forall (λ d, is_Some (path_of w d)) scratch ∧
  kept = filter (λ d, keeps w d = true) scratch ∧ w' = w.
Proof. apply filter_not_ignored_filter. Qed.

Lemma sorted_paths_perm files1 files2 w1 w2 paths1 :
  files1 ≡ₚ files2 → (∀ d, path_of w2 d = path_of w1 d) →
  Forall2 (λ f p, path_of w1 f = Some p) files1 paths1 →
  ∃ paths2, Forall2 (λ f p, path_of w2 f = Some p) files2 paths2 ∧
            paths1 ≡ₚ paths2 ∧
            merge_sort String.le paths2 = merge_sort String.le paths1.
Proof.
  intros Hperm Hpath Hall.
  destruct (Permutation_Forall2 Hperm Hall) as (paths2 & Hp & Hall2).
  exists paths2. split_and!.
  - eapply Forall2_impl; [done|]. intros f p Hf. by rewrite Hpath.
  - done.
  - apply (Sorted_unique String.le); try apply (Sorted_merge_sort String.le).
    by rewrite !merge_sort_Permutation.
Qed.

Lemma write_paths_sim files1 files2 out_file w1 w2 w1' :
  files1 ≡ₚ files2 → fs w2 = fs w1 → writable w2 = writable w1 →
  (∀ d, path_of w2 d = path_of w1 d) →
  write_paths_to_file files1 out_file w1 = Ok (tt, w1') →
  ∃ w2', write_paths_to_file files2 out_file w2 = Ok (tt, w2') ∧
         fs w2' = fs w1' ∧ writable w2' = writable w1' ∧
         stdout w2' = stdout w2 ∧ heap w2' = heap w2 ∧
         stdout w1' = stdout w1 ∧ heap w1' = heap w1.
Proof.
  intros Hperm Hfs Hwr Hpath
    (paths1 & Hall & Hw & Hd & He & ->)%write_paths_to_file_Ok.
  destruct (sorted_paths_perm _ _ _ _ _ Hperm Hpath Hall)
    as (paths2 & Hall2 & Hp & Hsort).
  eexists. split.
  - apply write_paths_to_file_Ok. exists paths2.
    split_and!; [done|by rewrite Hwr|by rewrite Hfs|by rewrite <-Hp|done].
  - simpl. by rewrite Hsort, Hfs, Hwr.
Qed.

(** X14.  The report does not depend on the order of the list it is given:
    for a rearrangement of the descriptors the writer returns in the same
    cases and leaves the same world. *)
Theorem report_ignores_order files1 files2 out_file w w' :
  files1 ≡ₚ files2 →
  write_paths_to_file files1 out_file w = Ok (tt, w') →
  write_paths_to_file files2 out_file w = Ok (tt, w').
Proof.
  intros Hperm (paths1 & Hall & Hw & Hd & He & ->)%write_paths_to_file_Ok.
  destruct (sorted_paths_perm _ _ w w _ Hperm (λ _, eq_refl) Hall)
    as (paths2 & Hall2 & Hp & Hsort).
  apply write_paths_to_file_Ok. exists paths2. rewrite Hsort.
  split_and!; [done..| |done]. by rewrite <-Hp.
Qed.

(** ** [main] as a whole *)

Section MoreMain.
Context {hashlib : Hashlib}.

Lemma size_sha1_later set_iter scr arc w r w' :
  match_by set_iter scr arc [size_key; sha1_key] w = Ok (r, w') → later w w'.
Proof.
  intros H.
  refine (match_by_preserve set_iter (later w) _ _ _ _ _ _ _ H (later_refl _)).
  intros func y w4 k4 w4' Hfunc _ Hrun4 Hw4.
  apply elem_of_cons in Hfunc as [->|Hfunc];
    [|apply list_elem_of_singleton in Hfunc as ->].
  - apply size_key_Ok in Hrun4 as (v & Hrun4 & _).
    eapply later_trans; [done|]. by eapply later_size.
  - apply sha1_key_Ok in Hrun4 as (v & Hrun4 & _).
    eapply later_trans; [done|]. by eapply later_sha1.
Qed.

Lemma read_files_arg_Ok path w files w' :
  read_files_arg path w = Ok (files, w') →
  ∃ paths pre,
    files = seq (length (heap w)) (length paths) ∧
    heap w' = heap w ++ (fresh_file <$> paths) ∧
    fs w' = fs w ∧ writable w' = writable w ∧
    stdout w' = stdout w ++ pre ∧ length pre ≤ 1.
Proof.
  destruct path as [p|]; [|done]. simpl.
  intros (paths & -> & Hh & Hf & Hwr & Hcase)%read_files_Ok.
  destruct (fs w !! p) as [[data|sz names]|].
  - exists paths, []. destruct Hcase as (_ & -> & _). rewrite app_nil_r.
    split_and!; done || (simpl; lia).
  - eexists paths, [_]. destruct Hcase as (_ & -> & _).
    split_and!; done || (simpl; lia).
  - eexists paths, [_]. destruct Hcase as (_ & -> & _).
    split_and!; done || (simpl; lia).
Qed.

(** The end of [main]: the reports, when an output directory was given. *)
Lemma main_reports matched no_match (output : option string) w4 w' :
  match output with
  | Some output =>
      ∃ w5, write_paths_to_file matched (os_path_join output "duplicates.txt") w4
              = Ok (tt, w5) ∧
            write_paths_to_file no_match (os_path_join output "missing.txt") w5
              = Ok (tt, w')
  | None => w' = w4
  end →
  writable w' = writable w4 ∧ heap w' = heap w4 ∧ stdout w' = stdout w4 ∧
  match output with
  | Some output =>
      ∃ pm pu,
        Forall2 (λ f p, path_of w4 f = Some p) matched pm ∧
        Forall2 (λ f p, path_of w4 f = Some p) no_match pu ∧
        fs w' = <[os_path_join output "missing.txt" :=
                    File (String.list_byte_of_string (report_text pu))]>
                  (<[os_path_join output "duplicates.txt" :=
                       File (String.list_byte_of_string (report_text pm))]> (fs w4))
  | None => fs w' = fs w4
  end.
Proof.
  destruct output as [output|]; [|by intros ->].
  intros (w5 & (pm & Hpm & _ & _ & _ & ->)%write_paths_to_file_Ok
             & (pu & Hpu & _ & _ & _ & ->)%write_paths_to_file_Ok).
  split_and!; [done..|]. by exists pm, pu.
Qed.

(** X15.  In a run of [main] that returns, the descriptors are new objects
    and all distinct, across the scratch and the archive list; so every
    scratch descriptor that passed the filter is in exactly one of the two
    results, exactly once, and the numbers add up.  The last line printed is
    the summary, with the number of unmatched, of filtered scratch and of
    archive descriptors; before it at most the two lines of the loader are
    printed. *)
Theorem main_counts set_iter args w L w' :
  (∀ X, set_iter X ≡ₚ elements X) →
  main set_iter args w = Ok (L, w') →
  NoDup (loc_scratch L ++ loc_archive L) ∧
  (∀ d, d ∈ loc_scratch L ++ loc_archive L →
     length (heap w) ≤ d < length (heap w')) ∧
  NoDup (loc_matched L ++ loc_no_match L) ∧
  loc_matched L ++ loc_no_match L ≡ₚ loc_scratch L ∧
  length (loc_matched L) + length (loc_no_match L) = length (loc_scratch L) ∧
  ∃ pre, length pre ≤ 2 ∧
    stdout w' = stdout w ++ pre ++
      [pretty (length (loc_no_match L)) +:+ "/" +:+ pretty (length (loc_scratch L))
         +:+ " scratch files do not appear in the archive ("
         +:+ pretty (length (loc_archive L)) +:+ " files)."].
Proof.
  intros set_iter_perm
    (scratch0 & w1 & archive & w2 & scratch & matched & no_match & w3
       & Hs & Ha & Hf & Hm & -> & Hout)%main_Ok.
  cbn [loc_scratch loc_archive loc_matched loc_no_match]. cbv zeta in Hout.
  apply read_files_arg_Ok in Hs as (ps & pre1 & -> & Hh1 & Hf1 & Hwr1 & Hs1 & Hl1).
  apply read_files_arg_Ok in Ha as (pa & pre2 & -> & Hh2 & Hf2 & Hwr2 & Hs2 & Hl2).
  apply filter_not_ignored_filter in Hf as (Hvalid & -> & _).
  pose proof (size_sha1_later _ _ _ _ _ _ Hm) as Hl.
  apply main_reports in Hout as (Hwr' & Hh' & Hs' & _).
  pose proof (match_by_perm set_iter set_iter_perm _ _ _ _ _ _ _ Hm) as Hperm.
  assert (NoDup (filter (λ d, keeps w2 d = true)
                   (seq (length (heap w)) (length ps)) ++
                 seq (length (heap w1)) (length pa))) as Hnd.
  { apply NoDup_app. split_and!; [apply NoDup_filter, NoDup_seq| |apply NoDup_seq].
    intros d [_ Hd]%list_elem_of_filter Hd'. apply elem_of_seq in Hd, Hd'.
    rewrite Hh1, length_app, length_fmap in Hd'. lia. }
  split_and!.
  - done.
  - intros d Hd. rewrite Hh'. simpl.
    rewrite (later_length _ _ Hl), Hh2, Hh1, !length_app, !length_fmap.
    apply elem_of_app in Hd as [[_ Hd]%list_elem_of_filter|Hd];
      apply elem_of_seq in Hd;
      rewrite ?Hh1, ?length_app, ?length_fmap in Hd; lia.
  - rewrite Hperm. by apply NoDup_app in Hnd as [? _].
  - done.
  - by rewrite <-Hperm, length_app.
  - exists (pre1 ++ pre2). split; [rewrite length_app; lia|].
    rewrite Hs'. simpl. by rewrite (later_stdout _ _ Hl), Hs2, Hs1, <-!app_assoc.
Qed.

(** X16.  [main] writes nothing but the two reports.  What may be written
    is as before; without an output directory the file system at the end is
    the file system at the start; with one, it is the file system at the
    start with [duplicates.txt] holding the report of the matched and
    [missing.txt] the report of the unmatched descriptors, and every other
    path as it was. *)
Theorem main_writes_only_reports set_iter args w L w' :
  main set_iter args w = Ok (L, w') →
  writable w' = writable w ∧
  match args_output args with
  | None => fs w' = fs w
  | Some output =>
      ∃ pm pu,
        Forall2 (λ f p, path_of w' f = Some p) (loc_matched L) pm ∧
        Forall2 (λ f p, path_of w' f = Some p) (loc_no_match L) pu ∧
        fs w' = <[os_path_join output "missing.txt" :=
                    File (String.list_byte_of_string (report_text pu))]>
                  (<[os_path_join output "duplicates.txt" :=
                       File (String.list_byte_of_string (report_text pm))]> (fs w)) ∧
        ∀ p, p ≠ os_path_join output "duplicates.txt" →
             p ≠ os_path_join output "missing.txt" → fs w' !! p = fs w !! p
  end.
Proof.
  intros (scratch0 & w1 & archive & w2 & scratch & matched & no_match & w3
            & Hs & Ha & Hf & Hm & -> & Hout)%main_Ok.
  cbn [loc_scratch loc_archive loc_matched loc_no_match]. cbv zeta in Hout.
  apply read_files_arg_Ok in Hs as (ps & pre1 & _ & _ & Hf1 & Hwr1 & _).
  apply read_files_arg_Ok in Ha as (pa & pre2 & _ & _ & Hf2 & Hwr2 & _).
  pose proof (size_sha1_later _ _ _ _ _ _ Hm) as Hl.
  apply main_reports in Hout as (Hwr' & Hh' & Hs' & Hout).
  assert (fs w3 = fs w) as Hfs.
  { by rewrite (later_fs _ _ Hl), Hf2, Hf1. }
  split.
  - rewrite Hwr'. simpl. by rewrite (later_writable _ _ Hl), Hwr2, Hwr1.
  - destruct (args_output args) as [output|]; [|by rewrite Hout].
    destruct Hout as (pm & pu & Hpm & Hpu & Hout). simpl in Hout.
    rewrite Hfs in Hout. exists pm, pu. split_and!.
    + eapply Forall2_impl; [exact Hpm|]. intros f p. unfold path_of. by rewrite Hh'.
    + eapply Forall2_impl; [exact Hpu|]. intros f p. unfold path_of. by rewrite Hh'.
    + done.
    + intros p H1 H2. by rewrite Hout, !lookup_insert_ne.
Qed.

(** X17.  What [main] prints and writes does not depend on the order in
    which Python iterates over the sets of keys.  When a run returns, the
    run with any other iteration order returns too; it works on the same
    scratch and archive lists, its results hold the same descriptors
    (possibly in another order), and it leaves the same printed lines and
    the same file system, reports included. *)
Theorem main_independent_of_set_order set_iter1 set_iter2 args w L1 w1' :
  (∀ X, set_iter1 X ≡ₚ elements X) → (∀ X, set_iter2 X ≡ₚ elements X) →
  main set_iter1 args w = Ok (L1, w1') →
  ∃ L2 w2', main set_iter2 args w = Ok (L2, w2') ∧
    loc_scratch L2 = loc_scratch L1 ∧ loc_archive L2 = loc_archive L1 ∧
    loc_matched L2 ≡ₚ loc_matched L1 ∧ loc_no_match L2 ≡ₚ loc_no_match L1 ∧
    fs w2' = fs w1' ∧ stdout w2' = stdout w1'.
Proof.
  intros Hp1 Hp2
    (scratch0 & w1 & archive & w2 & scratch & m1 & u1 & w3
       & Hs & Ha & Hf & Hm & -> & Hout)%main_Ok.
  cbn [loc_scratch loc_archive loc_matched loc_no_match]. cbv zeta in Hout.
  destruct (match_by_returned_then set_iter1 Hp1 _ _ _ _ _ Hm) as [Hsz Hdg].
  destruct (match_by_returns_when set_iter2 Hp2 scratch archive w2 Hsz Hdg)
    as ([m2 u2] & w3' & Hm2).
  assert (NoDup scratch) as Hnd.
  { pose proof Hs as (ps & pre1 & -> & _)%read_files_arg_Ok.
    apply filter_not_ignored_filter in Hf as (_ & -> & _).
    apply NoDup_filter, NoDup_seq. }
  destruct (match_by_NoDup set_iter1 Hp1 _ _ _ _ _ _ _ Hm Hnd) as (Hm1nd & Hu1nd & _).
  destruct (match_by_NoDup set_iter2 Hp2 _ _ _ _ _ _ _ Hm2 Hnd) as (Hm2nd & Hu2nd & _).
  assert (m2 ≡ₚ m1) as Hpm.
  { apply NoDup_Permutation; [done..|]. intros x.
    destruct (size_sha1_classes set_iter1 Hp1 _ _ _ _ _ _ Hm x) as [-> _].
    by destruct (size_sha1_classes set_iter2 Hp2 _ _ _ _ _ _ Hm2 x) as [-> _]. }
  assert (u2 ≡ₚ u1) as Hpu.
  { apply NoDup_Permutation; [done..|]. intros x.
    destruct (size_sha1_classes set_iter1 Hp1 _ _ _ _ _ _ Hm x) as [_ ->].
    by destruct (size_sha1_classes set_iter2 Hp2 _ _ _ _ _ _ Hm2 x) as [_ ->]. }
  pose proof (size_sha1_later _ _ _ _ _ _ Hm) as Hl.
  pose proof (size_sha1_later _ _ _ _ _ _ Hm2) as Hl'.
  set (line := pretty (length u1) +:+ "/" +:+ pretty (length scratch)
                 +:+ " scratch files do not appear in the archive ("
                 +:+ pretty (length archive) +:+ " files).") in *.
  assert (∃ w2', match args_output args with
                 | Some output =>
                     ∃ w5, write_paths_to_file m2
                             (os_path_join output "duplicates.txt")
                             (add_stdout line w3') = Ok (tt, w5) ∧
                           write_paths_to_file u2
                             (os_path_join output "missing.txt") w5 = Ok (tt, w2')
                 | None => w2' = add_stdout line w3'
                 end ∧ fs w2' = fs w1' ∧ stdout w2' = stdout w1') as (w2' & Hout2 & Hfs & Hso).
  { assert (∀ d, path_of (add_stdout line w3') d = path_of (add_stdout line w3) d)
      as Hpath.
    { intros d. unfold path_of. simpl.
      change (path_of w3' d = path_of w3 d).
      by rewrite (later_path_of _ _ d Hl), (later_path_of _ _ d Hl'). }
    assert (fs (add_stdout line w3') = fs (add_stdout line w3)) as Hfs4.
    { simpl. by rewrite (later_fs _ _ Hl), (later_fs _ _ Hl'). }
    assert (writable (add_stdout line w3') = writable (add_stdout line w3)) as Hwr4.
    { simpl. by rewrite (later_writable _ _ Hl), (later_writable _ _ Hl'). }
    assert (stdout (add_stdout line w3') = stdout (add_stdout line w3)) as Hso4.
    { simpl. by rewrite (later_stdout _ _ Hl), (later_stdout _ _ Hl'). }
    destruct (args_output args) as [output|].
    - destruct Hout as (w5 & H1 & H2).
      destruct (write_paths_sim m1 m2 _ _ _ _ (symmetry Hpm) Hfs4 Hwr4 Hpath H1)
        as (w5' & H1' & Hfs5 & Hwr5 & Hso5 & Hh5 & Hso5' & Hh5').
      assert (∀ d, path_of w5' d = path_of w5 d) as Hpath5.
      { intros d. unfold path_of. rewrite Hh5, Hh5'. apply Hpath. }
      destruct (write_paths_sim u1 u2 _ w5 w5' _ (symmetry Hpu) Hfs5 Hwr5 Hpath5 H2)
        as (w6' & H2' & Hfs6 & Hwr6 & Hso6 & Hh6 & Hso6' & Hh6').
      exists w6'. split; [by exists w5'|]. split; [done|].
      by rewrite Hso6, Hso5, Hso6', Hso5'.
    - subst w1'. by eexists. }
  exists (mkLocals scratch archive m2 u2), w2'. split_and!; try done.
  apply main_Ok. exists scratch0, w1, archive, w2, scratch, m2, u2, w3'.
  split_and!; try done. simpl.
  replace (length u2) with (length u1) by (by rewrite Hpu). done.
Qed.
End MoreMain.

(** ** What the loader lists *)

Lemma os_walk_triples depth f top d dirs nondirs :
  (d, dirs, nondirs) ∈ os_walk depth f top →
  ∃ sz names, f !! d = Some (Dir sz names) ∧
    dirs = filter (λ name, is_dir f (os_path_join d name) = true) names ∧
    nondirs = filter (λ name, is_dir f (os_path_join d name) = false) names.
Proof.
  revert top. induction depth as [|depth IH]; intros top; simpl.
  - by intros ?%elem_of_nil.
  - destruct (f !! top) as [[data|sz names]|] eqn:Htop;
      try by intros ?%elem_of_nil.
    intros [[= -> -> ->]|Hin]%elem_of_cons; [by exists sz, names|].
    apply elem_of_concat in Hin as (l & Hl & Hin).
    apply list_elem_of_fmap in Hl as (name & -> & _). by eapply IH.
Qed.

Lemma elem_of_walk_paths p triples :
  p ∈ walk_paths triples ↔
  ∃ d dirs nondirs name, (d, dirs, nondirs) ∈ triples ∧ name ∈ nondirs ∧
                         p = os_path_join d name.
Proof.
  unfold walk_paths. rewrite elem_of_concat. split.
  - intros (l & Hl & Hp). apply list_elem_of_fmap in Hl as ([[d dirs] nondirs] & -> & Ht).
    apply list_elem_of_fmap in Hp as (name & -> & Hname). simpl in *.
    by exists d, dirs, nondirs, name.
  - intros (d & dirs & nondirs & name & Ht & Hname & ->).
    exists (os_path_join d <$> nondirs). split.
    + apply list_elem_of_fmap. by exists (d, dirs, nondirs).
    + apply list_elem_of_fmap. by exists name.
Qed.

Lemma read_files_path_of w w' paths x :
  heap w' = heap w ++ (fresh_file <$> paths) →
  x ∈ seq (length (heap w)) (length paths) →
  ∃ p, p ∈ paths ∧ heap w' !! x = Some (fresh_file p).
Proof.
  intros Hh [Hlo Hhi]%elem_of_seq.
  destruct (lookup_lt_is_Some_2 paths (x - length (heap w))) as [p Hp]; [lia|].
  exists p. split; [by eapply list_elem_of_lookup_2|].
  rewrite Hh, lookup_app_r, list_lookup_fmap by lia. by rewrite Hp.
Qed.

(** X18.  For a root that is a directory, every descriptor [read_files]
    returns has the path of a name listed in a directory of the file system,
    joined to the path of that directory, and that path is not a directory;
    and for every name listed in the root whose path is not a directory a
    descriptor is returned.  Directories get no descriptor. *)
Theorem read_files_lists root w files w' sz names :
  fs w !! root = Some (Dir sz names) →
  read_files root w = Ok (files, w') →
  (∀ x, x ∈ files →
     ∃ dir dsz dnames name,
       fs w !! dir = Some (Dir dsz dnames) ∧ name ∈ dnames ∧
       is_dir (fs w) (os_path_join dir name) = false ∧
       path_of w' x = Some (os_path_join dir name)) ∧
  (∀ name, name ∈ names → is_dir (fs w) (os_path_join root name) = false →
     ∃ x, x ∈ files ∧ path_of w' x = Some (os_path_join root name)).
Proof.
  intros Hroot (paths & -> & Hh & _ & _ & Hcase)%read_files_Ok.
  rewrite Hroot in Hcase. destruct Hcase as (Hpaths & _).
  split.
  - intros x Hx.
    destruct (read_files_path_of _ _ _ _ Hh Hx) as (p & Hp & Hlook).
    rewrite Hpaths in Hp.
    apply elem_of_walk_paths in Hp as (d & dirs & nondirs & name & Ht & Hname & ->).
    apply os_walk_triples in Ht as (dsz & dnames & Hd & _ & ->).
    apply list_elem_of_filter in Hname as [Hnd Hname].
    exists d, dsz, dnames, name. split_and!; [done..|].
    unfold path_of. by rewrite Hlook.
  - intros name Hname Hnd.
    assert (os_path_join root name ∈ paths) as Hp.
    { rewrite Hpaths. apply elem_of_walk_paths. simpl. rewrite Hroot.
      eexists root, _, _, name. split; [apply elem_of_cons; by left|].
      split; [|done]. by apply list_elem_of_filter. }
    apply list_elem_of_lookup in Hp as [i Hi].
    exists (length (heap w) + i). split.
    + apply elem_of_seq. apply lookup_lt_Some in Hi. lia.
    + unfold path_of. rewrite Hh, lookup_app_r, list_lookup_fmap by lia.
      replace (length (heap w) + i - length (heap w)) with i by lia.
      by rewrite Hi.
Qed.

(** ** When [main] returns *)

Lemma read_files_returns path w : ∃ files w', read_files path w = Ok (files, w').
Proof.
  unfold read_files.
  destruct (fs w !! path) as [[data|sz names]|] eqn:Hpath.
  - eexists _, _. apply bind_Ok. eexists _, _.
    split; [unfold os_path_isfile; rewrite Hpath; reflexivity|]. reflexivity.
  - destruct (read_files_outer (os_walk (S (base.size (fs w))) (fs w) path) [] 0
                (add_io (IoScandir path) (add_io (IoStat path) w)))
      as (w3 & Hrun & _).
    eexists _, _. apply bind_Ok. eexists _, _.
    split; [unfold os_path_isfile; rewrite Hpath; reflexivity|].
    apply bind_Ok. eexists _, _. split; [reflexivity|].
    apply bind_Ok. eexists _, _. split; [exact Hrun|]. reflexivity.
  - destruct (read_files_outer (os_walk (S (base.size (fs w))) (fs w) path) [] 0
                (add_io (IoScandir path) (add_io (IoStat path) w)))
      as (w3 & Hrun & _).
    eexists _, _. apply bind_Ok. eexists _, _.
    split; [unfold os_path_isfile; rewrite Hpath; reflexivity|].
    apply bind_Ok. eexists _, _. split; [reflexivity|].
    apply bind_Ok. eexists _, _. split; [exact Hrun|]. reflexivity.
Qed.

Lemma loaded_are_files path w files w' :
  listed_resolve (fs w) → read_files path w = Ok (files, w') →
  ∃ paths, files = seq (length (heap w)) (length paths) ∧
    heap w' = heap w ++ (fresh_file <$> paths) ∧ fs w' = fs w ∧
    writable w' = writable w ∧
    Forall (λ p, ∃ data, fs w !! p = Some (File data)) paths.
Proof.
  intros Hres (paths & -> & Hh & Hf & Hwr & Hcase)%read_files_Ok.
  exists paths. split_and!; [done..|].
  assert (paths = walk_paths (os_walk (S (base.size (fs w))) (fs w) path) →
          Forall (λ p, ∃ data, fs w !! p = Some (File data)) paths) as Hwalk.
  { intros ->. apply Forall_forall. intros p Hp.
    apply elem_of_walk_paths in Hp as (d & dirs & nondirs & name & Ht & Hname & ->).
    apply os_walk_triples in Ht as (dsz & dnames & Hd & _ & ->).
    apply list_elem_of_filter in Hname as [Hnd Hname].
    destruct (Hres _ _ _ _ Hd Hname) as [e He]. unfold is_dir in Hnd.
    rewrite He in Hnd. destruct e; [eauto|done]. }
  destruct (fs w !! path) as [[data|sz names]|] eqn:Hpath.
  - destruct Hcase as (-> & _). constructor; [eauto|constructor].
  - destruct Hcase as (Hp & _). auto.
  - destruct Hcase as (Hp & _). auto.
Qed.

Lemma valid_paths (P : string → Prop) w files :
  (∀ x, x ∈ files → ∃ p, path_of w x = Some p ∧ P p) →
  ∃ paths, Forall2 (λ f p, path_of w f = Some p) files paths ∧ Forall P paths.
Proof.
  induction files as [|f files IH]; intros Hall; [by exists []|].
  destruct (Hall f) as (p & Hp & HP); [apply elem_of_cons; by left|].
  destruct IH as (paths & Hpaths & HPs).
  { intros x Hx. apply Hall, elem_of_cons. by right. }
  exists (p :: paths). split; by constructor.
Qed.

Lemma ready_path w x :
  ready w x → ∃ p, path_of w x = Some p ∧ is_Some (fs w !! p).
Proof.
  intros (p & data & Hx & Hp). exists p. unfold path_of. rewrite Hx, Hp. eauto.
Qed.

Section MoreReturns.
Context {hashlib : Hashlib}.
Variable set_iter : gset Key → list Key.
Hypothesis set_iter_perm : ∀ X, set_iter X ≡ₚ elements X.

Lemma ready_shows w x :
  ready w x → is_Some (path_of w x) ∧ is_Some (obs_size w x) ∧
              is_Some (obs_sha1 w x).
Proof.
  intros (p & data & Hx & Hp). unfold path_of, obs_size, obs_sha1.
  rewrite Hx. simpl. unfold size_of, sha1_of, stat_size. simpl. rewrite Hp.
  eauto.
Qed.

Lemma main_returns_when args w rs ra :
  args_scratch args = Some rs → args_archive args = Some ra →
  listed_resolve (fs w) →
  (∀ output, args_output args = Some output →
     paths_encodable (fs w) ∧
     Forall (λ out, writable w out = true ∧ is_dir (fs w) out = false)
       [os_path_join output "duplicates.txt"; os_path_join output "missing.txt"]) →
  ∃ L w', main set_iter args w = Ok (L, w').
Proof.
  intros Hrs Hra Hres Hout.
  destruct (read_files_returns rs w) as (scratch0 & w1 & Hs).
  destruct (read_files_returns ra w1) as (archive & w2 & Ha).
  destruct (loaded_are_files _ _ _ _ Hres Hs) as (ps & -> & Hh1 & Hf1 & Hwr1 & Hps).
  rewrite <-Hf1 in Hres.
  destruct (loaded_are_files _ _ _ _ Hres Ha) as (pa & -> & Hh2 & Hf2 & Hwr2 & Hpa).
  assert (∀ x, x ∈ seq (length (heap w)) (length ps) ++
                   seq (length (heap w1)) (length pa) → ready w2 x) as Hready.
  { intros x [Hx|Hx]%elem_of_app.
    - destruct (read_files_path_of _ _ _ _ Hh1 Hx) as (p & Hp & Hlook).
      rewrite Forall_forall in Hps. destruct (Hps p Hp) as [data Hdata].
      exists p, data. split; [|by rewrite Hf2, Hf1].
      rewrite Hh2. by apply lookup_app_l_Some.
    - destruct (read_files_path_of _ _ _ _ Hh2 Hx) as (p & Hp & Hlook).
      rewrite Forall_forall in Hpa. destruct (Hpa p Hp) as [data Hdata].
      exists p, data. split; [done|by rewrite Hf2]. }
  set (scratch := filter (λ d, keeps w2 d = true) (seq (length (heap w)) (length ps))).
  assert (filter_not_ignored (seq (length (heap w)) (length ps)) w2
          = Ok (scratch, w2)) as Hf.
  { apply filter_not_ignored_filter. split_and!; [|done..].
    apply Forall_forall. intros x Hx.
    apply (ready_shows w2 x), Hready, elem_of_app. by left. }
  assert (∀ x, x ∈ scratch ++ seq (length (heap w1)) (length pa) → ready w2 x)
    as Hready'.
  { intros x [[_ Hx]%list_elem_of_filter|Hx]%elem_of_app;
      apply Hready, elem_of_app; auto. }
  destruct (match_by_returns_when set_iter set_iter_perm scratch
              (seq (length (heap w1)) (length pa)) w2)
    as ([m u] & w3 & Hm).
  { intros x Hx. by destruct (ready_shows w2 x (Hready' x Hx)) as (_ & ? & _). }
  { intros x Hx _. by destruct (ready_shows w2 x (Hready' x Hx)) as (_ & _ & ?). }
  pose proof (size_sha1_later _ _ _ _ _ _ Hm) as Hl.
  set (line := pretty (length u) +:+ "/" +:+ pretty (length scratch)
                 +:+ " scratch files do not appear in the archive ("
                 +:+ pretty (length (seq (length (heap w1)) (length pa)))
                 +:+ " files).").
  assert (∀ files, files ⊆ m ++ u →
            ∃ paths, Forall2 (λ f p, path_of (add_stdout line w3) f = Some p)
                       files paths ∧
                     Forall (λ p, is_Some (fs w !! p)) paths) as Hpaths.
  { intros files Hsub. apply valid_paths. intros x Hx%Hsub.
    destruct (ready_path w2 x) as (p & Hp & Hsome).
    { apply Hready', elem_of_app. left.
      apply (match_by_elem_of set_iter set_iter_perm _ _ _ _ _ _ _ x Hm).
      by apply elem_of_app. }
    exists p. split; [|by rewrite <-Hf1, <-Hf2].
    change (path_of w3 x = Some p). by rewrite (later_path_of _ _ x Hl). }
  assert (∃ w',
    match args_output args with
    | Some output =>
        ∃ w5, write_paths_to_file m (os_path_join output "duplicates.txt")
                (add_stdout line w3) = Ok (tt, w5) ∧
              write_paths_to_file u (os_path_join output "missing.txt") w5
                = Ok (tt, w')
    | None => w' = add_stdout line w3
    end) as [w' Hw'].
  { destruct (args_output args) as [output|]; [|by eexists].
    destruct (Hout output eq_refl) as [Henc Hfiles].
    apply Forall_cons in Hfiles as [[Hw1 Hd1] Hfiles].
    apply Forall_cons in Hfiles as [[Hw2 Hd2] _].
    destruct (Hpaths m) as (pm & Hpm & Hpm'); [set_solver|].
    destruct (Hpaths u) as (pu & Hpu & Hpu'); [set_solver|].
    eexists. eexists. split.
    - apply write_paths_to_file_Ok. exists pm. split_and!; [done| | | |done].
      + simpl. by rewrite (later_writable _ _ Hl), Hwr2, Hwr1.
      + simpl. by rewrite (later_fs _ _ Hl), Hf2, Hf1.
      + eapply Forall_impl; [exact Hpm'|]. apply Henc.
    - apply write_paths_to_file_Ok. exists pu. split_and!; [done| | | |done].
      + simpl. by rewrite (later_writable _ _ Hl), Hwr2, Hwr1.
      + unfold is_dir. simpl.
        rewrite lookup_insert_ne by apply report_paths_differ.
        rewrite (later_fs _ _ Hl), Hf2, Hf1. apply Hd2.
      + eapply Forall_impl; [exact Hpu'|]. apply Henc. }
  exists (mkLocals scratch (seq (length (heap w1)) (length pa)) m u), w'.
  apply main_Ok.
  exists (seq (length (heap w)) (length ps)), w1,
         (seq (length (heap w1)) (length pa)), w2, scratch, m, u, w3.
  rewrite Hrs, Hra. split_and!; done.
Qed.

End MoreReturns.

(** ** More key functions, fewer matches *)

Section MoreStages.
Context {W F : Type}.
Variable set_iter : gset Key → list Key.
Hypothesis set_iter_perm : ∀ X, set_iter X ≡ₚ elements X.

(** X20.  Adding key functions at the end of the list can only move files
    from matched to unmatched: when the key of a file does not depend on the
    moment of the call, every file matched with the longer list is matched
    with the shorter one, and every file unmatched with the shorter list is
    unmatched with the longer one.  So what [main] matches by size and
    digest is among what it would match by size alone. *)
Theorem more_keys_fewer_matches (I : W → Prop)
    (funcs1 funcs2 : list (@KeyFn W F)) kfs1 kfs2
    (scr arc : list F) w1 w2 m1 u1 w1' m2 u2 w2' :
  Forall2 (shows I) funcs1 kfs1 → Forall2 (shows I) funcs2 kfs2 →
  I w1 → I w2 →
  match_by set_iter scr arc funcs1 w1 = Ok ((m1, u1), w1') →
  match_by set_iter scr arc (funcs1 ++ funcs2) w2 = Ok ((m2, u2), w2') →
  (∀ x, x ∈ m2 → x ∈ m1) ∧ (∀ x, x ∈ u1 → x ∈ u2).
Proof.
  intros Hk1 Hk2 Hw1 Hw2 H1 H2.
  pose proof (λ x, match_by_elem_of set_iter set_iter_perm _ _ _ _ _ _ _ x H1) as Hin1.
  pose proof (λ x, match_by_elem_of set_iter set_iter_perm _ _ _ _ _ _ _ x H2) as Hin2.
  assert (∀ x, x ∈ m2 → x ∈ m1) as Hsub.
  { destruct funcs1 as [|func funcs1].
    - apply match_by_nil_Ok in H1 as [[= -> ->] _].
      intros x Hx. apply Hin2. by left.
    - destruct (match_by_shows set_iter set_iter_perm I _ _ _ _ _ _ _ _
                  Hk1 ltac:(done) H1 Hw1) as [_ Hm1].
      destruct (match_by_shows set_iter set_iter_perm I _ _ _ _ _ _ _ _
                  (Forall2_app Hk1 Hk2) ltac:(done) H2 Hw2) as [_ Hm2].
      intros x (Hx & a & Ha & Hall)%Hm2. apply Hm1. split; [done|].
      exists a. split; [done|]. by apply Forall_app in Hall as [? _]. }
  split; [done|]. intros x Hx.
  assert (x ∈ scr) as Hscr by (apply Hin1; by right).
  apply Hin2 in Hscr as [Hm|?]; [|done]. exfalso.
  by apply (match_by_shows_disjoint set_iter set_iter_perm I _ _ _ _ _ _ _ _
              Hk1 H1 Hw1 x (Hsub x Hm)).
Qed.
End MoreStages.

(** ** Roots that do not exist *)

Section MissingRoot.
Context {hashlib : Hashlib}.
Variable set_iter : gset Key → list Key.
Hypothesis set_iter_perm : ∀ X, set_iter X ≡ₚ elements X.

(** C9, as the code has it (missing root).  A root that does not resolve
    is no error: [read_files] makes no check, and returns the empty list
    after printing that the root contained 0 files; matching then begins
    with that side empty.  Whenever [main] returns, with such a scratch
    root the scratch list and both results are empty, and with such an
    archive root nothing is matched and the whole filtered scratch list is
    unmatched.  And [main] does return with such a root when both root
    options are given, every name that a directory lists resolves, and, if
    an output directory is given, the two reports can be opened for writing
    and every path of the file system can be encoded. *)
Theorem missing_root_is_empty :
  (∀ root w,
     fs w !! root = None →
     read_files root w
     = Ok ([], add_stdout ("A total of 0 were contained in " +:+ root)
                 (add_io (IoScandir root) (add_io (IoStat root) w)))) ∧
  (∀ args root w L w',
     args_scratch args = Some root → fs w !! root = None →
     main set_iter args w = Ok (L, w') →
     loc_scratch L = [] ∧ loc_matched L = [] ∧ loc_no_match L = []) ∧
  (∀ args root w L w',
     args_archive args = Some root → fs w !! root = None →
     main set_iter args w = Ok (L, w') →
     loc_archive L = [] ∧ loc_matched L = [] ∧ loc_no_match L ≡ₚ loc_scratch L) ∧
  (∀ args rs ra w,
     args_scratch args = Some rs → args_archive args = Some ra →
     fs w !! rs = None ∨ fs w !! ra = None →
     listed_resolve (fs w) →
     (∀ output, args_output args = Some output →
        paths_encodable (fs w) ∧
        Forall (λ out, writable w out = true ∧ is_dir (fs w) out = false)
          [os_path_join output "duplicates.txt";
           os_path_join output "missing.txt"]) →
     ∃ L w', main set_iter args w = Ok (L, w')).
Proof.
  split_and!.
  - apply read_files_missing.
  - intros args root w L w' Hargs Hroot
      (scratch0 & w1 & w2 & w3 & Hs & Ha & Hf & Hm & _)%(main_paths set_iter set_iter_perm).
    rewrite Hargs in Hs. simpl in Hs. rewrite read_files_missing in Hs by done.
    injection Hs as <- <-. simpl in Hf. apply ret_Ok in Hf as [Hscr _].
    rewrite <-Hscr in *. split; [done|].
    apply (match_by_perm set_iter set_iter_perm) in Hm.
    apply Permutation_nil_r in Hm. by apply app_eq_nil in Hm.
  - intros args root w L w' Hargs Hroot
      (scratch0 & w1 & w2 & w3 & Hs & Ha & Hf & Hm & _)%(main_paths set_iter set_iter_perm).
    rewrite Hargs in Ha. simpl in Ha.
    rewrite read_files_missing in Ha
      by (by rewrite (read_files_arg_fs _ _ _ _ Hs)).
    injection Ha as Harc <-. split; [done|].
    pose proof (match_by_perm set_iter set_iter_perm _ _ _ _ _ _ _ Hm) as Hperm.
    destruct (match_by_size_sha1 _ set_iter_perm _ _ _ _ _ _ Hm) as [_ Hmatched].
    rewrite <-Harc in Hmatched.
    assert (loc_matched L = []) as Hnil.
    { destruct (loc_matched L) as [|x l]; [done|].
      destruct (proj1 (Hmatched x)) as (_ & a & ?%elem_of_nil & _); [|done].
      apply elem_of_cons. by left. }
    split; [done|]. by rewrite Hnil in Hperm.
  - intros args rs ra w Hrs Hra _.
    by apply (main_returns_when set_iter set_iter_perm args w rs ra).
Qed.
End MissingRoot.

(** * The further properties on the sample tree *)

(** In the sample tree every listed name resolves, and every path is
    ASCII. *)
Lemma Sample_listed_resolve : listed_resolve Sample.tree.
Proof.
  intros dir sz names name Hdir Hname.
  apply elem_of_list_to_map_2 in Hdir.
  repeat (apply elem_of_cons in Hdir as [Hdir|Hdir];
          [simplify_eq;
           repeat (apply elem_of_cons in Hname as [->|Hname];
                   [eexists; vm_compute; reflexivity|]);
           by apply elem_of_nil in Hname|]).
  by apply elem_of_nil in Hdir.
Qed.

Lemma Sample_paths_encodable : paths_encodable Sample.tree.
Proof.
  intros p [e He]. apply elem_of_list_to_map_2 in He.
  repeat (apply elem_of_cons in He as [He|He];
          [simplify_eq; vm_compute; reflexivity|]).
  by apply elem_of_nil in He.
Qed.

(** C9 as the specification states it fails: on the sample tree, with an
    archive root that does not exist, [main] returns. *)
Lemma missing_root_accepted :
  ¬ (∀ args w root,
       (args_archive args = Some root ∨ args_scratch args = Some root) →
       fs w !! root = None →
       ∃ e, main Sample.set_iter args w = Raise e).
Proof.
  intros H.
  destruct (H (mkArgs (Some "/nope") (Some "/s") None) Sample.world0 "/nope")
    as [e He].
  - left. reflexivity.
  - reflexivity.
  - vm_compute in He. discriminate He.
Qed.

(** The sample tree with the archive root [/nope], which does not exist:
    loading it gives no descriptor, and [main] returns, with reports. *)
Lemma missing_root_is_empty_witness :
  fs Sample.world0 !! "/nope" = None ∧
  (∃ w', read_files "/nope" Sample.world0 = Ok ([], w')) ∧
  ∃ L w',
    main Sample.set_iter (mkArgs (Some "/nope") (Some "/s") (Some "/out"))
      Sample.world0 = Ok (L, w').
Proof.
  destruct (missing_root_is_empty Sample.set_iter Sample_set_iter_perm)
    as (Hload & _ & _ & Hret).
  split; [reflexivity|]. split.
  - eexists. apply Hload. reflexivity.
  - apply (Hret (mkArgs (Some "/nope") (Some "/s") (Some "/out")) "/s" "/nope").
    + reflexivity.
    + reflexivity.
    + right. reflexivity.
    + exact Sample_listed_resolve.
    + intros output [= <-]. split; [exact Sample_paths_encodable|].
      repeat constructor; vm_compute; reflexivity.
Defined.

(** The scratch files [/s/a.txt], [/s/b.txt] and [/s/c.jpg] grouped by
    size. *)
Lemma group_by_groups_witness :
  ∃ g w', group_by [0; 1; 2] size_key Sample.world1 = Ok (g, w') ∧
    ∃ ps, keyed size_key [0; 1; 2] Sample.world1 = Ok (ps, w') ∧
          ps.*2 = [0; 1; 2] ∧ dom g = list_to_set ps.*1 ∧
          (∀ k, item g k = (filter (λ p, p.1 = k) ps).*2) ∧
          (∀ k l, g !! k = Some l → l ≠ []).
Proof.
  destruct (group_by [0; 1; 2] size_key Sample.world1) as [[g w']|e] eqn:Hrun;
    [|by vm_compute in Hrun].
  exists g, w'. split; [reflexivity|]. exact (group_by_groups _ _ _ _ _ Hrun).
Defined.


(** A run on the sample files leaves a world that is the first one after
    some accesses. *)
Lemma match_by_only_calls_keys_witness :
  ∃ r w',
    match_by Sample.set_iter [0; 1; 2] [5; 6] [size_key; sha1_key] Sample.world1
      = Ok (r, w') ∧ later Sample.world1 w'.
Proof.
  destruct (match_by Sample.set_iter [0; 1; 2] [5; 6] [size_key; sha1_key]
              Sample.world1) as [[r w']|e] eqn:Hrun;
    [|by vm_compute in Hrun].
  exists r, w'. split; [reflexivity|].
  apply (match_by_only_calls_keys Sample.set_iter (later Sample.world1)
           [size_key; sha1_key] [0; 1; 2] [5; 6] Sample.world1 r w').
  - intros func x w k w1 Hfunc _ Hcall Hw.
    apply elem_of_cons in Hfunc as [->|Hfunc];
      [|apply list_elem_of_singleton in Hfunc as ->].
    + apply size_key_Ok in Hcall as (v & Hcall & _).
      eapply later_trans; [exact Hw|]. eapply later_size. exact Hcall.
    + apply sha1_key_Ok in Hcall as (v & Hcall & _).
      eapply later_trans; [exact Hw|]. eapply later_sha1. exact Hcall.
  - exact Hrun.
  - apply later_refl.
Defined.

(** The calls of a recorded run on the sample files. *)
Lemma match_by_calls_witness :
  ∃ r w' tr,
    match_by Sample.set_iter [0; 1; 2] [5; 6]
      (traced_from 0 [size_key; sha1_key]) (Sample.world1, []) = Ok (r, (w', tr)) ∧
    ∃ ps pa new,
      ps.*2 = [0; 1; 2] ∧ pa.*2 = [5; 6] ∧
      tr = ((λ p, (0, p.2, p.1)) <$> ps) ++ ((λ p, (0, p.2, p.1)) <$> pa) ++ new ∧
      ∀ j x k, (j, x, k) ∈ new →
        1 ≤ j ∧ ∃ k0, ((k0, x) ∈ ps ∨ (k0, x) ∈ pa)
                      ∧ (∃ s, (k0, s) ∈ ps) ∧ (∃ a, (k0, a) ∈ pa).
Proof.
  destruct (match_by Sample.set_iter [0; 1; 2] [5; 6]
              (traced_from 0 [size_key; sha1_key]) (Sample.world1, []))
    as [[r [w' tr]]|e] eqn:Hrun; [|by vm_compute in Hrun].
  exists r, w', tr. split; [reflexivity|].
  exact (match_by_calls Sample.set_iter Sample_set_iter_perm _ _ _ _ _ _ _ _ Hrun).
Defined.

(** The sample files: matched exactly when an archive file has the same
    size and digest. *)
Lemma match_by_size_and_digest_witness :
  ∃ m u w',
    match_by Sample.set_iter [0; 1; 2] [5; 6] [size_key; sha1_key] Sample.world1
      = Ok ((m, u), w') ∧
    ∀ x, (x ∈ m ↔ x ∈ [0; 1; 2] ∧ agrees Sample.world1 [5; 6] x) ∧
         (x ∈ u ↔ x ∈ [0; 1; 2] ∧ ¬ agrees Sample.world1 [5; 6] x).
Proof.
  destruct (match_by Sample.set_iter [0; 1; 2] [5; 6] [size_key; sha1_key]
              Sample.world1) as [[[m u] w']|e] eqn:Hrun;
    [|by vm_compute in Hrun].
  exists m, u, w'. split; [reflexivity|].
  exact (match_by_size_and_digest Sample.set_iter Sample_set_iter_perm
           _ _ _ _ _ _ Hrun).
Defined.

(** The run on the sample files only reads. *)
Lemma match_by_reads_only_witness :
  ∃ r w',
    match_by Sample.set_iter [0; 1; 2] [5; 6] [size_key; sha1_key] Sample.world1
      = Ok (r, w') ∧
    fs w' = fs Sample.world1 ∧ stdout w' = stdout Sample.world1 ∧
    length (heap w') = length (heap Sample.world1) ∧
    io_log Sample.world1 `prefix_of` io_log w'.
Proof.
  destruct (match_by Sample.set_iter [0; 1; 2] [5; 6] [size_key; sha1_key]
              Sample.world1) as [[r w']|e] eqn:Hrun;
    [|by vm_compute in Hrun].
  exists r, w'. split; [reflexivity|].
  destruct (match_by_reads_only Sample.set_iter Sample_set_iter_perm
              _ _ _ _ _ Hrun) as (Hfs & _ & Hout & Hlen & Hio & _).
  exact (conj Hfs (conj Hout (conj Hlen Hio))).
Defined.

(** [/s/c.jpg] (descriptor 2, 7 bytes) against [/a/x.bin] (10 bytes): the
    digest cache of the descriptor is left unset. *)
Lemma digest_only_for_shared_sizes_witness :
  ¬ (2 ∈ [0; 1; 2] ++ [5] ∧ size_shared Sample.world1 [0; 1; 2] [5] 2) ∧
  ∃ r w',
    match_by Sample.set_iter [0; 1; 2] [5] [size_key; sha1_key] Sample.world1
      = Ok (r, w') ∧
    cached_sha1 w' 2 = None.
Proof.
  assert (¬ (2 ∈ [0; 1; 2] ++ [5] ∧ size_shared Sample.world1 [0; 1; 2] [5] 2))
    as Hno.
  { intros [_ (s & a & _ & Ha & _ & Hsz)].
    apply list_elem_of_singleton in Ha. subst a. vm_compute in Hsz.
    discriminate Hsz. }
  split; [exact Hno|].
  destruct (match_by Sample.set_iter [0; 1; 2] [5] [size_key; sha1_key]
              Sample.world1) as [[r w']|e] eqn:Hrun;
    [|by vm_compute in Hrun].
  exists r, w'. split; [reflexivity|].
  rewrite (digest_only_for_shared_sizes Sample.set_iter Sample_set_iter_perm
             _ _ _ _ _ 2 Hrun Hno).
  vm_compute. reflexivity.
Defined.

(** The matcher returns on the sample files; it raises when [/s/c.jpg]
    cannot be read, because [/a/y.gdoc] has its size. *)
Lemma match_by_returns_iff_witness :
  (∃ r w',
     match_by Sample.set_iter [0; 1; 2] [5; 6] [size_key; sha1_key] Sample.world1
       = Ok (r, w')) ∧
  ¬ (∃ r w',
       match_by Sample.set_iter [0; 1; 2] [5; 6] [size_key; sha1_key] Sample.world2
         = Ok (r, w')).
Proof.
  split.
  - apply (match_by_returns_iff Sample.set_iter Sample_set_iter_perm). split.
    + intros x Hx. apply Sample_world1_shows. exact Hx.
    + intros x Hx _. apply Sample_world1_shows. exact Hx.
  - intros Hret.
    apply (match_by_returns_iff Sample.set_iter Sample_set_iter_perm) in Hret
      as [_ Hdg].
    destruct (Hdg 2) as [h Hh].
    + set_solver.
    + exists 2, 6. split_and!; [set_solver|set_solver|vm_compute; reflexivity..].
    + vm_compute in Hh. discriminate Hh.
Defined.

(** The other iteration order: the elements of a set, last first. *)
Lemma reverse_elements_perm (X : gset Key) : reverse (elements X) ≡ₚ elements X.
Proof. apply reverse_Permutation. Qed.

(** The sample files in two orders, with sets iterated in two orders. *)
Lemma classification_is_stable_witness :
  ∃ m1 u1 w1' m2 u2 w2',
    match_by Sample.set_iter [0; 1; 2] [5; 6] [size_key; sha1_key] Sample.world1
      = Ok ((m1, u1), w1') ∧
    match_by (λ X, reverse (elements X)) [2; 1; 0] [6; 5] [size_key; sha1_key]
      Sample.world1 = Ok ((m2, u2), w2') ∧
    ∀ x, (x ∈ m1 ↔ x ∈ m2) ∧ (x ∈ u1 ↔ x ∈ u2).
Proof.
  destruct (match_by Sample.set_iter [0; 1; 2] [5; 6] [size_key; sha1_key]
              Sample.world1) as [[[m1 u1] w1']|e] eqn:Hrun1;
    [|by vm_compute in Hrun1].
  destruct (match_by (λ X, reverse (elements X)) [2; 1; 0] [6; 5]
              [size_key; sha1_key] Sample.world1) as [[[m2 u2] w2']|e] eqn:Hrun2;
    [|by vm_compute in Hrun2].
  exists m1, u1, w1', m2, u2, w2'. split; [reflexivity|]. split; [reflexivity|].
  apply (classification_is_stable Sample.set_iter (λ X, reverse (elements X))
           [0; 1; 2] [2; 1; 0] [5; 6] [6; 5] Sample.world1 Sample.world1
           m1 u1 w1' m2 u2 w2').
  - exact Sample_set_iter_perm.
  - exact reverse_elements_perm.
  - intros x. rewrite !elem_of_cons. tauto.
  - intros x. rewrite !elem_of_cons. tauto.
  - apply later_refl.
  - exact Hrun1.
  - exact Hrun2.
Defined.

(** Loading [/s] in the sample tree. *)
Lemma read_files_fresh_witness :
  ∃ files w',
    read_files "/s" Sample.world0 = Ok (files, w') ∧
    NoDup files ∧ fs w' = fs Sample.world0 ∧
    stdout w' = stdout Sample.world0
                  ++ ["A total of " +:+ pretty (length files)
                        +:+ " were contained in /s"].
Proof.
  destruct (read_files "/s" Sample.world0) as [[files w']|e] eqn:Hrun;
    [|by vm_compute in Hrun].
  exists files, w'. split; [reflexivity|].
  destruct (read_files_fresh "/s" Sample.world0 files w' Hrun)
    as (Hnd & Hfs & _ & _ & Hout).
  exact (conj Hnd (conj Hfs Hout)).
Defined.

(** The digest of [/s/a.txt] with the sample accumulator, which is a
    streaming one. *)
Lemma sha1_hashes_whole_content_witness :
  ∃ w', sha1 0 Sample.world1 = Ok ("0123456789", w') ∧
        cached_sha1 w' 0 = Some "0123456789".
Proof.
  apply (sha1_hashes_whole_content (hashlib:=Sample.hashlib) 0 Sample.world1
           "/s/a.txt" (Sample.bytes "0123456789")).
  - intros h a b. simpl. symmetry. apply app_assoc.
  - intros h. simpl. apply app_nil_r.
  - vm_compute. reflexivity.
  - vm_compute. reflexivity.
  - vm_compute. reflexivity.
Defined.

(** The reads of [/s/a.txt]: its ten bytes, then nothing. *)
Lemma sha1_reads_in_chunks_witness :
  ∃ v w', sha1 0 Sample.world1 = Ok (v, w') ∧
    fs w' = fs Sample.world1 ∧
    ∃ ks, io_log w' = io_log Sample.world1
                        ++ IoOpen "/s/a.txt" :: (IoRead "/s/a.txt" <$> ks ++ [0]) ∧
          Forall (λ k, 0 < k ≤ HASH_BUF_BYTES) ks ∧
          sum_list ks = length (Sample.bytes "0123456789").
Proof.
  destruct (sha1 0 Sample.world1) as [[v w']|e] eqn:Hrun;
    [|by vm_compute in Hrun].
  exists v, w'. split; [reflexivity|].
  apply (sha1_reads_in_chunks 0 Sample.world1 "/s/a.txt"
           (Sample.bytes "0123456789") v w').
  - vm_compute. reflexivity.
  - vm_compute. reflexivity.
  - vm_compute. reflexivity.
  - exact Hrun.
Defined.

(** The five scratch descriptors of the sample tree: [.DS_Store] and
    [notes.gdoc] are dropped, the others kept in order. *)
Lemma filter_keeps_order_witness :
  filter_not_ignored [0; 1; 2; 3; 4] Sample.world1 = Ok ([0; 1; 2], Sample.world1).
Proof.
  apply filter_keeps_order. split_and!.
  - repeat constructor; eexists; vm_compute; reflexivity.
  - vm_compute. reflexivity.
  - reflexivity.
Defined.

(** The report for [/s/c.jpg] and [/s/b.txt], given in either order. *)
Lemma report_ignores_order_witness :
  [2; 1] ≡ₚ [1; 2] ∧
  ∃ w', write_paths_to_file [2; 1] "/out/missing.txt" Sample.world1 = Ok (tt, w') ∧
        write_paths_to_file [1; 2] "/out/missing.txt" Sample.world1 = Ok (tt, w').
Proof.
  split; [apply perm_swap|].
  destruct (write_paths_to_file [2; 1] "/out/missing.txt" Sample.world1)
    as [[[] w']|e] eqn:Hrun; [|by vm_compute in Hrun].
  exists w'. split; [reflexivity|].
  exact (report_ignores_order [2; 1] [1; 2] "/out/missing.txt" Sample.world1 w'
           (perm_swap 1 2 []) Hrun).
Defined.

(** The sample tree, scratch [/s] against archive [/a], with reports in
    [/out]. *)
Lemma main_counts_witness :
  ∃ L w',
    main Sample.set_iter (mkArgs (Some "/a") (Some "/s") (Some "/out")) Sample.world0
      = Ok (L, w') ∧
    NoDup (loc_scratch L ++ loc_archive L) ∧
    NoDup (loc_matched L ++ loc_no_match L) ∧
    length (loc_matched L) + length (loc_no_match L) = length (loc_scratch L).
Proof.
  destruct (main Sample.set_iter (mkArgs (Some "/a") (Some "/s") (Some "/out"))
              Sample.world0) as [[L w']|e] eqn:Hrun; [|by vm_compute in Hrun].
  exists L, w'. split; [reflexivity|].
  destruct (main_counts Sample.set_iter _ _ L w' Sample_set_iter_perm Hrun)
    as (Hnd & _ & Hnd' & _ & Hlen & _).
  exact (conj Hnd (conj Hnd' Hlen)).
Defined.

(** The same run: apart from the two reports the file system is as
    before. *)
Lemma main_writes_only_reports_witness :
  ∃ L w',
    main Sample.set_iter (mkArgs (Some "/a") (Some "/s") (Some "/out")) Sample.world0
      = Ok (L, w') ∧
    writable w' = writable Sample.world0 ∧
    fs w' !! "/s/a.txt" = fs Sample.world0 !! "/s/a.txt".
Proof.
  destruct (main Sample.set_iter (mkArgs (Some "/a") (Some "/s") (Some "/out"))
              Sample.world0) as [[L w']|e] eqn:Hrun; [|by vm_compute in Hrun].
  exists L, w'. split; [reflexivity|].
  destruct (main_writes_only_reports Sample.set_iter _ _ L w' Hrun)
    as (Hwr & pm & pu & _ & _ & _ & Hother).
  split; [exact Hwr|]. apply Hother; vm_compute; discriminate.
Defined.

(** The same run with the sets iterated last element first. *)
Lemma main_independent_of_set_order_witness :
  ∃ L1 w1',
    main Sample.set_iter (mkArgs (Some "/a") (Some "/s") (Some "/out")) Sample.world0
      = Ok (L1, w1') ∧
    ∃ L2 w2',
      main (λ X, reverse (elements X))
        (mkArgs (Some "/a") (Some "/s") (Some "/out")) Sample.world0 = Ok (L2, w2') ∧
      loc_matched L2 ≡ₚ loc_matched L1 ∧ loc_no_match L2 ≡ₚ loc_no_match L1 ∧
      fs w2' = fs w1' ∧ stdout w2' = stdout w1'.
Proof.
  destruct (main Sample.set_iter (mkArgs (Some "/a") (Some "/s") (Some "/out"))
              Sample.world0) as [[L1 w1']|e] eqn:Hrun; [|by vm_compute in Hrun].
  exists L1, w1'. split; [reflexivity|].
  destruct (main_independent_of_set_order Sample.set_iter (λ X, reverse (elements X))
              _ _ L1 w1' Sample_set_iter_perm reverse_elements_perm Hrun)
    as (L2 & w2' & Hrun2 & _ & _ & Hm & Hu & Hfs & Hout).
  exists L2, w2'. exact (conj Hrun2 (conj Hm (conj Hu (conj Hfs Hout)))).
Defined.

(** Loading [/s]: a descriptor for [/s/a.txt], which the root lists. *)
Lemma read_files_lists_witness :
  ∃ files w',
    read_files "/s" Sample.world0 = Ok (files, w') ∧
    ∃ x, x ∈ files ∧ path_of w' x = Some "/s/a.txt".
Proof.
  destruct (read_files "/s" Sample.world0) as [[files w']|e] eqn:Hrun;
    [|by vm_compute in Hrun].
  exists files, w'. split; [reflexivity|].
  destruct (read_files_lists "/s" Sample.world0 files w' 4096
              ["a.txt"; "b.txt"; "c.jpg"; ".DS_Store"; "sub"]) as [_ Hlisted].
  - vm_compute. reflexivity.
  - exact Hrun.
  - apply (Hlisted "a.txt").
    + apply elem_of_cons. left. reflexivity.
    + vm_compute. reflexivity.
Defined.


(** The sample files by size alone and by size and digest: [/s/b.txt] has
    the size of [/a/x.bin] and another digest. *)
Lemma more_keys_fewer_matches_witness :
  ∃ m1 u1 w1' m2 u2 w2',
    match_by Sample.set_iter [0; 1; 2] [5; 6] [size_key] Sample.world1
      = Ok ((m1, u1), w1') ∧
    match_by Sample.set_iter [0; 1; 2] [5; 6] ([size_key] ++ [sha1_key]) Sample.world1
      = Ok ((m2, u2), w2') ∧
    (∀ x, x ∈ m2 → x ∈ m1) ∧ (∀ x, x ∈ u1 → x ∈ u2).
Proof.
  destruct (match_by Sample.set_iter [0; 1; 2] [5; 6] [size_key] Sample.world1)
    as [[[m1 u1] w1']|e] eqn:Hrun1; [|by vm_compute in Hrun1].
  destruct (match_by Sample.set_iter [0; 1; 2] [5; 6] ([size_key] ++ [sha1_key])
              Sample.world1) as [[[m2 u2] w2']|e] eqn:Hrun2;
    [|by vm_compute in Hrun2].
  exists m1, u1, w1', m2, u2, w2'. split; [reflexivity|]. split; [reflexivity|].
  apply (more_keys_fewer_matches Sample.set_iter Sample_set_iter_perm
           (later Sample.world1) [size_key] [sha1_key]
           [λ x, KInt <$> obs_size Sample.world1 x]
           [λ x, KStr <$> obs_sha1 Sample.world1 x]
           [0; 1; 2] [5; 6] Sample.world1 Sample.world1 m1 u1 w1' m2 u2 w2').
  - constructor; [apply size_key_shows|constructor].
  - constructor; [apply sha1_key_shows|constructor].
  - apply later_refl.
  - apply later_refl.
  - exact Hrun1.
  - exact Hrun2.
Defined.
